(** * Nazara Engine, Graphics module: forward render queue and light nodes

    A shallow embedding of [src/Nazara/Graphics/ForwardRenderQueue.cpp] and
    [src/Nazara/Graphics/Light.cpp], with the properties the specification
    states about them.

    Conventions of the embedding:
    - a C++ pointer is its address, an integer; [nullptr] is address 0;
      pointer comparison is comparison of addresses;
    - the objects the queue only refers to (materials, meshes, models,
      lights) live in a [Heap] read through the accessors the code calls;
    - a [float] is an exact rational number: rounding, infinities and NaN
      are outside the model;
    - [std::vector] is a list, [operator[]] out of range is an undefined
      result ([None]). *)

From Stdlib Require Import ZArith QArith Qcanon Lia.
From Stdlib Require Import Sorting.Permutation Sorting.Sorted.
From stdpp Require Import base list numbers strings gmap sorting pretty.

Local Open Scope Z_scope.

(** ** Pointers and numbers *)

Definition ptr := Z.
Definition nullptr : ptr := 0.

(** [if (p)] on a pointer. *)
Definition non_null (p : ptr) : bool := negb (p =? nullptr).

Definition float := Qc.

(** [a < b] on floats. *)
Definition flt (a b : float) : bool := bool_decide (a < b)%Qc.

(** ** Enumerations ([include/Nazara/Graphics/Enums.hpp])

    A C++ enumeration is an integer that may hold a value outside the named
    ones, which is what the [default:] branches of the code are for. *)

Definition nzLightType := Z.
Definition nzLightType_Directional : nzLightType := 0.
Definition nzLightType_Point : nzLightType := 1.
Definition nzLightType_Spot : nzLightType := 2.
Definition nzLightType_Max : nzLightType := nzLightType_Spot.

Definition nzSceneNodeType := Z.
Definition nzSceneNodeType_Light : nzSceneNodeType := 0.

(** Modelled from the spec: the animation kinds of a submesh
    ([Nazara/Utility/Enums.hpp] is not part of the sources): a submesh is
    skeletal or static. *)
Definition nzAnimationType := Z.
Definition nzAnimationType_Skeletal : nzAnimationType := 0.
Definition nzAnimationType_Static : nzAnimationType := 1.

(** ** Build configuration ([Nazara/Graphics/Config.hpp]) *)

Definition NAZARA_GRAPHICS_INSTANCING_MIN_INSTANCES_COUNT : Z := 100.
Definition NAZARA_GRAPHICS_MEMORYLEAKTRACKER : bool := false.
Definition NAZARA_GRAPHICS_SAFE : bool := true.

(** ** Vectors and boxes

    [NzVector3f] and its companions are plain triples of floats.  The box
    follows the specification of the bounding volume: an axis-aligned box,
    kept here by its two extreme corners. *)

Record Vector2f := mkVector2f { v2x : float; v2y : float }.
Record Vector3f := mkVector3f { vx : float; vy : float; vz : float }.
Record Vector4f := mkVector4f { v4x : float; v4y : float; v4z : float; v4w : float }.

Definition f0 : float := Qc_of_Z 0.
Definition f1 : float := Qc_of_Z 1.

Definition fmin (a b : float) : float := if bool_decide (a ≤ b)%Qc then a else b.
Definition fmax (a b : float) : float := if bool_decide (a ≤ b)%Qc then b else a.

(** [NzVector3f(v)]: the three components equal. *)
Definition Vector3f_splat (v : float) : Vector3f := mkVector3f v v v.
Definition Vector3f_Zero : Vector3f := Vector3f_splat f0.
Definition Vector3f_neg (a : Vector3f) : Vector3f :=
  mkVector3f (- vx a)%Qc (- vy a)%Qc (- vz a)%Qc.
Definition Vector3f_add (a b : Vector3f) : Vector3f :=
  mkVector3f (vx a + vx b)%Qc (vy a + vy b)%Qc (vz a + vz b)%Qc.
Definition Vector3f_sub (a b : Vector3f) : Vector3f :=
  mkVector3f (vx a - vx b)%Qc (vy a - vy b)%Qc (vz a - vz b)%Qc.
Definition Vector3f_scale (a : Vector3f) (k : float) : Vector3f :=
  mkVector3f (vx a * k)%Qc (vy a * k)%Qc (vz a * k)%Qc.
(** [NzVector4f(vec3, w)]. *)
Definition Vector4f_of (a : Vector3f) (w : float) : Vector4f :=
  mkVector4f (vx a) (vy a) (vz a) w.

(** Modelled from the spec: [NzBoxf] ([Nazara/Math/Box.hpp] is not part of
    the sources), the box a bounding volume is made of, with the three
    operations the light uses: the degenerate box on one point, the box
    spanned by two corners, and the extension of a box to a further point. *)
Record Boxf := mkBoxf { box_min : Vector3f; box_max : Vector3f }.

Definition Boxf_point (p : Vector3f) : Boxf := mkBoxf p p.

Definition Boxf_of_corners (a b : Vector3f) : Boxf :=
  mkBoxf (mkVector3f (fmin (vx a) (vx b)) (fmin (vy a) (vy b)) (fmin (vz a) (vz b)))
         (mkVector3f (fmax (vx a) (vx b)) (fmax (vy a) (vy b)) (fmax (vz a) (vz b))).

Definition Boxf_ExtendTo (b : Boxf) (p : Vector3f) : Boxf :=
  mkBoxf (mkVector3f (fmin (vx (box_min b)) (vx p)) (fmin (vy (box_min b)) (vy p))
                     (fmin (vz (box_min b)) (vz p)))
         (mkVector3f (fmax (vx (box_max b)) (vx p)) (fmax (vy (box_max b)) (vy p))
                     (fmax (vz (box_max b)) (vz p))).

Definition Boxf_Contains (b : Boxf) (p : Vector3f) : Prop :=
  (vx (box_min b) ≤ vx p ∧ vx p ≤ vx (box_max b))%Qc ∧
  (vy (box_min b) ≤ vy p ∧ vy p ≤ vy (box_max b))%Qc ∧
  (vz (box_min b) ≤ vz p ∧ vz p ≤ vz (box_max b))%Qc.

(** The eight corners of a box. *)
Definition Boxf_corners (b : Boxf) : list Vector3f :=
  let lo := box_min b in
  let hi := box_max b in
  [ mkVector3f (vx lo) (vy lo) (vz lo); mkVector3f (vx hi) (vy lo) (vz lo);
    mkVector3f (vx lo) (vy hi) (vz lo); mkVector3f (vx hi) (vy hi) (vz lo);
    mkVector3f (vx lo) (vy lo) (vz hi); mkVector3f (vx hi) (vy lo) (vz hi);
    mkVector3f (vx lo) (vy hi) (vz hi); mkVector3f (vx hi) (vy hi) (vz hi) ].

(** The smallest box around a list of points (the degenerate box at the
    origin for no point). *)
Definition Boxf_hull (ps : list Vector3f) : Boxf :=
  match ps with
  | [] => Boxf_point Vector3f_Zero
  | p :: rest => foldl Boxf_ExtendTo (Boxf_point p) rest
  end.

(** The geometry is opened by hand where a proof needs it. *)
Arguments Vector3f_neg : simpl never.
Arguments Vector3f_add : simpl never.
Arguments Vector3f_sub : simpl never.
Arguments Vector3f_scale : simpl never.
Arguments Boxf_point : simpl never.
Arguments Boxf_of_corners : simpl never.
Arguments Boxf_ExtendTo : simpl never.
Arguments Boxf_corners : simpl never.
Arguments Boxf_hull : simpl never.

(** Modelled from the spec: [NzBoundingVolumef]
    ([Nazara/Math/BoundingVolume.hpp] is not part of the sources): a volume
    is null, finite or infinite; a finite one caches its local-space shape,
    and its world-space placement (the placed corners and the axis-aligned
    box around them) is recomputed from that shape at every [Update]. *)
Inductive nzExtend := nzExtend_Finite | nzExtend_Infinite | nzExtend_Null.

Record BoundingVolumef := mkBoundingVolumef {
  extend : nzExtend;
  localBox : Boxf;
  corners : list Vector3f;
  aabb : Boxf
}.

Record Spheref := mkSpheref { sphere_center : Vector3f; sphere_radius : float }.

(** ** Services consumed from the rest of the engine

    Matrices, quaternions, planes, frustums, cameras, colours and the
    trigonometric functions are used through the calls below and nothing
    else is assumed about them. *)
Class Services := {
  Matrix4f : Type;
  Quaternionf : Type;
  Planef : Type;
  Frustumf : Type;
  NzCamera : Type;
  NzColor : Type;
  Color_White : NzColor;
  (** [NzVector3f::Forward()], [Left()], [Up()] *)
  Vector3f_Forward : Vector3f;
  Vector3f_Left : Vector3f;
  Vector3f_Up : Vector3f;
  (** [NzVector4f(vec3)], the fourth component left to its default *)
  Vector4f_of_Vector3f : Vector3f → Vector4f;
  (** [quaternion * vector] *)
  Quaternionf_rotate : Quaternionf → Vector3f → Vector3f;
  (** [NzMatrix4f::Translate(position)] *)
  Matrix4f_Translate : Vector3f → Matrix4f;
  (** [NzMatrix4f::Transform(position, rotation)] *)
  Matrix4f_Transform : Vector3f → Quaternionf → Matrix4f;
  (** [matrix.GetTranslation()] *)
  Matrix4f_GetTranslation : Matrix4f → Vector3f;
  (** the image of a point under a matrix *)
  Matrix4f_apply : Matrix4f → Vector3f → Vector3f;
  (** [plane.Distance(point)] *)
  Planef_Distance : Planef → Vector3f → float;
  (** [camera.GetFrustum().GetPlane(nzFrustumPlane_Near)] *)
  Camera_nearPlane : NzCamera → Planef;
  (** [frustum.Contains(sphere)] and [frustum.Contains(volume)] *)
  Frustumf_ContainsSphere : Frustumf → Spheref → bool;
  Frustumf_ContainsVolume : Frustumf → BoundingVolumef → bool;
  (** [std::cos(NzDegreeToRadian(a))] and [std::tan(NzDegreeToRadian(a))] *)
  cos_degrees : float → float;
  tan_degrees : float → float
}.

(** ** The object graph the queue refers to

    Materials, shaders, buffers, meshes, models and lights are owned by the
    scene; the queue holds their addresses and reads them through these
    accessors. *)
Record Heap `{Services} := {
  (** [NzMaterial] *)
  GetCustomShader : ptr → ptr;
  GetShaderFlags : ptr → Z;
  IsAlphaBlendingEnabled : ptr → bool;
  (** [NzSubMesh] *)
  GetIndexBuffer : ptr → ptr;
  GetVertexBuffer : ptr → ptr;
  GetAnimationType : ptr → nzAnimationType;
  GetMaterialIndex : ptr → nat;
  (** [NzIndexBuffer::GetBuffer], [NzVertexBuffer::GetBuffer] *)
  IndexBuffer_GetBuffer : ptr → ptr;
  VertexBuffer_GetBuffer : ptr → ptr;
  (** [NzMesh] *)
  GetSubMeshCount : ptr → nat;
  GetSubMesh : ptr → nat → ptr;
  (** [NzModel] *)
  IsDrawable : ptr → bool;
  GetTransformMatrix : ptr → Matrix4f;
  GetMesh : ptr → ptr;
  GetMaterial : ptr → nat → ptr;
  (** [NzLight] *)
  GetLightType : ptr → nzLightType
}.

(** ** Logging ([NazaraError]) *)

Inductive Error :=
  | Error_text (message : string)
  (** [prefix + NzString::Number(value, 16) + suffix] *)
  | Error_number (prefix : string) (value : Z) (suffix : string).

(** ** [unsigned int] *)

Definition to_uint (z : Z) : Z := z mod 2 ^ 32.

(** [int], two's complement on 32 bits. *)
Definition to_int (z : Z) : Z := (z + 2 ^ 31) mod 2 ^ 32 - 2 ^ 31.

(** ** [std::map] with a comparator

    A map is the list of its entries in the order of the comparator.
    [operator[]] walks to the first entry whose key is not less than the
    requested one (the lower bound); if there is none, or if the requested key
    is less than the one found, a default value is inserted there.  The
    mapped value is then what the caller reads and updates. *)
Section StdMap.
Context {K V : Type} (comp : K → K → bool).

Fixpoint map_subscript (k : K) (dflt : V) (f : V → V) (m : list (K * V))
    : list (K * V) :=
  match m with
  | [] => [(k, f dflt)]
  | (k', v) :: rest =>
      if comp k' k then (k', v) :: map_subscript k dflt f rest
      else if comp k k' then (k, f dflt) :: (k', v) :: rest
      else (k', f v) :: rest
  end.

(** [find]: the mapped value of the entry equivalent to [k]. *)
Fixpoint map_find (k : K) (m : list (K * V)) : option V :=
  match m with
  | [] => None
  | (k', v) :: rest =>
      if comp k' k then map_find k rest
      else if comp k k' then None
      else Some v
  end.

(** The keys of a map are strictly increasing for its comparator. *)
Definition map_ordered (m : list (K * V)) : Prop :=
  StronglySorted (λ a b, comp a.1 b.1 = true) m.
End StdMap.

(** ** [std::sort]

    The algorithm behind [std::sort] is the standard library's own.  What the
    C++ standard promises, when the comparator is a strict weak ordering of
    the elements, is a permutation of the input in which no element is less
    than an earlier one; the order of equivalent elements is not fixed.  Any
    implementation with this contract may be the one the program runs on. *)
Definition strict_weak_order_on {A} (comp : A → A → bool) (l : list A) : Prop :=
  (∀ x, x ∈ l → comp x x = false) ∧
  (∀ x y z, x ∈ l → y ∈ l → z ∈ l →
     comp x y = true → comp y z = true → comp x z = true) ∧
  (∀ x y z, x ∈ l → y ∈ l → z ∈ l →
     comp x y = false → comp y x = false →
     comp y z = false → comp z y = false →
     comp x z = false ∧ comp z x = false).

Definition sorted_wrt {A} (comp : A → A → bool) (l : list A) : Prop :=
  StronglySorted (λ a b, comp b a = false) l.

Class StdSort := {
  std_sort : ∀ {A : Type}, (A → A → bool) → list A → list A;
  std_sort_permutation : ∀ {A : Type} (comp : A → A → bool) (l : list A),
    strict_weak_order_on comp l → l ≡ₚ std_sort comp l;
  std_sort_sorted : ∀ {A : Type} (comp : A → A → bool) (l : list A),
    strict_weak_order_on comp l → sorted_wrt comp (std_sort comp l)
}.

(** Two implementations of the contract, both by insertion. *)
Section Insertion.
Context {A : Type} (comp : A → A → bool).

(** [x] goes before the first element it is not greater than: equivalent
    elements keep their order. *)
Fixpoint insert_stable (x : A) (l : list A) : list A :=
  match l with
  | [] => [x]
  | h :: t => if comp h x then h :: insert_stable x t else x :: h :: t
  end.

(** [x] goes before the first element it is less than: equivalent elements
    end up in the reverse order. *)
Fixpoint insert_after (x : A) (l : list A) : list A :=
  match l with
  | [] => [x]
  | h :: t => if comp x h then x :: h :: t else h :: insert_after x t
  end.

Definition stable_insertion_sort (l : list A) : list A :=
  foldr insert_stable [] l.

Definition reversing_insertion_sort (l : list A) : list A :=
  foldr insert_after [] l.
End Insertion.

(** ** The forward render queue ([ForwardRenderQueue.cpp]) *)

(** Modelled from the spec: the containers of [NzForwardRenderQueue]
    ([Nazara/Graphics/ForwardRenderQueue.hpp] is not part of the sources).
    A transparent record holds a material, a mesh and a transform; the opaque
    grouping maps a material to a pair whose second component maps a static
    mesh to the transforms submitted for it. *)
Record TransparentModel `{Services} := mkTransparentModel {
  tm_material : ptr;
  tm_mesh : ptr;
  tm_transformMatrix : Matrix4f
}.

Definition BatchedMeshContainer `{Services} : Type := list (ptr * list Matrix4f).

Definition BatchedModelContainer `{Services} : Type :=
  list (ptr * (BatchedMeshContainer * BatchedMeshContainer)).

Record NzForwardRenderQueue `{Services} := mkQueue {
  directionnalLights : list ptr;
  otherDrawables : list ptr;
  visibleLights : list ptr;
  visibleModels : BatchedModelContainer;
  visibleTransparentsModels : list (Z * bool);
  transparentSkeletalModels : list TransparentModel;
  transparentStaticModels : list TransparentModel
}.

Section Queue.
Context `{Services} (heap : Heap).
(** [NAZARA_DEBUG] is set by the build. *)
Variable NAZARA_DEBUG : bool.

Definition AddDrawable (drawable : ptr) (q : NzForwardRenderQueue)
    : NzForwardRenderQueue * list Error :=
  if NAZARA_GRAPHICS_SAFE && negb (non_null drawable)
  then (q, [Error_text "Invalid drawable"])
  else (mkQueue _ (directionnalLights q) (otherDrawables q ++ [drawable])
          (visibleLights q) (visibleModels q) (visibleTransparentsModels q)
          (transparentSkeletalModels q) (transparentStaticModels q), []).

Definition AddLight (light : ptr) (q : NzForwardRenderQueue)
    : NzForwardRenderQueue * list Error :=
  if NAZARA_GRAPHICS_SAFE && negb (non_null light)
  then (q, [Error_text "Invalid light"])
  else
    let type := GetLightType heap light in
    if type =? nzLightType_Directional then
      (mkQueue _ (directionnalLights q ++ [light]) (otherDrawables q)
         (visibleLights q) (visibleModels q) (visibleTransparentsModels q)
         (transparentSkeletalModels q) (transparentStaticModels q), [])
    else if (type =? nzLightType_Point) || (type =? nzLightType_Spot) then
      (mkQueue _ (directionnalLights q) (otherDrawables q)
         (visibleLights q ++ [light]) (visibleModels q)
         (visibleTransparentsModels q)
         (transparentSkeletalModels q) (transparentStaticModels q), [])
    else if NAZARA_DEBUG then
      (q, [Error_number "Light type not handled (0x" type ")"])
    else (q, []).

Definition MaterialComparator (mat1 mat2 : ptr) : bool :=
  let shader1 := GetCustomShader heap mat1 in
  let shader2 := GetCustomShader heap mat2 in
  if non_null shader1 then
    if non_null shader2 then
      if negb (shader1 =? shader2) then shader1 <? shader2
      else mat1 <? mat2
    else true
  else if non_null shader2 then false
  else
    let shaderFlags1 := GetShaderFlags heap mat1 in
    let shaderFlags2 := GetShaderFlags heap mat2 in
    if negb (shaderFlags1 =? shaderFlags2) then shaderFlags1 <? shaderFlags2
    else mat1 <? mat2.

Definition SkeletalMeshComparator (subMesh1 subMesh2 : ptr) : bool :=
  let iBuffer1 := GetIndexBuffer heap subMesh1 in
  let buffer1 :=
    if non_null iBuffer1 then IndexBuffer_GetBuffer heap iBuffer1 else nullptr in
  let iBuffer2 := GetIndexBuffer heap subMesh1 in
  let buffer2 :=
    if non_null iBuffer2 then IndexBuffer_GetBuffer heap iBuffer2 else nullptr in
  if buffer1 =? buffer2 then subMesh1 <? subMesh2
  else buffer2 <? buffer2.

Definition StaticMeshComparator (subMesh1 subMesh2 : ptr) : bool :=
  let iBuffer1 := GetIndexBuffer heap subMesh1 in
  let buffer1 :=
    if non_null iBuffer1 then IndexBuffer_GetBuffer heap iBuffer1 else nullptr in
  let iBuffer2 := GetIndexBuffer heap subMesh1 in
  let buffer2 :=
    if non_null iBuffer2 then IndexBuffer_GetBuffer heap iBuffer2 else nullptr in
  if buffer1 =? buffer2 then
    let buffer1 := VertexBuffer_GetBuffer heap (GetVertexBuffer heap subMesh1) in
    let buffer2 := VertexBuffer_GetBuffer heap (GetVertexBuffer heap subMesh2) in
    if buffer1 =? buffer2 then subMesh1 <? subMesh2
    else buffer1 <? buffer2
  else buffer1 <? buffer2.

(** [visibleModels[material].second[staticMesh].push_back(transformMatrix)] *)
Definition push_opaque (material staticMesh : ptr) (transformMatrix : Matrix4f)
    (models : BatchedModelContainer) : BatchedModelContainer :=
  map_subscript MaterialComparator material ([], [])
    (λ entry,
       (entry.1,
        map_subscript StaticMeshComparator staticMesh []
          (λ transforms, transforms ++ [transformMatrix]) entry.2))
    models.

(** The body of the loop of [AddModel], for submesh [i].  For a blended
    submesh the code takes [index = size()] as an [unsigned int], calls
    [resize(index+1)] and fills [back()]: one record is appended while the
    store holds fewer than 2^32 - 1 records.  With 2^32 - 1 records stored
    [index+1] is 0, the store is emptied and [back()] is undefined; the
    definition appends there as well, and what is proved of the append is
    proved of stores with room for it. *)
Definition AddModel_subMesh (model : ptr) (i : nat)
    (st : NzForwardRenderQueue * list Error)
    : NzForwardRenderQueue * list Error :=
  let (q, errors) := st in
  let transformMatrix := GetTransformMatrix heap model in
  let subMesh := GetSubMesh heap (GetMesh heap model) i in
  let material := GetMaterial heap model (GetMaterialIndex heap subMesh) in
  let animation := GetAnimationType heap subMesh in
  if animation =? nzAnimationType_Skeletal then
    (q, errors ++ [Error_text "Skeletal mesh not supported yet, sorry"])
  else if animation =? nzAnimationType_Static then
    let staticMesh := subMesh in
    if IsAlphaBlendingEnabled heap material then
      let index := to_uint (Z.of_nat (length (transparentStaticModels q))) in
      (mkQueue _ (directionnalLights q) (otherDrawables q) (visibleLights q)
         (visibleModels q)
         (visibleTransparentsModels q ++ [(index, true)])
         (transparentSkeletalModels q)
         (transparentStaticModels q
            ++ [mkTransparentModel _ material staticMesh transformMatrix]),
       errors)
    else
      (mkQueue _ (directionnalLights q) (otherDrawables q) (visibleLights q)
         (push_opaque material staticMesh transformMatrix (visibleModels q))
         (visibleTransparentsModels q)
         (transparentSkeletalModels q) (transparentStaticModels q),
       errors)
  else (q, errors).

Definition AddModel (model : ptr) (q : NzForwardRenderQueue)
    : NzForwardRenderQueue * list Error :=
  if NAZARA_GRAPHICS_SAFE && negb (non_null model)
  then (q, [Error_text "Invalid model"])
  else if NAZARA_GRAPHICS_SAFE && negb (IsDrawable heap model)
  then (q, [Error_text "Model is not drawable"])
  else
    let submeshCount := GetSubMeshCount heap (GetMesh heap model) in
    foldl (λ st i, AddModel_subMesh model i st) (q, []) (seq 0 submeshCount).

Definition Clear (q : NzForwardRenderQueue) : NzForwardRenderQueue :=
  mkQueue _ [] [] [] [] [] [] [].

(** [queue->transparentStaticModels[i].transformMatrix] or
    [queue->transparentSkeletalModels[i].transformMatrix], by the tag. *)
Definition transparent_matrix (q : NzForwardRenderQueue) (static : bool) (i : Z)
    : option Matrix4f :=
  tm_transformMatrix <$>
    (if static then transparentStaticModels q else transparentSkeletalModels q)
      !! Z.to_nat i.

Definition TransparentModelComparator (q : NzForwardRenderQueue)
    (nearPlane : Planef) (index1 index2 : Z * bool) : option bool :=
  matrix1 ← transparent_matrix q index1.2 index1.1;
  matrix2 ← transparent_matrix q index1.2 index2.1;
  Some (flt (Planef_Distance nearPlane (Matrix4f_GetTranslation matrix1))
            (Planef_Distance nearPlane (Matrix4f_GetTranslation matrix2))).

(** Which comparisons [std::sort] makes is its own business.  Every
    comparison of two listed entries reads inside the stores: *)
Definition comparisons_in_range (q : NzForwardRenderQueue) (nearPlane : Planef)
    : bool :=
  forallb (λ a,
    forallb (λ b, bool_decide (is_Some (TransparentModelComparator q nearPlane a b)))
      (visibleTransparentsModels q))
    (visibleTransparentsModels q).

(** [Sort].  On a list of at most one entry [std::sort] has nothing to
    compare and the call returns.  On two entries or more every entry takes
    part in a comparison, and the call is defined when the comparisons read
    inside the stores; [None] stands for a call in which a comparison reads
    out of range. *)
Definition Sort `{StdSort} (camera : NzCamera) (q : NzForwardRenderQueue)
    : option NzForwardRenderQueue :=
  let nearPlane := Camera_nearPlane camera in
  if (length (visibleTransparentsModels q) <=? 1)%nat
     || comparisons_in_range q nearPlane then
    Some (mkQueue _ (directionnalLights q) (otherDrawables q) (visibleLights q)
            (visibleModels q)
            (std_sort
               (λ a b, default false (TransparentModelComparator q nearPlane a b))
               (visibleTransparentsModels q))
            (transparentSkeletalModels q) (transparentStaticModels q))
  else None.
End Queue.

(** ** Light nodes ([Light.cpp]) *)

(** Operations of the bounding volume (modelled from the spec, as the type
    above): [Set] stores a local-space shape, [Update] places the stored
    shape in the world. *)
Definition BoundingVolumef_IsNull (v : BoundingVolumef) : bool :=
  match extend v with nzExtend_Null => true | _ => false end.

Definition BoundingVolumef_MakeNull (v : BoundingVolumef) : BoundingVolumef :=
  mkBoundingVolumef nzExtend_Null (localBox v) (corners v) (aabb v).

Definition BoundingVolumef_MakeInfinite (v : BoundingVolumef) : BoundingVolumef :=
  mkBoundingVolumef nzExtend_Infinite (localBox v) (corners v) (aabb v).

Definition BoundingVolumef_Set (box : Boxf) (v : BoundingVolumef) : BoundingVolumef :=
  mkBoundingVolumef nzExtend_Finite box (corners v) (aabb v).

Definition BoundingVolumef_Update `{Services} (m : Matrix4f) (v : BoundingVolumef)
    : BoundingVolumef :=
  let placed := Matrix4f_apply m <$> Boxf_corners (localBox v) in
  mkBoundingVolumef (extend v) (localBox v) placed (Boxf_hull placed).

(** The volume of a default-constructed [NzBoundingVolumef]. *)
Definition BoundingVolumef_default : BoundingVolumef :=
  mkBoundingVolumef nzExtend_Null (Boxf_point Vector3f_Zero) []
    (Boxf_point Vector3f_Zero).

(** Modelled from the spec: the state of the scene-node base the light
    reads ([Nazara/Graphics/SceneNode.hpp] and [Nazara/Utility/Node.hpp] are
    not part of the sources): the cached world-space position and rotation,
    their validity flag, and the pose that composing the node's local
    transform with its ancestors' gives, which [UpdateDerived] caches. *)
Record NzSceneNode `{Services} := mkNode {
  m_derivedUpdated : bool;
  m_derivedPosition : Vector3f;
  m_derivedRotation : Quaternionf;
  world_position : Vector3f;
  world_rotation : Quaternionf
}.

Definition UpdateDerived `{Services} (n : NzSceneNode) : NzSceneNode :=
  mkNode _ true (world_position n) (world_rotation n)
    (world_position n) (world_rotation n).

Definition NzSceneNode_Invalidate `{Services} (n : NzSceneNode) : NzSceneNode :=
  mkNode _ false (m_derivedPosition n) (m_derivedRotation n)
    (world_position n) (world_rotation n).

Record NzLight `{Services} := mkLight {
  node : NzSceneNode;
  m_type : nzLightType;
  m_boundingVolume : BoundingVolumef;
  m_color : NzColor;
  m_boundingVolumeUpdated : bool;
  m_ambientFactor : float;
  m_attenuation : float;
  m_diffuseFactor : float;
  m_innerAngle : float;
  m_outerAngle : float;
  m_radius : float
}.

(** Values uploaded to a shader program, and the upload itself. *)
Inductive UniformValue `{Services} :=
  | Uniform_Integer (value : Z)
  | Uniform_Color (value : NzColor)
  | Uniform_Vector2 (value : Vector2f)
  | Uniform_Vector4 (value : Vector4f).

(** Modelled from the spec: [NzShaderProgram]
    ([Nazara/Renderer/ShaderProgram.hpp] is not part of the sources): a
    program resolves a uniform name to a location, and a [Send] stores a
    value at a location. *)
Record NzShaderProgram := mkProgram {
  GetUniformLocation : string → Z
}.

Definition run_sends `{Services} (sends : list (Z * UniformValue))
    (uniforms : gmap Z UniformValue) : gmap Z UniformValue :=
  foldl (λ u s, <[s.1 := s.2]> u) uniforms sends.

Section Light.
Context `{Services}.

Definition with_node (n : NzSceneNode) (l : NzLight) : NzLight :=
  mkLight _ n (m_type l) (m_boundingVolume l) (m_color l)
    (m_boundingVolumeUpdated l) (m_ambientFactor l) (m_attenuation l)
    (m_diffuseFactor l) (m_innerAngle l) (m_outerAngle l) (m_radius l).

Definition with_boundingVolume (v : BoundingVolumef) (l : NzLight) : NzLight :=
  mkLight _ (node l) (m_type l) v (m_color l)
    (m_boundingVolumeUpdated l) (m_ambientFactor l) (m_attenuation l)
    (m_diffuseFactor l) (m_innerAngle l) (m_outerAngle l) (m_radius l).

Definition with_boundingVolumeUpdated (b : bool) (l : NzLight) : NzLight :=
  mkLight _ (node l) (m_type l) (m_boundingVolume l) (m_color l)
    b (m_ambientFactor l) (m_attenuation l)
    (m_diffuseFactor l) (m_innerAngle l) (m_outerAngle l) (m_radius l).

(** [if (!m_derivedUpdated) UpdateDerived();] *)
Definition ensure_derived (l : NzLight) : NzLight :=
  if negb (m_derivedUpdated (node l)) then with_node (UpdateDerived (node l)) l
  else l.

(** [NzLight::NzLight(nzLightType type)], on a default-constructed node. *)
Definition NzLight_new (n : NzSceneNode) (type : nzLightType) : NzLight :=
  mkLight _ n type BoundingVolumef_default Color_White false
    (if type =? nzLightType_Directional then Q2Qc (2 # 10) else f0)
    (Q2Qc (9 # 10)) f1 (Qc_of_Z 15) (Qc_of_Z 45) (Qc_of_Z 5).

Definition GetLightType_of (l : NzLight) : nzLightType := m_type l.
Definition GetSceneNodeType (l : NzLight) : nzSceneNodeType := nzSceneNodeType_Light.
Definition NzLight_IsDrawable (l : NzLight) : bool := true.

Definition SetAmbientFactor (factor : float) (l : NzLight) : NzLight :=
  mkLight _ (node l) (m_type l) (m_boundingVolume l) (m_color l)
    (m_boundingVolumeUpdated l) factor (m_attenuation l)
    (m_diffuseFactor l) (m_innerAngle l) (m_outerAngle l) (m_radius l).

Definition SetAttenuation (attenuation : float) (l : NzLight) : NzLight :=
  mkLight _ (node l) (m_type l) (m_boundingVolume l) (m_color l)
    (m_boundingVolumeUpdated l) (m_ambientFactor l) attenuation
    (m_diffuseFactor l) (m_innerAngle l) (m_outerAngle l) (m_radius l).

Definition SetColor (color : NzColor) (l : NzLight) : NzLight :=
  mkLight _ (node l) (m_type l) (m_boundingVolume l) color
    (m_boundingVolumeUpdated l) (m_ambientFactor l) (m_attenuation l)
    (m_diffuseFactor l) (m_innerAngle l) (m_outerAngle l) (m_radius l).

Definition SetDiffuseFactor (factor : float) (l : NzLight) : NzLight :=
  mkLight _ (node l) (m_type l) (m_boundingVolume l) (m_color l)
    (m_boundingVolumeUpdated l) (m_ambientFactor l) (m_attenuation l)
    factor (m_innerAngle l) (m_outerAngle l) (m_radius l).

Definition SetInnerAngle (innerAngle : float) (l : NzLight) : NzLight :=
  mkLight _ (node l) (m_type l) (m_boundingVolume l) (m_color l)
    (m_boundingVolumeUpdated l) (m_ambientFactor l) (m_attenuation l)
    (m_diffuseFactor l) innerAngle (m_outerAngle l) (m_radius l).

Definition SetLightType (type : nzLightType) (l : NzLight) : NzLight :=
  mkLight _ (node l) type (m_boundingVolume l) (m_color l)
    (m_boundingVolumeUpdated l) (m_ambientFactor l) (m_attenuation l)
    (m_diffuseFactor l) (m_innerAngle l) (m_outerAngle l) (m_radius l).

Definition SetOuterAngle (outerAngle : float) (l : NzLight) : NzLight :=
  mkLight _ (node l) (m_type l)
    (BoundingVolumef_MakeNull (m_boundingVolume l)) (m_color l)
    false (m_ambientFactor l) (m_attenuation l)
    (m_diffuseFactor l) (m_innerAngle l) outerAngle (m_radius l).

Definition SetRadius (radius : float) (l : NzLight) : NzLight :=
  mkLight _ (node l) (m_type l)
    (BoundingVolumef_MakeNull (m_boundingVolume l)) (m_color l)
    false (m_ambientFactor l) (m_attenuation l)
    (m_diffuseFactor l) (m_innerAngle l) (m_outerAngle l) radius.

Definition Invalidate (l : NzLight) : NzLight :=
  with_boundingVolumeUpdated false (with_node (NzSceneNode_Invalidate (node l)) l).

(** The local-space box of a spot light: the apex, extended to the four
    corners of the far plane. *)
Definition spot_box (l : NzLight) : Boxf :=
  let box := Boxf_point Vector3f_Zero in
  let base := Vector3f_scale Vector3f_Forward (m_radius l) in
  let radius := (m_radius l * tan_degrees (m_outerAngle l))%Qc in
  let lExtend := Vector3f_scale Vector3f_Left radius in
  let uExtend := Vector3f_scale Vector3f_Up radius in
  let box := Boxf_ExtendTo box (Vector3f_add (Vector3f_add base lExtend) uExtend) in
  let box := Boxf_ExtendTo box (Vector3f_sub (Vector3f_add base lExtend) uExtend) in
  let box := Boxf_ExtendTo box (Vector3f_add (Vector3f_sub base lExtend) uExtend) in
  let box := Boxf_ExtendTo box (Vector3f_sub (Vector3f_sub base lExtend) uExtend) in
  box.

Definition UpdateBoundingVolume (l : NzLight) : NzLight :=
  if BoundingVolumef_IsNull (m_boundingVolume l)
     && (m_type l =? nzLightType_Directional)
  then
    with_boundingVolumeUpdated true
      (with_boundingVolume (BoundingVolumef_MakeInfinite (m_boundingVolume l)) l)
  else
    let l :=
      if BoundingVolumef_IsNull (m_boundingVolume l) then
        if m_type l =? nzLightType_Point then
          let radius := Vector3f_splat (m_radius l) in
          with_boundingVolume
            (BoundingVolumef_Set (Boxf_of_corners (Vector3f_neg radius) radius)
               (m_boundingVolume l)) l
        else if m_type l =? nzLightType_Spot then
          with_boundingVolume
            (BoundingVolumef_Set (spot_box l) (m_boundingVolume l)) l
        else l
      else l in
    let l :=
      if m_type l =? nzLightType_Directional then l
      else if m_type l =? nzLightType_Point then
        let l := ensure_derived l in
        with_boundingVolume
          (BoundingVolumef_Update
             (Matrix4f_Translate (m_derivedPosition (node l)))
             (m_boundingVolume l)) l
      else if m_type l =? nzLightType_Spot then
        let l := ensure_derived l in
        with_boundingVolume
          (BoundingVolumef_Update
             (Matrix4f_Transform (m_derivedPosition (node l))
                (m_derivedRotation (node l)))
             (m_boundingVolume l)) l
      else l in
    with_boundingVolumeUpdated true l.

(** The accessor returns the volume; the light it leaves behind carries the
    refreshed cache. *)
Definition GetBoundingVolume (l : NzLight) : BoundingVolumef * NzLight :=
  let l := if negb (m_boundingVolumeUpdated l) then UpdateBoundingVolume l else l in
  (m_boundingVolume l, l).

Definition FrustumCull (frustum : Frustumf) (l : NzLight)
    : bool * NzLight * list Error :=
  if m_type l =? nzLightType_Directional then (true, l, [])
  else if m_type l =? nzLightType_Point then
    let l := ensure_derived l in
    (Frustumf_ContainsSphere frustum
       (mkSpheref (m_derivedPosition (node l)) (m_radius l)), l, [])
  else if m_type l =? nzLightType_Spot then
    let l :=
      if negb (m_boundingVolumeUpdated l) then UpdateBoundingVolume l else l in
    (Frustumf_ContainsVolume frustum (m_boundingVolume l), l, [])
  else (false, l, [Error_number "Invalid light type (0x" (m_type l) ")"]).

(** [if (lightUnit > 0) { ... location += offset; }]: the location of a
    uniform of slot 0 moved to slot [lightUnit], the size of a slot being the
    distance between the [type] uniforms of slots 0 and 1.  The product is
    taken on [unsigned int] and kept in an [int]. *)
Definition slot_offset (program : NzShaderProgram) (lightUnit : Z) : Z :=
  let typeLocation := GetUniformLocation program "Lights[0].type" in
  let type2Location := GetUniformLocation program "Lights[1].type" in
  to_int (to_uint (lightUnit * to_uint (to_int (type2Location - typeLocation)))).

Definition slot_location (program : NzShaderProgram) (lightUnit : Z)
    (location : Z) : Z :=
  if 0 <? lightUnit then to_int (location + slot_offset program lightUnit)
  else location.

(** [Enable]: the uploads it makes, in order, and the light it leaves. *)
Definition Enable (program : NzShaderProgram) (lightUnit : Z) (l : NzLight)
    : list (Z * UniformValue) * NzLight :=
  let typeLocation := GetUniformLocation program "Lights[0].type" in
  let colorLocation := GetUniformLocation program "Lights[0].color" in
  let factorsLocation := GetUniformLocation program "Lights[0].factors" in
  let parameters1Location := GetUniformLocation program "Lights[0].parameters1" in
  let parameters2Location := GetUniformLocation program "Lights[0].parameters2" in
  let parameters3Location := GetUniformLocation program "Lights[0].parameters3" in
  let typeLocation := slot_location program lightUnit typeLocation in
  let colorLocation := slot_location program lightUnit colorLocation in
  let factorsLocation := slot_location program lightUnit factorsLocation in
  let parameters1Location := slot_location program lightUnit parameters1Location in
  let parameters2Location := slot_location program lightUnit parameters2Location in
  let parameters3Location := slot_location program lightUnit parameters3Location in
  let common :=
    [ (typeLocation, Uniform_Integer (m_type l));
      (colorLocation, Uniform_Color (m_color l));
      (factorsLocation,
       Uniform_Vector2 (mkVector2f (m_ambientFactor l) (m_diffuseFactor l))) ] in
  let l := ensure_derived l in
  let forward := Quaternionf_rotate (m_derivedRotation (node l)) Vector3f_Forward in
  let byType :=
    if m_type l =? nzLightType_Directional then
      [ (parameters1Location, Uniform_Vector4 (Vector4f_of_Vector3f forward)) ]
    else if m_type l =? nzLightType_Point then
      [ (parameters1Location,
         Uniform_Vector4 (Vector4f_of (m_derivedPosition (node l)) (m_attenuation l)));
        (parameters2Location,
         Uniform_Vector4 (mkVector4f f0 f0 f0 (f1 / m_radius l)%Qc)) ]
    else if m_type l =? nzLightType_Spot then
      [ (parameters1Location,
         Uniform_Vector4 (Vector4f_of (m_derivedPosition (node l)) (m_attenuation l)));
        (parameters2Location,
         Uniform_Vector4 (Vector4f_of forward (f1 / m_radius l)%Qc));
        (parameters3Location,
         Uniform_Vector2 (mkVector2f (cos_degrees (m_innerAngle l))
                                     (cos_degrees (m_outerAngle l)))) ]
    else [] in
  (common ++ byType, l).
End Light.

(** ** Reading the opaque grouping *)

(** The transforms grouped under [(material, mesh)], if that bucket exists. *)
Definition bucket `{Services} (heap : Heap) (q : NzForwardRenderQueue)
    (material mesh : ptr) : option (list Matrix4f) :=
  entry ← map_find (MaterialComparator heap) material (visibleModels q);
  map_find (StaticMeshComparator heap) mesh entry.2.

(** The number of entries of a map stored under a key. *)
Definition entries_under {V} (k : ptr) (m : list (ptr * V)) : nat :=
  length (filter (λ e, e.1 = k) m).

(** The number of buckets stored under [(material, mesh)]. *)
Definition bucket_count `{Services} (q : NzForwardRenderQueue)
    (material mesh : ptr) : nat :=
  sum_list ((λ e, entries_under mesh e.2.2)
              <$> filter (λ e, e.1 = material) (visibleModels q)).

(** The grouping is a well-formed pair of nested maps. *)
Definition queue_ordered `{Services} (heap : Heap) (q : NzForwardRenderQueue) : Prop :=
  map_ordered (MaterialComparator heap) (visibleModels q) ∧
  Forall (λ e, map_ordered (StaticMeshComparator heap) e.2.2) (visibleModels q).

(** The material the loop of [AddModel] resolves for submesh [i]. *)
Definition subMesh_material `{Services} (heap : Heap) (model : ptr) (i : nat) : ptr :=
  GetMaterial heap model
    (GetMaterialIndex heap (GetSubMesh heap (GetMesh heap model) i)).

(** ** What the specification says a recomputed volume is

    A finite volume freshly placed by a matrix, and the local-space shapes of
    a point light and of a spot light. *)
Definition placed_volume `{Services} (m : Matrix4f) (box : Boxf) : BoundingVolumef :=
  let placed := Matrix4f_apply m <$> Boxf_corners box in
  mkBoundingVolumef nzExtend_Finite box placed (Boxf_hull placed).

(** The symmetric box of half-extent [radius] centred at the origin. *)
Definition symmetric_box (radius : float) : Boxf :=
  Boxf_of_corners (Vector3f_splat (- radius)%Qc) (Vector3f_splat radius).

(** The four corners of the far plane of a spot light: at distance [radius]
    along the forward axis, spread by [radius * tan outerAngle] along the
    left and up axes. *)
Definition far_plane_corners `{Services} (radius outerAngle : float) : list Vector3f :=
  let centre := Vector3f_scale Vector3f_Forward radius in
  let halfWidth := (radius * tan_degrees outerAngle)%Qc in
  let left := Vector3f_scale Vector3f_Left halfWidth in
  let up := Vector3f_scale Vector3f_Up halfWidth in
  [ Vector3f_add (Vector3f_add centre left) up;
    Vector3f_sub (Vector3f_add centre left) up;
    Vector3f_add (Vector3f_sub centre left) up;
    Vector3f_sub (Vector3f_sub centre left) up ].

(** The smallest box around the apex and the far-plane corners. *)
Definition pyramid_box `{Services} (radius outerAngle : float) : Boxf :=
  Boxf_hull (Vector3f_Zero :: far_plane_corners radius outerAngle).

(** The world position and rotation a light reads after
    [if (!m_derivedUpdated) UpdateDerived();]: the cache when it is valid,
    the node's pose otherwise. *)
Definition current_position `{Services} (l : NzLight) : Vector3f :=
  if m_derivedUpdated (node l) then m_derivedPosition (node l)
  else world_position (node l).

Definition current_rotation `{Services} (l : NzLight) : Quaternionf :=
  if m_derivedUpdated (node l) then m_derivedRotation (node l)
  else world_rotation (node l).

(** The volume of a point or spot light of the given radius and outer angle,
    as recomputed from nothing. *)
Definition fresh_volume `{Services} (type : nzLightType) (radius outerAngle : float)
    (position : Vector3f) (rotation : Quaternionf) : option BoundingVolumef :=
  if type =? nzLightType_Point then
    Some (placed_volume (Matrix4f_Translate position) (symmetric_box radius))
  else if type =? nzLightType_Spot then
    Some (placed_volume (Matrix4f_Transform position rotation)
            (pyramid_box radius outerAngle))
  else None.

(** The cached shape of a light is null, or is the shape of the light's
    type, radius and outer angle. *)
Definition shape_cache_consistent `{Services} (l : NzLight) : Prop :=
  BoundingVolumef_IsNull (m_boundingVolume l) = true ∨
  (m_type l = nzLightType_Directional ∧
   extend (m_boundingVolume l) = nzExtend_Infinite) ∨
  (m_type l = nzLightType_Point ∧
   extend (m_boundingVolume l) = nzExtend_Finite ∧
   localBox (m_boundingVolume l) = symmetric_box (m_radius l)) ∨
  (m_type l = nzLightType_Spot ∧
   extend (m_boundingVolume l) = nzExtend_Finite ∧
   localBox (m_boundingVolume l) = pyramid_box (m_radius l) (m_outerAngle l)).

(** The volume of a spot light brought up to date: the cached shape, or the
    pyramid of the light's radius and outer angle when there is none, placed
    by the transform of the node's position and rotation. *)
Definition spot_volume `{Services} (l : NzLight) : BoundingVolumef :=
  BoundingVolumef_Update
    (Matrix4f_Transform (current_position l) (current_rotation l))
    (if BoundingVolumef_IsNull (m_boundingVolume l)
     then BoundingVolumef_Set (pyramid_box (m_radius l) (m_outerAngle l))
            (m_boundingVolume l)
     else m_boundingVolume l).

(** [l'] has the volume cache and the node of [l]. *)
Definition keeps_volume_cache `{Services} (l l' : NzLight) : Prop :=
  m_boundingVolume l' = m_boundingVolume l ∧
  m_boundingVolumeUpdated l' = m_boundingVolumeUpdated l ∧
  node l' = node l.

(** The slot locations of the six uniforms of a light. *)
Definition uniform_location (program : NzShaderProgram) (lightUnit : Z)
    (name : string) : Z :=
  slot_location program lightUnit (GetUniformLocation program name).

(** [l'] answers a request for its volume from the cache of [l], without
    recomputing anything. *)
Definition answers_from_cache `{Services} (l l' : NzLight) : Prop :=
  keeps_volume_cache l l' ∧
  (m_boundingVolumeUpdated l = true →
   GetBoundingVolume l' = (m_boundingVolume l, l')).

(** The names of the uniforms of a light, in the order of the structure. *)
Definition common_uniforms : list string :=
  ["Lights[0].type"; "Lights[0].color"; "Lights[0].factors"].

(** ** Reading the transparent index list

    The distance the specification sorts by: from the translation of the
    record an entry names, read from the store its own tag names, to the
    near plane. *)
Definition own_distance `{Services} (q : NzForwardRenderQueue) (nearPlane : Planef)
    (entry : Z * bool) : option float :=
  matrix ← transparent_matrix q entry.2 entry.1;
  Some (Planef_Distance nearPlane (Matrix4f_GetTranslation matrix)).

(** The key of an entry: its own distance (0 when it names no record). *)
Definition distance_key `{Services} (q : NzForwardRenderQueue) (nearPlane : Planef)
    (entry : Z * bool) : float :=
  default f0 (own_distance q nearPlane entry).

(** Every listed entry names a record, and no entry is farther from the
    near plane than a later one. *)
Definition ascending_by_own_distance `{Services} (q : NzForwardRenderQueue)
    (nearPlane : Planef) (l : list (Z * bool)) : Prop :=
  StronglySorted
    (λ a b, ∃ x y, own_distance q nearPlane a = Some x ∧
                   own_distance q nearPlane b = Some y ∧ (x ≤ y)%Qc) l ∧
  Forall (λ e, is_Some (own_distance q nearPlane e)) l.

(** All listed entries carry the same tag and name a record of that store:
    what [AddModel] produces, every entry being static. *)
Definition same_store `{Services} (q : NzForwardRenderQueue) : Prop :=
  ∃ tag, Forall (λ e, e.2 = tag ∧ is_Some (transparent_matrix q tag e.1))
           (visibleTransparentsModels q).

(** [q] with another index list. *)
Definition with_index_list `{Services} (l : list (Z * bool))
    (q : NzForwardRenderQueue) : NzForwardRenderQueue :=
  mkQueue _ (directionnalLights q) (otherDrawables q) (visibleLights q)
    (visibleModels q) l (transparentSkeletalModels q) (transparentStaticModels q).

(** ** Frames

    One frame of the render technique: the queue is cleared, then the scene
    submits lights, models and drawables in some order. *)
Inductive Submission :=
  | Submit_light (light : ptr)
  | Submit_model (model : ptr)
  | Submit_drawable (drawable : ptr).

Definition submit `{Services} (heap : Heap) (NAZARA_DEBUG : bool)
    (q : NzForwardRenderQueue) (s : Submission) : NzForwardRenderQueue :=
  match s with
  | Submit_light light => (AddLight heap NAZARA_DEBUG light q).1
  | Submit_model model => (AddModel heap model q).1
  | Submit_drawable drawable => (AddDrawable drawable q).1
  end.

Definition frame `{Services} (heap : Heap) (NAZARA_DEBUG : bool)
    (q : NzForwardRenderQueue) (submissions : list Submission)
    : NzForwardRenderQueue :=
  foldl (submit heap NAZARA_DEBUG) (Clear q) submissions.

(** Every listed entry is static and names a record of the static store. *)
Definition transparents_static `{Services} (q : NzForwardRenderQueue) : Prop :=
  Forall (λ e, e.2 = true ∧
               0 ≤ e.1 < Z.of_nat (length (transparentStaticModels q)))
    (visibleTransparentsModels q).

(** ** Orders *)

Definition strict_total_order {A} (comp : A → A → bool) : Prop :=
  (∀ a, comp a a = false) ∧
  (∀ a b c, comp a b = true → comp b c = true → comp a c = true) ∧
  (∀ a b, a ≠ b → comp a b = true ∨ comp b a = true).

(** ** A small world for examples

    Matrices are pure translations, the only rotation is the identity, a
    plane is a height on the third axis, and a camera is its near plane.  A
    frustum is a box; it contains a sphere when it contains its centre and a
    volume when it contains the lower corner of its axis-aligned box.  The
    tangent and cosine tables are constant. *)
Definition fz (z : Z) : float := Qc_of_Z z.

Definition translation_world : Services := {|
  Matrix4f := Vector3f;
  Quaternionf := unit;
  Planef := float;
  Frustumf := Boxf;
  NzCamera := float;
  NzColor := Z;
  Color_White := 16777215;
  Vector3f_Forward := mkVector3f (fz 0) (fz 0) (fz (-1));
  Vector3f_Left := mkVector3f (fz (-1)) (fz 0) (fz 0);
  Vector3f_Up := mkVector3f (fz 0) (fz 1) (fz 0);
  Vector4f_of_Vector3f := λ v, Vector4f_of v (fz 1);
  Quaternionf_rotate := λ _ v, v;
  Matrix4f_Translate := λ v, v;
  Matrix4f_Transform := λ v _, v;
  Matrix4f_GetTranslation := λ m, m;
  Matrix4f_apply := λ m p, Vector3f_add m p;
  Planef_Distance := λ plane p, (vz p - plane)%Qc;
  Camera_nearPlane := λ camera, camera;
  Frustumf_ContainsSphere := λ frustum s,
    bool_decide (Boxf_Contains frustum (sphere_center s));
  Frustumf_ContainsVolume := λ frustum v,
    bool_decide (Boxf_Contains frustum (box_min (aabb v)));
  cos_degrees := λ _, fz 1;
  tan_degrees := λ _, fz 1
|}.

(** A translation along the third axis. *)
Definition along_z (z : Z) : @Matrix4f translation_world :=
  mkVector3f (fz 0) (fz 0) (fz z).

(** A heap in which every object is its own address: a material's shader,
    flags and blending, and a mesh's buffers, are read off the digits of the
    address.  A material [m] has custom shader [m / 100], flags
    [(m / 10) mod 10] and blends when [m] is odd; a mesh [s] has index buffer
    (and its storage) [s mod 10], none when that digit is 0, and vertex
    buffer (and its storage) [(s / 10) mod 10].  A model [d] is drawable when
    non-negative, has the one static submesh [(d / 1000) mod 100] with
    material [d mod 1000], and sits at height [d / 100000].  A light's type is
    its last digit. *)
Definition digit_heap : @Heap translation_world := {|
  GetCustomShader := λ m, m / 100;
  GetShaderFlags := λ m, (m / 10) mod 10;
  IsAlphaBlendingEnabled := λ m, Z.odd m;
  GetIndexBuffer := λ s, s mod 10;
  GetVertexBuffer := λ s, (s / 10) mod 10;
  GetAnimationType := λ _, nzAnimationType_Static;
  GetMaterialIndex := λ _, 0%nat;
  IndexBuffer_GetBuffer := λ b, b;
  VertexBuffer_GetBuffer := λ b, b;
  GetSubMeshCount := λ _, 1%nat;
  GetSubMesh := λ mesh _, mesh;
  IsDrawable := λ d, 0 <=? d;
  GetTransformMatrix := λ d, along_z (d / 100000);
  GetMesh := λ d, (d / 1000) mod 100;
  GetMaterial := λ d _, d mod 1000;
  GetLightType := λ l, l mod 10
|}.

(** A program whose light structure takes six consecutive locations, slot 0
    from location 10 on. *)
Definition six_locations : NzShaderProgram := {|
  GetUniformLocation := λ name,
    if String.eqb name "Lights[0].type" then 10
    else if String.eqb name "Lights[0].color" then 11
    else if String.eqb name "Lights[0].factors" then 12
    else if String.eqb name "Lights[0].parameters1" then 13
    else if String.eqb name "Lights[0].parameters2" then 14
    else if String.eqb name "Lights[0].parameters3" then 15
    else if String.eqb name "Lights[1].type" then 16
    else -1
|}.

(** A node of the example world at a given position, its cache stale. *)
Definition node_at (x y z : Z) : @NzSceneNode translation_world :=
  mkNode translation_world false Vector3f_Zero tt
    (mkVector3f (fz x) (fz y) (fz z)) tt.

(** The frustum of the example world: the cube of half-extent [h] around
    the point [(0, 0, c)]. *)
Definition cube_frustum (c h : Z) : @Frustumf translation_world :=
  mkBoxf (mkVector3f (fz (- h)) (fz (- h)) (fz (c - h)))
         (mkVector3f (fz h) (fz h) (fz (c + h))).

(** Transparent records of the example world: material 1 and mesh 1 at a
    height. *)
Definition record_at (height : Z) : @TransparentModel translation_world :=
  mkTransparentModel translation_world 1 1 (along_z height).

(** Two static records at the same height. *)
Definition tied_queue : @NzForwardRenderQueue translation_world :=
  mkQueue translation_world [] [] [] []
    [(0, true); (1, true)] [] [record_at 3; record_at 3].

(** Three static records at heights 30, 10 and 20. *)
Definition three_queue : @NzForwardRenderQueue translation_world :=
  mkQueue translation_world [] [] [] []
    [(0, true); (1, true); (2, true)] []
    [record_at 30; record_at 10; record_at 20].

(** ** Reading what a frame was given *)

Definition is_directional (type : nzLightType) : bool :=
  type =? nzLightType_Directional.

Definition is_positional (type : nzLightType) : bool :=
  (type =? nzLightType_Point) || (type =? nzLightType_Spot).

(** The lights among the submissions that are not null and whose type is in
    a class, and the drawables that are not null, in submission order. *)
Definition lights_of `{Services} (heap : Heap) (class : nzLightType → bool)
    (submissions : list Submission) : list ptr :=
  omap (λ s, match s with
             | Submit_light light =>
                 if non_null light && class (GetLightType heap light)
                 then Some light else None
             | _ => None
             end) submissions.

Definition drawables_of (submissions : list Submission) : list ptr :=
  omap (λ s, match s with
             | Submit_drawable drawable =>
                 if non_null drawable then Some drawable else None
             | _ => None
             end) submissions.

(** The submeshes of a model, by what the loop of [AddModel] does with
    them. *)
Definition subMesh_animation `{Services} (heap : Heap) (model : ptr) (i : nat)
    : nzAnimationType :=
  GetAnimationType heap (GetSubMesh heap (GetMesh heap model) i).

Definition is_skeletal `{Services} (heap : Heap) (model : ptr) (i : nat) : bool :=
  subMesh_animation heap model i =? nzAnimationType_Skeletal.

Definition is_static `{Services} (heap : Heap) (model : ptr) (i : nat) : bool :=
  negb (subMesh_animation heap model i =? nzAnimationType_Skeletal)
  && (subMesh_animation heap model i =? nzAnimationType_Static).

Definition is_blended `{Services} (heap : Heap) (model : ptr) (i : nat) : bool :=
  is_static heap model i
  && IsAlphaBlendingEnabled heap (subMesh_material heap model i).

Definition is_opaque `{Services} (heap : Heap) (model : ptr) (i : nat) : bool :=
  is_static heap model i
  && negb (IsAlphaBlendingEnabled heap (subMesh_material heap model i)).

Definition subMesh_indices `{Services} (heap : Heap) (model : ptr) : list nat :=
  seq 0 (GetSubMeshCount heap (GetMesh heap model)).

(** The transparent record the loop stores for submesh [i]. *)
Definition subMesh_record `{Services} (heap : Heap) (model : ptr) (i : nat)
    : TransparentModel :=
  mkTransparentModel _ (subMesh_material heap model i)
    (GetSubMesh heap (GetMesh heap model) i) (GetTransformMatrix heap model).

(** The number of transforms held by the opaque grouping, all buckets
    together. *)
Definition bucket_sizes `{Services} (container : BatchedMeshContainer) : nat :=
  sum_list ((λ entry, length entry.2) <$> container).

Definition total_transforms `{Services} (q : NzForwardRenderQueue) : nat :=
  sum_list ((λ entry, bucket_sizes entry.2.2) <$> visibleModels q).

(** The index list that names the first [n] static records in order. *)
Definition static_indices (first n : nat) : list (Z * bool) :=
  (λ k, (to_uint (Z.of_nat k), true)) <$> seq first n.

(** A heap whose models have three submeshes each: submesh 0 is skeletal,
    submeshes 1 and 2 are static; submesh [i] is drawn with material [i],
    and a material blends when its address is odd.  The mesh of a model is
    the last digit of its address, its transform the translation by its
    address along the third axis. *)
Definition three_part_heap : @Heap translation_world := {|
  GetCustomShader := λ _, nullptr;
  GetShaderFlags := λ _, 0;
  IsAlphaBlendingEnabled := λ m, Z.odd m;
  GetIndexBuffer := λ _, nullptr;
  GetVertexBuffer := λ s, s;
  GetAnimationType := λ s,
    if s mod 10 =? 0 then nzAnimationType_Skeletal else nzAnimationType_Static;
  GetMaterialIndex := λ s, Z.to_nat (s mod 10);
  IndexBuffer_GetBuffer := λ b, b;
  VertexBuffer_GetBuffer := λ b, b;
  GetSubMeshCount := λ _, 3%nat;
  GetSubMesh := λ mesh i, 10 * mesh + Z.of_nat i;
  IsDrawable := λ d, 0 <=? d;
  GetTransformMatrix := λ d, along_z d;
  GetMesh := λ d, d mod 10;
  GetMaterial := λ _ i, Z.of_nat i;
  GetLightType := λ l, l mod 10
|}.


(** No entry of the grouping has a skeletal bucket, every entry has a
    static bucket, and every bucket holds a transform. *)
Definition grouping_tight `{Services} (q : NzForwardRenderQueue) : Prop :=
  Forall (λ entry, entry.2.1 = [] ∧ entry.2.2 ≠ [] ∧
                   Forall (λ b : ptr * list Matrix4f, b.2 ≠ []) entry.2.2)
    (visibleModels q).

(** ** The accessors of a light, and [Disable] *)

Section LightAccessors.
Context `{Services}.

Definition GetAmbientFactor (l : NzLight) : float := m_ambientFactor l.
Definition GetAttenuation (l : NzLight) : float := m_attenuation l.
Definition GetColor (l : NzLight) : NzColor := m_color l.
Definition GetDiffuseFactor (l : NzLight) : float := m_diffuseFactor l.
Definition GetInnerAngle (l : NzLight) : float := m_innerAngle l.
Definition GetOuterAngle (l : NzLight) : float := m_outerAngle l.
Definition GetRadius (l : NzLight) : float := m_radius l.

(** The eight properties of a light its accessors give. *)
Record LightProperties := mkProperties {
  ambientFactor : float;
  attenuation : float;
  color : NzColor;
  diffuseFactor : float;
  innerAngle : float;
  lightType : nzLightType;
  outerAngle : float;
  radius : float
}.

Definition properties (l : NzLight) : LightProperties :=
  mkProperties (GetAmbientFactor l) (GetAttenuation l) (GetColor l)
    (GetDiffuseFactor l) (GetInnerAngle l) (GetLightType_of l)
    (GetOuterAngle l) (GetRadius l).

(** The name [Disable] looks up: ["Lights[" + NzString::Number(lightUnit) +
    "].type"].  [NzString::Number] is not part of the sources; it is a
    parameter here. *)
Definition type_uniform (Number : Z → string) (lightUnit : Z) : string :=
  "Lights[" +:+ Number lightUnit +:+ "].type".

(** [NzLight::Disable]: the upload it makes. *)
Definition Disable (Number : Z → string) (program : NzShaderProgram)
    (lightUnit : Z) : list (Z * UniformValue) :=
  [(GetUniformLocation program (type_uniform Number lightUnit),
    Uniform_Integer (-1))].
End LightAccessors.

(** A location fits an [int]. *)
Definition int_range (z : Z) : Prop := - 2 ^ 31 ≤ z < 2 ^ 31.

(** Decimal digits, for the examples. *)
Definition decimal (value : Z) : string := pretty (Z.to_N value).

(** ** Sequences of setter calls *)

Inductive Setter `{Services} :=
  | Set_AmbientFactor (factor : float)
  | Set_Attenuation (attenuation : float)
  | Set_Color (color : NzColor)
  | Set_DiffuseFactor (factor : float)
  | Set_InnerAngle (innerAngle : float)
  | Set_LightType (type : nzLightType)
  | Set_OuterAngle (outerAngle : float)
  | Set_Radius (radius : float).

Section Setters.
Context `{Services}.

Definition call (l : NzLight) (s : Setter) : NzLight :=
  match s with
  | Set_AmbientFactor factor => SetAmbientFactor factor l
  | Set_Attenuation attenuation => SetAttenuation attenuation l
  | Set_Color color => SetColor color l
  | Set_DiffuseFactor factor => SetDiffuseFactor factor l
  | Set_InnerAngle innerAngle => SetInnerAngle innerAngle l
  | Set_LightType type => SetLightType type l
  | Set_OuterAngle outerAngle => SetOuterAngle outerAngle l
  | Set_Radius radius => SetRadius radius l
  end.

(** The value a call gives to each property, if it is a call of the setter
    of that property. *)
Definition written (s : Setter)
    : option float * option float * option NzColor * option float
      * option float * option nzLightType * option float * option float :=
  match s with
  | Set_AmbientFactor v => (Some v, None, None, None, None, None, None, None)
  | Set_Attenuation v => (None, Some v, None, None, None, None, None, None)
  | Set_Color c => (None, None, Some c, None, None, None, None, None)
  | Set_DiffuseFactor v => (None, None, None, Some v, None, None, None, None)
  | Set_InnerAngle v => (None, None, None, None, Some v, None, None, None)
  | Set_LightType t => (None, None, None, None, None, Some t, None, None)
  | Set_OuterAngle v => (None, None, None, None, None, None, Some v, None)
  | Set_Radius v => (None, None, None, None, None, None, None, Some v)
  end.

(** The value of a property after a sequence of calls: that of the last
    call that writes it, or the one it had. *)
Definition last_written {A} (pick : Setter → option A) (calls : list Setter)
    (start : A) : A :=
  default start (last (omap pick calls)).

(** The calls that null the cached volume. *)
Definition invalidates (s : Setter) : bool :=
  match s with
  | Set_OuterAngle _ | Set_Radius _ => true
  | _ => false
  end.
End Setters.

(** ** What a model adds to the queue *)

(** Submesh [i] of [model] is static, drawn with the opaque material
    [material], and is the mesh [mesh]: its transform goes to the bucket of
    that pair. *)
Definition lands_in `{Services} (heap : Heap) (model material mesh : ptr)
    (i : nat) : bool :=
  is_opaque heap model i
  && (subMesh_material heap model i =? material)
  && (GetSubMesh heap (GetMesh heap model) i =? mesh).

(** The transforms a model adds to the bucket of [(material, mesh)]: its
    own, once for each submesh that lands there. *)
Definition bucket_additions `{Services} (heap : Heap) (model material mesh : ptr)
    : list Matrix4f :=
  replicate
    (length (List.filter (lands_in heap model material mesh)
               (subMesh_indices heap model)))
    (GetTransformMatrix heap model).

(** The opaque grouping after the opaque static submeshes of a model were
    pushed to it, in submesh order. *)
Definition grouping_with `{Services} (heap : Heap) (model : ptr)
    (models : BatchedModelContainer) : BatchedModelContainer :=
  foldl (λ models i,
           push_opaque heap (subMesh_material heap model i)
             (GetSubMesh heap (GetMesh heap model) i)
             (GetTransformMatrix heap model) models)
    models
    (List.filter (is_opaque heap model) (subMesh_indices heap model)).

(** A bucket after transforms were added to it: as it was when there are
    none, and otherwise what it held, if it existed, followed by them. *)
Definition extended_bucket `{Services} (old : option (list Matrix4f))
    (added : list Matrix4f) : option (list Matrix4f) :=
  match added with
  | [] => old
  | _ => Some (default [] old ++ added)
  end.

(** The transparent records of a model: one for each static submesh drawn
    with a blending material, in submesh order. *)
Definition blended_records `{Services} (heap : Heap) (model : ptr)
    : list TransparentModel :=
  subMesh_record heap model
    <$> List.filter (is_blended heap model) (subMesh_indices heap model).

(** The static store has room for [n] more records (see
    [AddModel_subMesh]). *)
Definition store_has_room `{Services} (q : NzForwardRenderQueue) (n : nat) : Prop :=
  Z.of_nat (length (transparentStaticModels q) + n) < 2 ^ 32.

(** The entries that name the [n] records stored from position [first] on. *)
Definition next_records (first n : nat) : list (Z * bool) :=
  (λ k, (Z.of_nat (first + k), true)) <$> seq 0 n.

(** ** The states of a queue

    The queue as constructed or cleared, and what submissions and sorts make
    of it; a submission is made while the static store has room for the
    records it appends. *)
Inductive reachable `{Services} `{StdSort} (heap : Heap) (NAZARA_DEBUG : bool)
    : NzForwardRenderQueue → Prop :=
  | reachable_Clear q : reachable heap NAZARA_DEBUG (Clear q)
  | reachable_submit q s :
      reachable heap NAZARA_DEBUG q →
      Z.of_nat (length (transparentStaticModels (submit heap NAZARA_DEBUG q s)))
        < 2 ^ 32 →
      reachable heap NAZARA_DEBUG (submit heap NAZARA_DEBUG q s)
  | reachable_Sort q camera q' :
      reachable heap NAZARA_DEBUG q →
      Sort camera q = Some q' →
      reachable heap NAZARA_DEBUG q'.

(** * Properties *)

(** ** The two insertion sorts meet the contract of [std::sort] *)

Section InsertionFacts.
Context {A : Type} (comp : A → A → bool).

Lemma strict_weak_order_on_subseteq (l l' : list A) :
  l' ⊆ l → strict_weak_order_on comp l → strict_weak_order_on comp l'.
Proof.
  intros Hsub (Hirr & Htr & Heq). split; [|split].
  - intros x Hx. apply Hirr, Hsub, Hx.
  - intros x y z Hx Hy Hz. apply Htr; auto.
  - intros x y z Hx Hy Hz. apply Heq; auto.
Qed.

Lemma strict_weak_asym (l : list A) x y :
  strict_weak_order_on comp l → x ∈ l → y ∈ l →
  comp x y = true → comp y x = false.
Proof.
  intros (Hirr & Htr & _) Hx Hy Hxy.
  destruct (comp y x) eqn:Hyx; [|done].
  rewrite <- (Hirr x Hx). symmetry. eapply (Htr x y x); eauto.
Qed.

(** Not being less is transitive for a strict weak ordering. *)
Lemma strict_weak_not_less_trans (l : list A) x y z :
  strict_weak_order_on comp l → x ∈ l → y ∈ l → z ∈ l →
  comp x y = false → comp y z = false → comp x z = false.
Proof.
  intros Hswo Hx Hy Hz Hxy Hyz.
  pose proof Hswo as (Hirr & Htr & Heq).
  destruct (comp x z) eqn:Hxz; [|done].
  destruct (comp y x) eqn:Hyx.
  { rewrite <- Hyz. symmetry. eapply (Htr y x z); eauto. }
  destruct (comp z y) eqn:Hzy.
  { rewrite <- Hxy. symmetry. eapply (Htr x z y); eauto. }
  destruct (Heq x y z) as [Hc _]; auto. congruence.
Qed.

Lemma insert_stable_perm x (l : list A) : x :: l ≡ₚ insert_stable comp x l.
Proof.
  induction l as [|h t IH]; simpl; [done|].
  destruct (comp h x); [|done].
  rewrite <- IH. apply Permutation_swap.
Qed.

Lemma insert_after_perm x (l : list A) : x :: l ≡ₚ insert_after comp x l.
Proof.
  induction l as [|h t IH]; simpl; [done|].
  destruct (comp x h); [done|].
  rewrite <- IH. apply Permutation_swap.
Qed.

Lemma stable_insertion_sort_perm (l : list A) :
  l ≡ₚ stable_insertion_sort comp l.
Proof.
  induction l as [|h t IH]; simpl; [done|].
  rewrite <- insert_stable_perm. by constructor.
Qed.

Lemma reversing_insertion_sort_perm (l : list A) :
  l ≡ₚ reversing_insertion_sort comp l.
Proof.
  induction l as [|h t IH]; simpl; [done|].
  rewrite <- insert_after_perm. by constructor.
Qed.

Lemma insert_stable_sorted x (l : list A) :
  strict_weak_order_on comp (x :: l) →
  sorted_wrt comp l → sorted_wrt comp (insert_stable comp x l).
Proof.
  intros Hswo. induction l as [|h t IH]; intros Hs; simpl.
  { repeat constructor. }
  apply StronglySorted_inv in Hs as [Hst Hh].
  destruct (comp h x) eqn:Hhx.
  - constructor.
    + apply IH; [|done].
      eapply strict_weak_order_on_subseteq; [|exact Hswo].
      intros y. rewrite !elem_of_cons. tauto.
    + rewrite <- insert_stable_perm. constructor; [|done].
      eapply strict_weak_asym; eauto; set_solver.
  - constructor; [by constructor|].
    constructor; [done|].
    rewrite Forall_forall in Hh |- *. intros b Hb.
    eapply (strict_weak_not_less_trans _ b h x); eauto; set_solver.
Qed.

Lemma insert_after_sorted x (l : list A) :
  strict_weak_order_on comp (x :: l) →
  sorted_wrt comp l → sorted_wrt comp (insert_after comp x l).
Proof.
  intros Hswo. induction l as [|h t IH]; intros Hs; simpl.
  { repeat constructor. }
  apply StronglySorted_inv in Hs as [Hst Hh].
  destruct (comp x h) eqn:Hxh.
  - constructor; [by constructor|].
    constructor.
    { eapply strict_weak_asym; eauto; set_solver. }
    rewrite Forall_forall in Hh |- *. intros b Hb.
    destruct (comp b x) eqn:Hbx; [|done].
    rewrite <- (Hh b Hb). symmetry.
    destruct Hswo as (_ & Htr & _). eapply (Htr b x h); eauto; set_solver.
  - constructor.
    + apply IH; [|done].
      eapply strict_weak_order_on_subseteq; [|exact Hswo].
      intros y. rewrite !elem_of_cons. tauto.
    + rewrite <- insert_after_perm. by constructor.
Qed.

Lemma stable_insertion_sort_sorted (l : list A) :
  strict_weak_order_on comp l → sorted_wrt comp (stable_insertion_sort comp l).
Proof.
  induction l as [|h t IH]; intros Hswo; simpl; [constructor|].
  apply insert_stable_sorted.
  - eapply strict_weak_order_on_subseteq; [|exact Hswo].
    intros y Hy. apply elem_of_cons in Hy as [->|Hy]; [set_solver|].
    apply elem_of_cons. right.
    by rewrite (stable_insertion_sort_perm t).
  - apply IH. eapply strict_weak_order_on_subseteq; [|exact Hswo]. set_solver.
Qed.

Lemma reversing_insertion_sort_sorted (l : list A) :
  strict_weak_order_on comp l → sorted_wrt comp (reversing_insertion_sort comp l).
Proof.
  induction l as [|h t IH]; intros Hswo; simpl; [constructor|].
  apply insert_after_sorted.
  - eapply strict_weak_order_on_subseteq; [|exact Hswo].
    intros y Hy. apply elem_of_cons in Hy as [->|Hy]; [set_solver|].
    apply elem_of_cons. right.
    by rewrite (reversing_insertion_sort_perm t).
  - apply IH. eapply strict_weak_order_on_subseteq; [|exact Hswo]. set_solver.
Qed.
End InsertionFacts.

(** A stable [std::sort], and one that reverses equivalent elements. *)
Definition stable_std_sort : StdSort :=
  {| std_sort := @stable_insertion_sort;
     std_sort_permutation := λ A comp l _, stable_insertion_sort_perm comp l;
     std_sort_sorted := @stable_insertion_sort_sorted |}.

Definition reversing_std_sort : StdSort :=
  {| std_sort := @reversing_insertion_sort;
     std_sort_permutation := λ A comp l _, reversing_insertion_sort_perm comp l;
     std_sort_sorted := @reversing_insertion_sort_sorted |}.


(** ** The comparators of the grouping keys *)

Ltac split_comparisons :=
  simpl in *; try done; try lia;
  match goal with
  | H : context [?a =? ?b] |- _ => destruct (Z.eqb_spec a b); split_comparisons
  | H : context [?a <? ?b] |- _ => destruct (Z.ltb_spec a b); split_comparisons
  | |- context [?a =? ?b] => destruct (Z.eqb_spec a b); split_comparisons
  | |- context [?a <? ?b] => destruct (Z.ltb_spec a b); split_comparisons
  | _ => auto
  end.

Section ComparatorFacts.
Context `{Services} (heap : Heap).

Lemma MaterialComparator_irreflexive mat :
  MaterialComparator heap mat mat = false.
Proof. unfold MaterialComparator, non_null, nullptr. split_comparisons. Qed.

Lemma MaterialComparator_transitive mat1 mat2 mat3 :
  MaterialComparator heap mat1 mat2 = true →
  MaterialComparator heap mat2 mat3 = true →
  MaterialComparator heap mat1 mat3 = true.
Proof.
  unfold MaterialComparator, non_null, nullptr.
  generalize (GetCustomShader heap mat1) (GetCustomShader heap mat2)
    (GetCustomShader heap mat3) (GetShaderFlags heap mat1)
    (GetShaderFlags heap mat2) (GetShaderFlags heap mat3).
  intros s1 s2 s3 fl1 fl2 fl3 H12 H23. split_comparisons.
Qed.

Lemma MaterialComparator_total mat1 mat2 :
  mat1 ≠ mat2 →
  MaterialComparator heap mat1 mat2 = true ∨ MaterialComparator heap mat2 mat1 = true.
Proof.
  unfold MaterialComparator, non_null, nullptr.
  generalize (GetCustomShader heap mat1) (GetCustomShader heap mat2)
    (GetShaderFlags heap mat1) (GetShaderFlags heap mat2).
  intros s1 s2 fl1 fl2 Hne. split_comparisons; auto.
Qed.

Lemma MaterialComparator_strict_total_order :
  strict_total_order (MaterialComparator heap).
Proof.
  split; [|split].
  - apply MaterialComparator_irreflexive.
  - apply MaterialComparator_transitive.
  - apply MaterialComparator_total.
Qed.

(** What the static comparator computes: the vertex-buffer storage first,
    the mesh address last; the index buffers do not take part. *)
Lemma StaticMeshComparator_unfold subMesh1 subMesh2 :
  StaticMeshComparator heap subMesh1 subMesh2 =
  let buffer1 := VertexBuffer_GetBuffer heap (GetVertexBuffer heap subMesh1) in
  let buffer2 := VertexBuffer_GetBuffer heap (GetVertexBuffer heap subMesh2) in
  if buffer1 =? buffer2 then subMesh1 <? subMesh2 else buffer1 <? buffer2.
Proof. unfold StaticMeshComparator. by rewrite Z.eqb_refl. Qed.

(** What the skeletal comparator computes: the order of the mesh addresses. *)
Lemma SkeletalMeshComparator_unfold subMesh1 subMesh2 :
  SkeletalMeshComparator heap subMesh1 subMesh2 = (subMesh1 <? subMesh2).
Proof. unfold SkeletalMeshComparator. by rewrite Z.eqb_refl. Qed.

Lemma StaticMeshComparator_strict_total_order :
  strict_total_order (StaticMeshComparator heap).
Proof.
  split; [|split].
  - intros a. rewrite StaticMeshComparator_unfold. split_comparisons.
  - intros a b c. rewrite !StaticMeshComparator_unfold. simpl.
    generalize (VertexBuffer_GetBuffer heap (GetVertexBuffer heap a))
      (VertexBuffer_GetBuffer heap (GetVertexBuffer heap b))
      (VertexBuffer_GetBuffer heap (GetVertexBuffer heap c)).
    intros va vb vc Hab Hbc. split_comparisons.
  - intros a b Hne. rewrite !StaticMeshComparator_unfold. simpl.
    generalize (VertexBuffer_GetBuffer heap (GetVertexBuffer heap a))
      (VertexBuffer_GetBuffer heap (GetVertexBuffer heap b)).
    intros va vb. split_comparisons; auto.
Qed.

Lemma SkeletalMeshComparator_strict_total_order :
  strict_total_order (SkeletalMeshComparator heap).
Proof.
  split; [|split].
  - intros a. rewrite SkeletalMeshComparator_unfold. lia.
  - intros a b c. rewrite !SkeletalMeshComparator_unfold. lia.
  - intros a b Hne. rewrite !SkeletalMeshComparator_unfold. lia.
Qed.
End ComparatorFacts.

(** C5: the material comparator puts a material with a custom shader before
    one without; two different custom shaders are ordered by shader address;
    without custom shaders, different flag masks are ordered by the mask; in
    every remaining case the material addresses decide.  The relation is a
    strict total order on material addresses. *)
Theorem MaterialComparator_policy `{Services} (heap : Heap) :
  (∀ mat1 mat2,
     let shader1 := GetCustomShader heap mat1 in
     let shader2 := GetCustomShader heap mat2 in
     let flags1 := GetShaderFlags heap mat1 in
     let flags2 := GetShaderFlags heap mat2 in
     (shader1 ≠ nullptr → shader2 = nullptr →
        MaterialComparator heap mat1 mat2 = true ∧
        MaterialComparator heap mat2 mat1 = false) ∧
     (shader1 ≠ nullptr → shader2 ≠ nullptr → shader1 ≠ shader2 →
        MaterialComparator heap mat1 mat2 = (shader1 <? shader2)) ∧
     (shader1 = nullptr → shader2 = nullptr → flags1 ≠ flags2 →
        MaterialComparator heap mat1 mat2 = (flags1 <? flags2)) ∧
     (shader1 = shader2 → (shader1 = nullptr → flags1 = flags2) →
        MaterialComparator heap mat1 mat2 = (mat1 <? mat2))) ∧
  strict_total_order (MaterialComparator heap).
Proof.
  split; [|apply MaterialComparator_strict_total_order].
  intros mat1 mat2. unfold MaterialComparator, non_null, nullptr.
  generalize (GetCustomShader heap mat1) (GetCustomShader heap mat2)
    (GetShaderFlags heap mat1) (GetShaderFlags heap mat2).
  intros s1 s2 fl1 fl2. cbv zeta.
  repeat split; intros; split_comparisons.
Qed.

(** The policy at work: material 301 (custom shader 3) comes before material
    45 (no custom shader), whatever their addresses. *)
Lemma MaterialComparator_policy_witness :
  MaterialComparator digit_heap 301 45 = true ∧
  MaterialComparator digit_heap 45 301 = false.
Proof.
  apply (proj1 (proj1 (MaterialComparator_policy digit_heap) 301 45));
    vm_compute; congruence.
Defined.

(** C2, at two meshes that differ in every buffer: mesh 21 has the smaller
    index-buffer storage (1 against 2) and mesh 12 the smaller vertex-buffer
    storage (1 against 2).  An order by index buffer first puts 21 before 12;
    the static comparator puts 12 before 21 (it never looks past the first
    mesh's index buffer and decides on the vertex buffers), and so does the
    skeletal comparator (it decides on the mesh addresses). *)
Theorem mesh_comparators_at_failing_input :
  IndexBuffer_GetBuffer digit_heap (GetIndexBuffer digit_heap 21)
    < IndexBuffer_GetBuffer digit_heap (GetIndexBuffer digit_heap 12) ∧
  StaticMeshComparator digit_heap 21 12 = false ∧
  StaticMeshComparator digit_heap 12 21 = true ∧
  SkeletalMeshComparator digit_heap 21 12 = false ∧
  SkeletalMeshComparator digit_heap 12 21 = true.
Proof. vm_compute. repeat split; reflexivity. Qed.

(** ** [std::map] under a strict total order *)

Section StdMapFacts.
Context {K V : Type} (comp : K → K → bool).
Hypothesis comp_order : strict_total_order comp.

Lemma comp_irrefl a : comp a a = false.
Proof. by destruct comp_order as (Hi & _). Qed.

Lemma comp_asym a b : comp a b = true → comp b a = false.
Proof.
  destruct comp_order as (Hi & Ht & _). intros Hab.
  destruct (comp b a) eqn:Hba; [|done].
  rewrite <- (Hi a). symmetry. by apply (Ht a b a).
Qed.

Lemma comp_trans a b c : comp a b = true → comp b c = true → comp a c = true.
Proof. destruct comp_order as (_ & Ht & _). apply Ht. Qed.

Lemma comp_equiv_eq `{EqDecision K} a b :
  comp a b = false → comp b a = false → a = b.
Proof.
  destruct comp_order as (_ & _ & Htot). intros Hab Hba.
  destruct (decide (a = b)) as [|Hne]; [done|].
  destruct (Htot a b Hne); congruence.
Qed.

(** Reading back the entry that [operator[]] has just given out. *)
Lemma map_find_subscript (k : K) (dflt : V) (f : V → V) (m : list (K * V)) :
  map_find comp k (map_subscript comp k dflt f m)
  = Some (f (default dflt (map_find comp k m))).
Proof.
  induction m as [|[k' v] rest IH]; simpl.
  { by rewrite comp_irrefl. }
  destruct (comp k' k) eqn:Hk'k; simpl.
  { by rewrite Hk'k. }
  destruct (comp k k') eqn:Hkk'; simpl.
  { by rewrite comp_irrefl. }
  by rewrite Hk'k, Hkk'.
Qed.

(** The other entries are as they were. *)
Lemma map_find_subscript_ne `{EqDecision K} (k k0 : K) (dflt : V) (f : V → V)
    (m : list (K * V)) :
  k0 ≠ k →
  map_find comp k0 (map_subscript comp k dflt f m) = map_find comp k0 m.
Proof.
  intros Hne. induction m as [|[k' v] rest IH]; simpl.
  { destruct (comp k k0) eqn:Hkk0; [done|].
    destruct (comp k0 k) eqn:Hk0k; [done|].
    destruct Hne. by apply comp_equiv_eq. }
  destruct (comp k' k) eqn:Hk'k; simpl.
  { by rewrite IH. }
  destruct (comp k k') eqn:Hkk'; simpl.
  - destruct (comp k k0) eqn:Hkk0; [done|].
    destruct (comp k0 k) eqn:Hk0k.
    + rewrite (comp_trans k0 k k') by done.
      by rewrite (comp_asym k0 k') by (by apply (comp_trans k0 k k')).
    + destruct Hne. by apply comp_equiv_eq.
  - assert (k' = k) as -> by (by apply comp_equiv_eq).
    destruct (comp k k0) eqn:Hkk0; [done|].
    destruct (comp k0 k) eqn:Hk0k; [done|].
    destruct Hne. by apply comp_equiv_eq.
Qed.

(** [operator[]] keeps the entries in the order of the comparator. *)
Lemma map_subscript_keys (k : K) (dflt : V) (f : V → V) (m : list (K * V)) x :
  x ∈ (map_subscript comp k dflt f m).*1 → x = k ∨ x ∈ m.*1.
Proof.
  induction m as [|[k' v] rest IH]; simpl.
  { rewrite list_elem_of_singleton. auto. }
  destruct (comp k' k); simpl.
  { rewrite !elem_of_cons. intros [->|Hx]; [auto|]. destruct (IH Hx); auto. }
  destruct (comp k k'); simpl; rewrite !elem_of_cons; tauto.
Qed.

Lemma map_subscript_ordered `{EqDecision K} (k : K) (dflt : V) (f : V → V)
    (m : list (K * V)) :
  map_ordered comp m → map_ordered comp (map_subscript comp k dflt f m).
Proof.
  unfold map_ordered. induction m as [|[k' v] rest IH]; intros Hm; simpl.
  { repeat constructor. }
  apply StronglySorted_inv in Hm as [Hrest Hhead].
  destruct (comp k' k) eqn:Hk'k.
  - constructor; [by apply IH|].
    rewrite Forall_forall. intros [x w] Hx. simpl.
    assert (x ∈ (map_subscript comp k dflt f rest).*1) as Hx'.
    { apply list_elem_of_fmap. by exists (x, w). }
    apply map_subscript_keys in Hx' as [->|Hx']; [done|].
    apply list_elem_of_fmap in Hx' as ([x' w'] & -> & Hin).
    rewrite Forall_forall in Hhead. apply (Hhead _ Hin).
  - destruct (comp k k') eqn:Hkk'.
    + constructor; [by constructor|].
      constructor; [done|].
      rewrite Forall_forall in Hhead |- *. intros [x w] Hx. simpl.
      apply (comp_trans k k' x); [done|]. apply (Hhead _ Hx).
    + by constructor.
Qed.

(** The keys of an ordered map are pairwise different, and [find] gives the
    value stored under a key. *)
Lemma map_ordered_NoDup (m : list (K * V)) : map_ordered comp m → NoDup m.*1.
Proof.
  unfold map_ordered. induction 1 as [|[k v] rest Hrest IH Hhead]; simpl.
  { constructor. }
  constructor; [|done].
  intros Hin. apply list_elem_of_fmap in Hin as ([k' v'] & Heq & Hin).
  simpl in Heq. subst k'.
  rewrite Forall_forall in Hhead. specialize (Hhead _ Hin). simpl in Hhead.
  by rewrite comp_irrefl in Hhead.
Qed.

Lemma map_find_Some `{EqDecision K} (k : K) (v : V) (m : list (K * V)) :
  map_find comp k m = Some v → (k, v) ∈ m.
Proof.
  induction m as [|[k' v'] rest IH]; simpl; [done|].
  destruct (comp k' k) eqn:Hk'k.
  { intros Hf. apply elem_of_cons. right. by apply IH. }
  destruct (comp k k') eqn:Hkk'; [done|].
  intros [= ->]. rewrite (comp_equiv_eq k k') by done. apply elem_of_cons. by left.
Qed.
End StdMapFacts.

Lemma entries_under_absent {V} (k : ptr) (m : list (ptr * V)) :
  k ∉ m.*1 → entries_under k m = 0%nat.
Proof.
  unfold entries_under. induction m as [|[k' v'] rest IH]; simpl; [done|].
  rewrite not_elem_of_cons. intros [Hne Hnotin].
  rewrite filter_cons. simpl. destruct (decide (k' = k)); [congruence|].
  by apply IH.
Qed.

Lemma entries_under_NoDup {V} (k : ptr) (v : V) (m : list (ptr * V)) :
  NoDup m.*1 → (k, v) ∈ m → entries_under k m = 1%nat.
Proof.
  induction m as [|[k' v'] rest IH]; simpl.
  { intros _ Hin. by apply elem_of_nil in Hin. }
  intros Hnd Hin. apply NoDup_cons in Hnd as [Hnotin Hnd].
  unfold entries_under in *. rewrite filter_cons. simpl.
  destruct (decide (k' = k)) as [->|Hne].
  - simpl. f_equal. by apply entries_under_absent.
  - apply elem_of_cons in Hin as [[= ? ?]|Hin]; [congruence|]. by apply IH.
Qed.

Lemma filter_key_NoDup {V} (k : ptr) (v : V) (m : list (ptr * V)) :
  NoDup m.*1 → (k, v) ∈ m → filter (λ e, e.1 = k) m = [(k, v)].
Proof.
  induction m as [|[k' v'] rest IH]; simpl.
  { intros _ Hin. by apply elem_of_nil in Hin. }
  intros Hnd Hin. apply NoDup_cons in Hnd as [Hnotin Hnd].
  rewrite filter_cons. simpl. destruct (decide (k' = k)) as [->|Hne].
  - assert (v' = v) as ->.
    { apply elem_of_cons in Hin as [[= ->]|Hin]; [done|].
      destruct Hnotin. apply list_elem_of_fmap. by exists (k, v). }
    f_equal. apply length_zero_iff_nil.
    by apply (entries_under_absent k rest).
  - apply elem_of_cons in Hin as [[= ? ?]|Hin]; [congruence|]. by apply IH.
Qed.

(** ** Grouping of opaque submissions *)

Section GroupingFacts.
Context `{Services} (heap : Heap).

Lemma push_opaque_bucket material mesh transformMatrix models q q' :
  visibleModels q = models →
  visibleModels q' = push_opaque heap material mesh transformMatrix models →
  bucket heap q' material mesh
  = Some (default [] (bucket heap q material mesh) ++ [transformMatrix]).
Proof.
  intros Hq Hq'. unfold bucket. rewrite Hq', Hq. unfold push_opaque.
  rewrite (map_find_subscript _ (MaterialComparator_strict_total_order heap)).
  simpl.
  rewrite (map_find_subscript _ (StaticMeshComparator_strict_total_order heap)).
  by destruct (map_find (MaterialComparator heap) material models).
Qed.

Lemma push_opaque_ordered material mesh transformMatrix q q' :
  visibleModels q' = push_opaque heap material mesh transformMatrix (visibleModels q) →
  queue_ordered heap q → queue_ordered heap q'.
Proof.
  unfold queue_ordered. intros -> [Hout Hin]. split.
  { by apply (map_subscript_ordered _ (MaterialComparator_strict_total_order heap)). }
  unfold push_opaque. clear Hout.
  induction (visibleModels q) as [|[k' v] rest IH]; simpl.
  { repeat constructor. }
  apply Forall_cons in Hin as [Hv Hrest].
  destruct (MaterialComparator heap k' material).
  { constructor; [done|]. by apply IH. }
  destruct (MaterialComparator heap material k').
  { constructor; [repeat constructor|]. by constructor. }
  constructor; [|done]. simpl.
  by apply (map_subscript_ordered _ (StaticMeshComparator_strict_total_order heap)).
Qed.

Lemma bucket_count_one q material mesh transforms :
  queue_ordered heap q →
  bucket heap q material mesh = Some transforms →
  bucket_count q material mesh = 1%nat.
Proof.
  intros [Hout Hin]. unfold bucket, bucket_count.
  destruct (map_find (MaterialComparator heap) material (visibleModels q))
    as [entry|] eqn:Hentry; [simpl|done].
  intros Hmesh.
  apply (map_find_Some _ (MaterialComparator_strict_total_order heap)) in Hentry.
  apply (map_find_Some _ (StaticMeshComparator_strict_total_order heap)) in Hmesh.
  rewrite (filter_key_NoDup material entry).
  - simpl. rewrite Nat.add_0_r.
    apply (entries_under_NoDup mesh transforms); [|done].
    apply (map_ordered_NoDup _ (StaticMeshComparator_strict_total_order heap)).
    rewrite Forall_forall in Hin. apply (Hin _ Hentry).
  - by apply (map_ordered_NoDup _ (MaterialComparator_strict_total_order heap)).
  - done.
Qed.

End GroupingFacts.

(** ** Submissions that are refused, and the classes of lights *)

(** C8: a null light, model or drawable is reported and leaves the queue as
    it was; a light that is not null goes to the directional lights when
    directional, to the visible lights when point or spot, and is dropped
    otherwise, with a report in debug builds only. *)
Theorem null_submissions_and_light_classes `{Services} (heap : Heap)
    (NAZARA_DEBUG : bool) (q : NzForwardRenderQueue) :
  AddLight heap NAZARA_DEBUG nullptr q = (q, [Error_text "Invalid light"]) ∧
  AddModel heap nullptr q = (q, [Error_text "Invalid model"]) ∧
  AddDrawable nullptr q = (q, [Error_text "Invalid drawable"]) ∧
  (∀ light, light ≠ nullptr →
     let type := GetLightType heap light in
     (type = nzLightType_Directional →
        AddLight heap NAZARA_DEBUG light q =
        (mkQueue _ (directionnalLights q ++ [light]) (otherDrawables q)
           (visibleLights q) (visibleModels q) (visibleTransparentsModels q)
           (transparentSkeletalModels q) (transparentStaticModels q), [])) ∧
     (type = nzLightType_Point ∨ type = nzLightType_Spot →
        AddLight heap NAZARA_DEBUG light q =
        (mkQueue _ (directionnalLights q) (otherDrawables q)
           (visibleLights q ++ [light]) (visibleModels q)
           (visibleTransparentsModels q)
           (transparentSkeletalModels q) (transparentStaticModels q), [])) ∧
     (type ≠ nzLightType_Directional → type ≠ nzLightType_Point →
      type ≠ nzLightType_Spot →
        AddLight heap NAZARA_DEBUG light q =
        (q, if NAZARA_DEBUG
            then [Error_number "Light type not handled (0x" type ")"]
            else []))).
Proof.
  split; [done|]. split; [done|]. split; [done|].
  intros light Hnn. cbv zeta. unfold AddLight, non_null.
  destruct (Z.eqb_spec light nullptr) as [|_]; [done|]. simpl.
  unfold nzLightType_Directional, nzLightType_Point, nzLightType_Spot.
  repeat split.
  - by intros ->.
  - by intros [-> | ->].
  - intros Hd Hp Hs.
    destruct (Z.eqb_spec (GetLightType heap light) 0); [done|].
    destruct (Z.eqb_spec (GetLightType heap light) 1); [done|].
    destruct (Z.eqb_spec (GetLightType heap light) 2); [done|].
    by destruct NAZARA_DEBUG.
Qed.

(** Light 57 of the example heap has type 7, which is none of the three. *)
Lemma null_submissions_and_light_classes_witness :
  AddLight digit_heap false 57 (mkQueue _ [] [] [] [] [] [] [])
  = (mkQueue _ [] [] [] [] [] [] [], []).
Proof.
  destruct (null_submissions_and_light_classes digit_heap false
              (mkQueue _ [] [] [] [] [] [] [])) as (_ & _ & _ & Hlight).
  destruct (Hlight 57) as (_ & _ & Hother); [done|].
  apply Hother; vm_compute; congruence.
Defined.

(** ** Lights *)

Section LightFacts.
Context `{Services}.

Lemma ensure_derived_updated (l : NzLight) :
  m_derivedUpdated (node (ensure_derived l)) = true.
Proof.
  unfold ensure_derived. by destruct (m_derivedUpdated (node l)) eqn:Hu.
Qed.

Lemma ensure_derived_idem (l : NzLight) :
  ensure_derived (ensure_derived l) = ensure_derived l.
Proof.
  unfold ensure_derived at 1. by rewrite ensure_derived_updated.
Qed.

(** The cached position after [ensure_derived]: the cache if it was valid,
    the node's world position otherwise. *)
Lemma ensure_derived_position (l : NzLight) :
  m_derivedPosition (node (ensure_derived l))
  = if m_derivedUpdated (node l) then m_derivedPosition (node l)
    else world_position (node l).
Proof. unfold ensure_derived. by destruct (m_derivedUpdated (node l)). Qed.

Lemma ensure_derived_rotation (l : NzLight) :
  m_derivedRotation (node (ensure_derived l))
  = if m_derivedUpdated (node l) then m_derivedRotation (node l)
    else world_rotation (node l).
Proof. unfold ensure_derived. by destruct (m_derivedUpdated (node l)). Qed.

Lemma spot_box_pyramid (l : NzLight) :
  spot_box l = pyramid_box (m_radius l) (m_outerAngle l).
Proof. reflexivity. Qed.

Lemma Vector3f_neg_splat (r : float) :
  Vector3f_neg (Vector3f_splat r) = Vector3f_splat (- r)%Qc.
Proof. reflexivity. Qed.

(** The recompute by cases, one level at a time. *)
Lemma UpdateBoundingVolume_directional (l : NzLight) :
  m_type l = nzLightType_Directional →
  UpdateBoundingVolume l
  = with_boundingVolumeUpdated true
      (if BoundingVolumef_IsNull (m_boundingVolume l)
       then with_boundingVolume (BoundingVolumef_MakeInfinite (m_boundingVolume l)) l
       else l).
Proof.
  intros Ht. unfold UpdateBoundingVolume. rewrite Ht. simpl.
  destruct (BoundingVolumef_IsNull (m_boundingVolume l)); simpl; [done|].
  by rewrite Ht.
Qed.

Lemma UpdateBoundingVolume_point (l : NzLight) :
  m_type l = nzLightType_Point →
  UpdateBoundingVolume l
  = let shaped :=
      if BoundingVolumef_IsNull (m_boundingVolume l)
      then BoundingVolumef_Set (symmetric_box (m_radius l)) (m_boundingVolume l)
      else m_boundingVolume l in
    let l' := ensure_derived l in
    with_boundingVolumeUpdated true
      (with_boundingVolume
         (BoundingVolumef_Update (Matrix4f_Translate (m_derivedPosition (node l')))
            shaped) l').
Proof.
  intros Ht. unfold UpdateBoundingVolume. rewrite Ht. simpl. rewrite andb_false_r.
  destruct (BoundingVolumef_IsNull (m_boundingVolume l));
    unfold ensure_derived;
    destruct (m_derivedUpdated (node l)) eqn:Hu; simpl; rewrite ?Ht, ?Hu; done.
Qed.

Lemma UpdateBoundingVolume_spot (l : NzLight) :
  m_type l = nzLightType_Spot →
  UpdateBoundingVolume l
  = let shaped :=
      if BoundingVolumef_IsNull (m_boundingVolume l)
      then BoundingVolumef_Set (pyramid_box (m_radius l) (m_outerAngle l))
             (m_boundingVolume l)
      else m_boundingVolume l in
    let l' := ensure_derived l in
    with_boundingVolumeUpdated true
      (with_boundingVolume
         (BoundingVolumef_Update
            (Matrix4f_Transform (m_derivedPosition (node l'))
               (m_derivedRotation (node l')))
            shaped) l').
Proof.
  intros Ht. unfold UpdateBoundingVolume. rewrite Ht. simpl. rewrite andb_false_r.
  destruct (BoundingVolumef_IsNull (m_boundingVolume l));
    unfold ensure_derived;
    destruct (m_derivedUpdated (node l)) eqn:Hu; simpl; rewrite ?Ht, ?Hu; done.
Qed.

Lemma UpdateBoundingVolume_other (l : NzLight) :
  m_type l ≠ nzLightType_Directional → m_type l ≠ nzLightType_Point →
  m_type l ≠ nzLightType_Spot →
  UpdateBoundingVolume l = with_boundingVolumeUpdated true l.
Proof.
  intros Hd Hp Hs.
  apply Z.eqb_neq in Hd, Hp, Hs. unfold UpdateBoundingVolume.
  rewrite Hd, andb_false_r.
  destruct (BoundingVolumef_IsNull (m_boundingVolume l));
    rewrite ?Hd, ?Hp, ?Hs; simpl; rewrite ?Hd, ?Hp, ?Hs; done.
Qed.

Lemma UpdateBoundingVolume_idem (l : NzLight) :
  UpdateBoundingVolume (UpdateBoundingVolume l) = UpdateBoundingVolume l.
Proof.
  destruct (Z.eq_dec (m_type l) nzLightType_Directional) as [Hd|Hd].
  { rewrite (UpdateBoundingVolume_directional l Hd).
    rewrite UpdateBoundingVolume_directional
      by (by destruct (BoundingVolumef_IsNull (m_boundingVolume l))).
    destruct l as [n t [[] lb cs ab] c bu af at_ df ia oa r]; done. }
  destruct (Z.eq_dec (m_type l) nzLightType_Point) as [Hp|Hp].
  { rewrite (UpdateBoundingVolume_point l Hp).
    rewrite UpdateBoundingVolume_point by (by unfold ensure_derived; case_match).
    cbv zeta. unfold ensure_derived.
    destruct l as [[[] dp dr wp wr] t [[] lb cs ab] c bu af at_ df ia oa r]; done. }
  destruct (Z.eq_dec (m_type l) nzLightType_Spot) as [Hs|Hs].
  { rewrite (UpdateBoundingVolume_spot l Hs).
    rewrite UpdateBoundingVolume_spot by (by unfold ensure_derived; case_match).
    cbv zeta. unfold ensure_derived.
    destruct l as [[[] dp dr wp wr] t [[] lb cs ab] c bu af at_ df ia oa r]; done. }
  rewrite (UpdateBoundingVolume_other l Hd Hp Hs).
  by rewrite UpdateBoundingVolume_other.
Qed.

Lemma fmin_le_l (a b : float) : (fmin a b ≤ a)%Qc.
Proof.
  unfold fmin. case_bool_decide as Hab; [apply Qcle_refl|].
  apply Qclt_le_weak. by apply Qcnot_le_lt.
Qed.

Lemma fmin_le_r (a b : float) : (fmin a b ≤ b)%Qc.
Proof. unfold fmin. case_bool_decide as Hab; [done|apply Qcle_refl]. Qed.

Lemma fmax_ge_l (a b : float) : (a ≤ fmax a b)%Qc.
Proof. unfold fmax. case_bool_decide as Hab; [done|apply Qcle_refl]. Qed.

Lemma fmax_ge_r (a b : float) : (b ≤ fmax a b)%Qc.
Proof.
  unfold fmax. case_bool_decide as Hab; [apply Qcle_refl|].
  apply Qclt_le_weak. by apply Qcnot_le_lt.
Qed.

Lemma Boxf_ExtendTo_contains (b : Boxf) (p : Vector3f) :
  Boxf_Contains (Boxf_ExtendTo b p) p.
Proof.
  unfold Boxf_Contains, Boxf_ExtendTo. simpl.
  repeat split; auto using fmin_le_r, fmax_ge_r.
Qed.

Lemma Boxf_ExtendTo_keeps (b : Boxf) (p q : Vector3f) :
  Boxf_Contains b q → Boxf_Contains (Boxf_ExtendTo b p) q.
Proof.
  unfold Boxf_Contains, Boxf_ExtendTo. simpl.
  intros ((? & ?) & (? & ?) & (? & ?)).
  repeat split;
    first [ by eapply Qcle_trans; [apply fmin_le_l|]
          | by eapply Qcle_trans; [|apply fmax_ge_l] ].
Qed.

Lemma Boxf_point_contains (p : Vector3f) : Boxf_Contains (Boxf_point p) p.
Proof. unfold Boxf_Contains. simpl. repeat split; apply Qcle_refl. Qed.

Lemma foldl_ExtendTo_contains (ps : list Vector3f) (b : Boxf) (q : Vector3f) :
  Boxf_Contains b q ∨ q ∈ ps → Boxf_Contains (foldl Boxf_ExtendTo b ps) q.
Proof.
  revert b. induction ps as [|p ps IH]; intros b; simpl.
  { intros [Hq|Hq]; [done|]. by apply elem_of_nil in Hq. }
  intros [Hq|Hq]; apply IH.
  - left. by apply Boxf_ExtendTo_keeps.
  - apply elem_of_cons in Hq as [->|Hq]; [left|by right].
    apply Boxf_ExtendTo_contains.
Qed.

(** The hull of a list of points contains each of them. *)
Lemma Boxf_hull_contains (ps : list Vector3f) (q : Vector3f) :
  q ∈ ps → Boxf_Contains (Boxf_hull ps) q.
Proof.
  destruct ps as [|p ps]; simpl.
  { intros Hq. by apply elem_of_nil in Hq. }
  intros Hq. apply foldl_ExtendTo_contains.
  apply elem_of_cons in Hq as [->|Hq]; [left|by right].
  apply Boxf_point_contains.
Qed.

(** A light that kept its cache answers from it, and stays as it is. *)
Lemma GetBoundingVolume_cached (l l' : NzLight) :
  keeps_volume_cache l l' → m_boundingVolumeUpdated l = true →
  GetBoundingVolume l' = (m_boundingVolume l, l').
Proof.
  intros (Hv & Hu & _) Hvalid. unfold GetBoundingVolume.
  rewrite Hu, Hvalid. simpl. by rewrite Hv.
Qed.

Ltac type_clash :=
  unfold nzLightType_Directional, nzLightType_Point, nzLightType_Spot in *;
  congruence.

(** What the recompute makes of a light whose cached shape is null or
    consistent. *)
Lemma UpdateBoundingVolume_consistent (l : NzLight) :
  shape_cache_consistent l →
  let l' := UpdateBoundingVolume l in
  m_boundingVolumeUpdated l' = true ∧
  shape_cache_consistent l' ∧
  (m_type l = nzLightType_Directional →
     extend (m_boundingVolume l') = nzExtend_Infinite ∧
     localBox (m_boundingVolume l') = localBox (m_boundingVolume l) ∧
     corners (m_boundingVolume l') = corners (m_boundingVolume l) ∧
     aabb (m_boundingVolume l') = aabb (m_boundingVolume l) ∧
     node l' = node l) ∧
  (m_type l = nzLightType_Point ∨ m_type l = nzLightType_Spot →
     node l' = node (ensure_derived l) ∧
     Some (m_boundingVolume l')
     = fresh_volume (m_type l) (m_radius l) (m_outerAngle l)
         (current_position l) (current_rotation l)).
Proof.
  intros Hc. cbv zeta.
  destruct (Z.eq_dec (m_type l) nzLightType_Directional) as [Hd|Hd].
  { rewrite (UpdateBoundingVolume_directional l Hd).
    assert (BoundingVolumef_IsNull (m_boundingVolume l) = true
            ∨ extend (m_boundingVolume l) = nzExtend_Infinite) as [Hn|Hi].
    { destruct Hc as [? | [[_ ?] | [[? _] | [? _]]]]; auto; type_clash. }
    - rewrite Hn. simpl. split; [done|]. split; [by right; left|].
      split; [done|]. intros [?|?]; type_clash.
    - assert (BoundingVolumef_IsNull (m_boundingVolume l) = false) as ->
        by (unfold BoundingVolumef_IsNull; by rewrite Hi).
      simpl. split; [done|]. split; [by right; left|].
      split; [done|]. intros [?|?]; type_clash. }
  destruct (Z.eq_dec (m_type l) nzLightType_Point) as [Hp|Hp].
  { rewrite (UpdateBoundingVolume_point l Hp). cbv zeta.
    assert (∃ v, (if BoundingVolumef_IsNull (m_boundingVolume l)
                  then BoundingVolumef_Set (symmetric_box (m_radius l))
                         (m_boundingVolume l)
                  else m_boundingVolume l) = v ∧
                 extend v = nzExtend_Finite ∧
                 localBox v = symmetric_box (m_radius l)) as (v & -> & Hv1 & Hv2).
    { destruct (BoundingVolumef_IsNull (m_boundingVolume l)) eqn:Hn;
        [by eexists|].
      exists (m_boundingVolume l). split; [done|].
      destruct Hc as [? | [[? _] | [[_ ?] | [? _]]]]; first [done | type_clash]. }
    simpl. split; [done|]. split.
    { right; right; left. simpl. rewrite Hv1, Hv2.
      unfold ensure_derived. by case_match. }
    split; [intros ?; type_clash|]. intros _.
    split; [done|].
    unfold fresh_volume, placed_volume, BoundingVolumef_Update.
    rewrite Hp, Hv1, Hv2. simpl. by rewrite ensure_derived_position. }
  destruct (Z.eq_dec (m_type l) nzLightType_Spot) as [Hs|Hs].
  { rewrite (UpdateBoundingVolume_spot l Hs). cbv zeta.
    assert (∃ v, (if BoundingVolumef_IsNull (m_boundingVolume l)
                  then BoundingVolumef_Set
                         (pyramid_box (m_radius l) (m_outerAngle l))
                         (m_boundingVolume l)
                  else m_boundingVolume l) = v ∧
                 extend v = nzExtend_Finite ∧
                 localBox v = pyramid_box (m_radius l) (m_outerAngle l))
      as (v & -> & Hv1 & Hv2).
    { destruct (BoundingVolumef_IsNull (m_boundingVolume l)) eqn:Hn;
        [by eexists|].
      exists (m_boundingVolume l). split; [done|].
      destruct Hc as [? | [[? _] | [[? _] | [_ ?]]]]; first [done | type_clash]. }
    simpl. split; [done|]. split.
    { right; right; right. simpl. rewrite Hv1, Hv2.
      unfold ensure_derived. by case_match. }
    split; [intros ?; type_clash|]. intros _.
    split; [done|].
    unfold fresh_volume, placed_volume, BoundingVolumef_Update.
    rewrite Hs, Hv1, Hv2. simpl.
    by rewrite ensure_derived_position, ensure_derived_rotation. }
  rewrite (UpdateBoundingVolume_other l Hd Hp Hs). simpl.
  split; [done|]. split.
  { destruct Hc as [? | [[? _] | [[? _] | [? _]]]]; [by left|type_clash..]. }
  split; [intros ?; type_clash|]. intros [?|?]; type_clash.
Qed.

(** Every operation of a light but [SetLightType] keeps the cached shape
    null or consistent; a new light has a null one. *)
Lemma NzLight_new_consistent (n : NzSceneNode) (type : nzLightType) :
  shape_cache_consistent (NzLight_new n type).
Proof. by left. Qed.

Lemma invalidating_setters_consistent (l : NzLight) (v : float) :
  shape_cache_consistent (SetRadius v l) ∧
  shape_cache_consistent (SetOuterAngle v l).
Proof. split; by left. Qed.

Lemma other_operations_consistent (l : NzLight) (v : float) (c : NzColor) :
  shape_cache_consistent l →
  shape_cache_consistent (SetAmbientFactor v l) ∧
  shape_cache_consistent (SetAttenuation v l) ∧
  shape_cache_consistent (SetColor c l) ∧
  shape_cache_consistent (SetDiffuseFactor v l) ∧
  shape_cache_consistent (SetInnerAngle v l) ∧
  shape_cache_consistent (Invalidate l) ∧
  shape_cache_consistent (GetBoundingVolume l).2.
Proof.
  intros Hl. repeat split; try exact Hl.
  unfold GetBoundingVolume. destruct (m_boundingVolumeUpdated l); [done|].
  simpl. by apply UpdateBoundingVolume_consistent.
Qed.

End LightFacts.

(** C9, as amended: recomputing the volume of a light whose cached shape is
    null, or is the shape of its type, radius and outer angle, gives: for a
    directional light, the infinite volume, with no placement applied and the
    node left as it is; for a point light, the symmetric box of half-extent
    the radius, placed by the translation to the world position; for a spot
    light, the box around the apex and the four far-plane corners (at the
    radius along the forward axis, spread by radius times the tangent of the
    outer angle), which contains those five points, placed by the transform
    of the world position and rotation.  Recomputing twice is recomputing
    once, for every light. *)
Theorem UpdateBoundingVolume_recompute `{Services} :
  (∀ l : NzLight,
     shape_cache_consistent l →
     let l' := UpdateBoundingVolume l in
     m_boundingVolumeUpdated l' = true ∧
     (m_type l = nzLightType_Directional →
        extend (m_boundingVolume l') = nzExtend_Infinite ∧
        corners (m_boundingVolume l') = corners (m_boundingVolume l) ∧
        aabb (m_boundingVolume l') = aabb (m_boundingVolume l) ∧
        node l' = node l) ∧
     (m_type l = nzLightType_Point →
        node l' = node (ensure_derived l) ∧
        m_boundingVolume l'
        = placed_volume (Matrix4f_Translate (current_position l))
            (symmetric_box (m_radius l))) ∧
     (m_type l = nzLightType_Spot →
        node l' = node (ensure_derived l) ∧
        m_boundingVolume l'
        = placed_volume
            (Matrix4f_Transform (current_position l) (current_rotation l))
            (pyramid_box (m_radius l) (m_outerAngle l)) ∧
        Forall (Boxf_Contains (pyramid_box (m_radius l) (m_outerAngle l)))
          (Vector3f_Zero :: far_plane_corners (m_radius l) (m_outerAngle l)))) ∧
  (∀ l : NzLight,
     UpdateBoundingVolume (UpdateBoundingVolume l) = UpdateBoundingVolume l).
Proof.
  split; [|apply UpdateBoundingVolume_idem].
  intros l Hl. cbv zeta.
  destruct (UpdateBoundingVolume_consistent l Hl) as (Hflag & _ & Hdir & Hfinite).
  split; [exact Hflag|]. split; [|split].
  - intros Ht. by destruct (Hdir Ht) as (? & _ & ? & ? & ?).
  - intros Ht. destruct (Hfinite (or_introl Ht)) as [Hnode Hvol].
    split; [exact Hnode|].
    unfold fresh_volume in Hvol. rewrite Ht in Hvol. by injection Hvol.
  - intros Ht. destruct (Hfinite (or_intror Ht)) as [Hnode Hvol].
    split; [exact Hnode|]. split.
    + unfold fresh_volume in Hvol. rewrite Ht in Hvol. by injection Hvol.
    + rewrite Forall_forall. intros p Hp. by apply Boxf_hull_contains.
Qed.

(** C6: the culling test by light type.  A directional light is always
    visible.  A point light is tested as the sphere of its radius around the
    node's position, the node's cache being refreshed first when stale.  A
    spot light whose volume is marked valid is tested with that volume; one
    whose volume is stale is tested with the volume brought up to date, the
    cached shape (the pyramid, when there is none) placed at the node's
    position and rotation, which for a null or consistent cache is the
    pyramid of the light's radius and outer angle placed there; the light is
    left with that volume, marked valid.  Any other type gives an error and
    the answer false. *)
Theorem FrustumCull_by_type `{Services} (frustum : Frustumf) (l : NzLight) :
  (m_type l = nzLightType_Directional →
     FrustumCull frustum l = (true, l, [])) ∧
  (m_type l = nzLightType_Point →
     FrustumCull frustum l
     = (Frustumf_ContainsSphere frustum
          (mkSpheref (current_position l) (m_radius l)),
        ensure_derived l, []) ∧
     m_derivedUpdated (node (ensure_derived l)) = true) ∧
  (m_type l = nzLightType_Spot →
     (m_boundingVolumeUpdated l = true →
        FrustumCull frustum l
        = (Frustumf_ContainsVolume frustum (m_boundingVolume l), l, [])) ∧
     (m_boundingVolumeUpdated l = false →
        FrustumCull frustum l
        = (Frustumf_ContainsVolume frustum (spot_volume l),
           with_boundingVolumeUpdated true
             (with_boundingVolume (spot_volume l) (ensure_derived l)), []) ∧
        (shape_cache_consistent l →
           spot_volume l
           = placed_volume
               (Matrix4f_Transform (current_position l) (current_rotation l))
               (pyramid_box (m_radius l) (m_outerAngle l)))) ∧
     FrustumCull frustum l
     = (Frustumf_ContainsVolume frustum (GetBoundingVolume l).1,
        (GetBoundingVolume l).2, []) ∧
     m_boundingVolumeUpdated (GetBoundingVolume l).2 = true ∧
     (m_boundingVolumeUpdated l = true → (GetBoundingVolume l).2 = l) ∧
     (m_boundingVolumeUpdated l = false →
        (GetBoundingVolume l).2 = UpdateBoundingVolume l)) ∧
  (m_type l ≠ nzLightType_Directional → m_type l ≠ nzLightType_Point →
   m_type l ≠ nzLightType_Spot →
     FrustumCull frustum l
     = (false, l, [Error_number "Invalid light type (0x" (m_type l) ")"])).
Proof.
  split; [|split; [|split]].
  - unfold FrustumCull. by intros ->.
  - unfold FrustumCull. intros ->. simpl. split; [|apply ensure_derived_updated].
    unfold current_position, ensure_derived.
    by destruct (m_derivedUpdated (node l)).
  - intros Ht.
    assert (FrustumCull frustum l
            = (Frustumf_ContainsVolume frustum (GetBoundingVolume l).1,
               (GetBoundingVolume l).2, [])) as Hcull.
    { unfold FrustumCull, GetBoundingVolume. by rewrite Ht. }
    assert (UpdateBoundingVolume l
            = with_boundingVolumeUpdated true
                (with_boundingVolume (spot_volume l) (ensure_derived l)))
      as Hupdate.
    { rewrite (UpdateBoundingVolume_spot l Ht). cbv zeta.
      by rewrite ensure_derived_position, ensure_derived_rotation. }
    split; [|split; [|split; [exact Hcull|]]].
    + intros Hu. rewrite Hcull. unfold GetBoundingVolume. by rewrite Hu.
    + intros Hu. split.
      * rewrite Hcull. unfold GetBoundingVolume. rewrite Hu. simpl.
        by rewrite Hupdate.
      * intros Hl.
        destruct (UpdateBoundingVolume_consistent l Hl) as (_ & _ & _ & Hfinite).
        destruct (Hfinite (or_intror Ht)) as [_ Hvolume].
        rewrite Hupdate in Hvolume. unfold fresh_volume in Hvolume.
        rewrite Ht in Hvolume.
        change (nzLightType_Spot =? nzLightType_Point) with false in Hvolume.
        change (nzLightType_Spot =? nzLightType_Spot) with true in Hvolume.
        cbv iota in Hvolume.
        cbn [m_boundingVolume with_boundingVolumeUpdated with_boundingVolume]
          in Hvolume.
        exact (inj Some _ _ Hvolume).
    + unfold GetBoundingVolume.
      destruct (m_boundingVolumeUpdated l) eqn:Hu; simpl.
      * by rewrite Hu.
      * split; [|done]. by rewrite Hupdate.
  - intros Hd Hp Hs. unfold FrustumCull.
    apply Z.eqb_neq in Hd, Hp, Hs. by rewrite Hd, Hp, Hs.
Qed.

(** The scenario of the specification: a point light of radius 5 at the
    origin is visible in a frustum around the origin, and is not in a
    frustum around a point 200 away on the third axis.  A new spot light at
    the origin is visible in the cube of half-extent 5 around (0, 0, -7),
    which holds the corner (-5, -5, -5) of its pyramid and not the origin. *)
Lemma FrustumCull_by_type_witness :
  (FrustumCull (cube_frustum 0 50)
     (NzLight_new (node_at 0 0 0) nzLightType_Point)).1.1 = true ∧
  (FrustumCull (cube_frustum 200 50)
     (NzLight_new (node_at 0 0 0) nzLightType_Point)).1.1 = false ∧
  (FrustumCull (cube_frustum (-7) 5)
     (NzLight_new (node_at 0 0 0) nzLightType_Spot)).1.1 = true.
Proof.
  split; [|split].
  - rewrite (proj1 (proj1 (proj2 (FrustumCull_by_type (cube_frustum 0 50)
               (NzLight_new (node_at 0 0 0) nzLightType_Point))) eq_refl)).
    by vm_compute.
  - rewrite (proj1 (proj1 (proj2 (FrustumCull_by_type (cube_frustum 200 50)
               (NzLight_new (node_at 0 0 0) nzLightType_Point))) eq_refl)).
    by vm_compute.
  - destruct (proj1 (proj2 (proj1 (proj2 (proj2
                (FrustumCull_by_type (cube_frustum (-7) 5)
                   (NzLight_new (node_at 0 0 0) nzLightType_Spot)))) eq_refl))
                eq_refl) as [Hcull Hpyramid].
    rewrite Hcull, (Hpyramid (NzLight_new_consistent _ _)).
    by vm_compute.
Defined.

(** A new point light at (1, 2, 3): its first volume is the symmetric box of
    half-extent 5, translated to (1, 2, 3). *)
Lemma UpdateBoundingVolume_recompute_witness :
  m_boundingVolume
    (UpdateBoundingVolume (NzLight_new (node_at 1 2 3) nzLightType_Point))
  = @placed_volume translation_world (mkVector3f (fz 1) (fz 2) (fz 3))
      (symmetric_box (fz 5)).
Proof.
  exact (proj2 (proj1 (proj2 (proj2
           (proj1 UpdateBoundingVolume_recompute
              (NzLight_new (node_at 1 2 3) nzLightType_Point)
              (NzLight_new_consistent _ _)))) eq_refl)).
Defined.

(** C9, as stated for every light, fails on a light that was retyped: a spot
    light whose volume has been read, then made a point light by
    [SetLightType] and moved, recomputes its volume from the cached pyramid,
    not from the symmetric box of a point light. *)
Lemma UpdateBoundingVolume_reuses_stale_shape :
  ¬ (∀ (S : Services) (l : NzLight),
       m_type l = nzLightType_Point →
       m_boundingVolume (UpdateBoundingVolume l)
       = placed_volume (Matrix4f_Translate (current_position l))
           (symmetric_box (m_radius l))).
Proof.
  intros Hclaim.
  specialize (Hclaim translation_world
                (Invalidate
                   (SetLightType nzLightType_Point
                      (GetBoundingVolume
                         (NzLight_new (node_at 1 2 3) nzLightType_Spot)).2))
                eq_refl).
  apply (f_equal (λ v, this (vz (box_max (localBox v))))) in Hclaim.
  vm_compute in Hclaim. discriminate Hclaim.
Qed.

(** The cached shape of a light is null or consistent when the light is
    made, and stays so under every operation but [SetLightType]. *)
Theorem shape_cache_invariant `{Services} (n : NzSceneNode) (type : nzLightType)
    (l : NzLight) (v : float) (c : NzColor) (frustum : Frustumf) :
  shape_cache_consistent (NzLight_new n type) ∧
  shape_cache_consistent (SetRadius v l) ∧
  shape_cache_consistent (SetOuterAngle v l) ∧
  (shape_cache_consistent l →
     shape_cache_consistent (SetAmbientFactor v l) ∧
     shape_cache_consistent (SetAttenuation v l) ∧
     shape_cache_consistent (SetColor c l) ∧
     shape_cache_consistent (SetDiffuseFactor v l) ∧
     shape_cache_consistent (SetInnerAngle v l) ∧
     shape_cache_consistent (Invalidate l) ∧
     shape_cache_consistent (GetBoundingVolume l).2 ∧
     shape_cache_consistent (UpdateBoundingVolume l) ∧
     shape_cache_consistent (FrustumCull frustum l).1.2).
Proof.
  split; [apply NzLight_new_consistent|].
  split; [apply invalidating_setters_consistent|].
  split; [apply invalidating_setters_consistent|].
  intros Hl.
  destruct (other_operations_consistent l v c Hl) as (? & ? & ? & ? & ? & ? & Hget).
  repeat (split; [done|]).
  split; [by apply UpdateBoundingVolume_consistent|].
  unfold FrustumCull.
  destruct (m_type l =? nzLightType_Directional); [done|].
  destruct (m_type l =? nzLightType_Point).
  { simpl. unfold ensure_derived. by case_match. }
  destruct (m_type l =? nzLightType_Spot); [|done].
  exact Hget.
Qed.

(** A new spot light whose radius is set: its cached shape is null. *)
Lemma shape_cache_invariant_witness :
  shape_cache_consistent
    (SetInnerAngle (fz 10)
       (SetRadius (fz 7) (NzLight_new (node_at 1 2 3) nzLightType_Spot))).
Proof.
  destruct (shape_cache_invariant (node_at 1 2 3) nzLightType_Spot
              (SetRadius (fz 7) (NzLight_new (node_at 1 2 3) nzLightType_Spot))
              (fz 10) 0 (cube_frustum 0 1)) as (_ & _ & _ & Hkeep).
  apply Hkeep. by left.
Defined.

(** C7: [SetRadius] and [SetOuterAngle] invalidate the cache, and the next
    read of the volume is the volume recomputed from the new value: for a
    point or spot light the fresh volume of the new radius or angle, for a
    directional light the infinite volume.  The other setters, the setter of
    the type among them, leave the cached volume, its validity flag and the
    node as they are, so that a valid cache answers the next read without a
    recompute. *)
Theorem bounding_volume_cache_invalidation `{Services} (l : NzLight)
    (v : float) (c : NzColor) (type : nzLightType) :
  (m_boundingVolumeUpdated (SetRadius v l) = false ∧
   BoundingVolumef_IsNull (m_boundingVolume (SetRadius v l)) = true ∧
   GetBoundingVolume (SetRadius v l)
   = (m_boundingVolume (UpdateBoundingVolume (SetRadius v l)),
      UpdateBoundingVolume (SetRadius v l)) ∧
   (m_type l = nzLightType_Point ∨ m_type l = nzLightType_Spot →
      Some (GetBoundingVolume (SetRadius v l)).1
      = fresh_volume (m_type l) v (m_outerAngle l)
          (current_position l) (current_rotation l)) ∧
   (m_type l = nzLightType_Directional →
      extend (GetBoundingVolume (SetRadius v l)).1 = nzExtend_Infinite)) ∧
  (m_boundingVolumeUpdated (SetOuterAngle v l) = false ∧
   BoundingVolumef_IsNull (m_boundingVolume (SetOuterAngle v l)) = true ∧
   GetBoundingVolume (SetOuterAngle v l)
   = (m_boundingVolume (UpdateBoundingVolume (SetOuterAngle v l)),
      UpdateBoundingVolume (SetOuterAngle v l)) ∧
   (m_type l = nzLightType_Point ∨ m_type l = nzLightType_Spot →
      Some (GetBoundingVolume (SetOuterAngle v l)).1
      = fresh_volume (m_type l) (m_radius l) v
          (current_position l) (current_rotation l)) ∧
   (m_type l = nzLightType_Directional →
      extend (GetBoundingVolume (SetOuterAngle v l)).1 = nzExtend_Infinite)) ∧
  answers_from_cache l (SetAmbientFactor v l) ∧
  answers_from_cache l (SetAttenuation v l) ∧
  answers_from_cache l (SetColor c l) ∧
  answers_from_cache l (SetDiffuseFactor v l) ∧
  answers_from_cache l (SetInnerAngle v l) ∧
  answers_from_cache l (SetLightType type l).
Proof.
  assert (∀ l' : NzLight,
            BoundingVolumef_IsNull (m_boundingVolume l') = true →
            m_boundingVolumeUpdated l' = false →
            GetBoundingVolume l'
            = (m_boundingVolume (UpdateBoundingVolume l'), UpdateBoundingVolume l') ∧
            (m_type l' = nzLightType_Point ∨ m_type l' = nzLightType_Spot →
               Some (GetBoundingVolume l').1
               = fresh_volume (m_type l') (m_radius l') (m_outerAngle l')
                   (current_position l') (current_rotation l')) ∧
            (m_type l' = nzLightType_Directional →
               extend (GetBoundingVolume l').1 = nzExtend_Infinite)) as Hread.
  { intros l' Hnull Hflag.
    destruct (UpdateBoundingVolume_consistent l' (or_introl Hnull))
      as (_ & _ & Hdir & Hfinite).
    unfold GetBoundingVolume. rewrite Hflag. simpl.
    split; [done|]. split.
    - intros Ht. by destruct (Hfinite Ht).
    - intros Ht. by destruct (Hdir Ht). }
  split; [|split].
  - split; [done|]. split; [done|]. by apply (Hread (SetRadius v l)).
  - split; [done|]. split; [done|]. by apply (Hread (SetOuterAngle v l)).
  - repeat split; intros Hvalid; by apply GetBoundingVolume_cached.
Qed.

(** A spot light of the example world, read once, then given radius 7: the
    next read is the pyramid of radius 7 and outer angle 45. *)
Lemma bounding_volume_cache_invalidation_witness :
  Some (GetBoundingVolume
          (SetRadius (fz 7)
             (GetBoundingVolume
                (NzLight_new (node_at 1 2 3) nzLightType_Spot)).2)).1
  = Some (@placed_volume translation_world (mkVector3f (fz 1) (fz 2) (fz 3))
            (@pyramid_box translation_world (fz 7) (fz 45))).
Proof.
  exact (proj1 (proj2 (proj2 (proj2 (proj1
           (bounding_volume_cache_invalidation
              (GetBoundingVolume (NzLight_new (node_at 1 2 3) nzLightType_Spot)).2
              (fz 7) 0 0))))) (or_intror eq_refl)).
Defined.

(** ** Uploading a light to a shader program *)

Lemma run_sends_frame `{Services} (sends : list (Z * UniformValue))
    (uniforms : gmap Z UniformValue) (location : Z) :
  location ∉ sends.*1 → run_sends sends uniforms !! location = uniforms !! location.
Proof.
  unfold run_sends. revert uniforms.
  induction sends as [|[loc value] sends IH]; intros uniforms; simpl; [done|].
  rewrite not_elem_of_cons. intros [Hne Hnotin].
  rewrite IH by done. by apply lookup_insert_ne.
Qed.

Lemma run_sends_last `{Services} (sends : list (Z * UniformValue))
    (uniforms : gmap Z UniformValue) (location : Z) (value : UniformValue) :
  run_sends (sends ++ [(location, value)]) uniforms !! location = Some value.
Proof.
  unfold run_sends. rewrite foldl_app. simpl. apply lookup_insert_eq.
Qed.

(** C10: the locations [Enable] uploads to, in order: the type, colour,
    factors and first parameter of the slot for a directional light; those
    and the second parameter for a point light; all six for a spot light.
    A location that is not uploaded to keeps the value it had, so the second
    and third parameters of a slot survive a directional light, and the
    third a point light, whenever they are not one of the locations written. *)
Theorem Enable_uploads_by_type `{Services} (program : NzShaderProgram)
    (lightUnit : Z) (l : NzLight) :
  (m_type l = nzLightType_Directional →
     (Enable program lightUnit l).1.*1
     = uniform_location program lightUnit
         <$> common_uniforms ++ ["Lights[0].parameters1"]) ∧
  (m_type l = nzLightType_Point →
     (Enable program lightUnit l).1.*1
     = uniform_location program lightUnit
         <$> common_uniforms ++ ["Lights[0].parameters1"; "Lights[0].parameters2"]) ∧
  (m_type l = nzLightType_Spot →
     (Enable program lightUnit l).1.*1
     = uniform_location program lightUnit
         <$> common_uniforms ++ ["Lights[0].parameters1"; "Lights[0].parameters2";
                                 "Lights[0].parameters3"]) ∧
  (∀ (uniforms : gmap Z UniformValue) (location : Z),
     location ∉ (Enable program lightUnit l).1.*1 →
     run_sends (Enable program lightUnit l).1 uniforms !! location
     = uniforms !! location).
Proof.
  repeat split.
  - intros Ht. unfold Enable, ensure_derived.
    destruct (m_derivedUpdated (node l)); simpl; by rewrite Ht.
  - intros Ht. unfold Enable, ensure_derived.
    destruct (m_derivedUpdated (node l)); simpl; by rewrite Ht.
  - intros Ht. unfold Enable, ensure_derived.
    destruct (m_derivedUpdated (node l)); simpl; by rewrite Ht.
  - intros uniforms location. apply run_sends_frame.
Qed.

(** Slot 1 of the example program (locations 16 to 21): a spot light is
    uploaded, then a directional light.  The third parameter of the slot,
    at location 21, still holds the cosines the spot light left. *)
Lemma Enable_uploads_by_type_witness :
  run_sends
    (Enable six_locations 1 (NzLight_new (node_at 0 0 0) nzLightType_Directional)).1
    (run_sends
       (Enable six_locations 1 (NzLight_new (node_at 0 0 0) nzLightType_Spot)).1 ∅)
    !! 21
  = Some (Uniform_Vector2 (mkVector2f (fz 1) (fz 1))).
Proof.
  rewrite (proj2 (proj2 (proj2 (Enable_uploads_by_type six_locations 1
             (NzLight_new (node_at 0 0 0) nzLightType_Directional))))).
  - assert ((Enable six_locations 1
               (NzLight_new (node_at 0 0 0) nzLightType_Spot)).1
            = take 5 (Enable six_locations 1
                        (NzLight_new (node_at 0 0 0) nzLightType_Spot)).1
              ++ [(21, Uniform_Vector2 (mkVector2f (fz 1) (fz 1)))]) as ->
      by reflexivity.
    apply run_sends_last.
  - rewrite (proj1 (Enable_uploads_by_type six_locations 1
               (NzLight_new (node_at 0 0 0) nzLightType_Directional)) eq_refl).
    replace (uniform_location six_locations 1
               <$> common_uniforms ++ ["Lights[0].parameters1"])
      with [16; 17; 18; 19] by (vm_compute; reflexivity).
    rewrite !not_elem_of_cons. repeat split; try lia. apply not_elem_of_nil.
Defined.

(** ** Sorting the transparent index list *)

Section SortedFacts.
Context {A : Type}.

Lemma StronglySorted_and (R R' : relation A) (l : list A) :
  StronglySorted R l → StronglySorted R' l →
  StronglySorted (λ a b, R a b ∧ R' a b) l.
Proof.
  induction l as [|h t IH]; intros Hs Hs'; [constructor|].
  apply StronglySorted_inv in Hs as [Ht Hh].
  apply StronglySorted_inv in Hs' as [Ht' Hh'].
  constructor; [by apply IH|].
  rewrite Forall_forall in Hh, Hh' |- *. auto.
Qed.

(** Of two different members of a sorted list, one is before the other. *)
Lemma StronglySorted_pair (R : relation A) (l : list A) (x y : A) :
  StronglySorted R l → x ∈ l → y ∈ l → x ≠ y → R x y ∨ R y x.
Proof.
  induction 1 as [|h t Ht IH Hh]; intros Hx Hy Hne.
  { by apply elem_of_nil in Hx. }
  rewrite Forall_forall in Hh.
  apply elem_of_cons in Hx as [->|Hx]; apply elem_of_cons in Hy as [->|Hy]; auto.
  done.
Qed.

Lemma StronglySorted_weaken (R R' : relation A) (l : list A) :
  (∀ a b, a ∈ l → b ∈ l → R a b → R' a b) →
  StronglySorted R l → StronglySorted R' l.
Proof.
  induction l as [|h t IH]; intros Himp Hs; [constructor|].
  apply StronglySorted_inv in Hs as [Ht Hh].
  constructor.
  - apply IH; [|done]. intros a b Ha Hb. apply Himp; by apply elem_of_cons; right.
  - rewrite Forall_forall in Hh |- *. intros b Hb.
    apply Himp; [by apply elem_of_cons; left|by apply elem_of_cons; right|auto].
Qed.

(** A comparator that compares keys is a strict weak ordering. *)
Lemma key_comparator_strict_weak (comp : A → A → bool) (key : A → float)
    (l : list A) :
  (∀ a b, a ∈ l → b ∈ l → comp a b = flt (key a) (key b)) →
  strict_weak_order_on comp l.
Proof.
  intros Hkey. unfold flt in Hkey. split; [|split].
  - intros x Hx. rewrite Hkey by done. apply bool_decide_eq_false.
    apply Qcle_not_lt, Qcle_refl.
  - intros x y z Hx Hy Hz. rewrite !Hkey by done.
    rewrite !bool_decide_eq_true. apply Qclt_trans.
  - intros x y z Hx Hy Hz. rewrite !Hkey by done.
    rewrite !bool_decide_eq_false. intros Hxy Hyx Hyz Hzy.
    assert (key x = key y) as ->
      by (apply Qcle_antisym; by apply Qcnot_lt_le).
    assert (key y = key z) as ->
      by (apply Qcle_antisym; by apply Qcnot_lt_le).
    split; apply Qcle_not_lt, Qcle_refl.
Qed.

(** Two permutations of each other with the same keys in the same places,
    the keys being pairwise different, are the same list. *)
Lemma same_keys_same_list {B : Type} (key : A → B) (l1 l2 : list A) :
  key <$> l1 = key <$> l2 → l1 ≡ₚ l2 → NoDup (key <$> l1) → l1 = l2.
Proof.
  revert l2. induction l1 as [|a t1 IH]; intros [|b t2]; simpl; try done.
  intros [= Hab Ht] Hperm Hnd. apply NoDup_cons in Hnd as [Hnotin Hnd].
  assert (a = b) as ->.
  { assert (b ∈ a :: t1) as Hb by (rewrite Hperm; apply elem_of_cons; by left).
    apply elem_of_cons in Hb as [->|Hb]; [done|].
    destruct Hnotin. rewrite Hab. by apply list_elem_of_fmap_2. }
  f_equal. apply IH; [done| |done]. by apply Permutation_cons_inv in Hperm.
Qed.
End SortedFacts.

Section SortFacts.
Context `{Services} `{StdSort}.

Lemma comparator_same_store q nearPlane tag (a b : Z * bool) :
  a.2 = tag → is_Some (transparent_matrix q tag a.1) →
  b.2 = tag → is_Some (transparent_matrix q tag b.1) →
  TransparentModelComparator q nearPlane a b
  = Some (flt (distance_key q nearPlane a) (distance_key q nearPlane b)).
Proof.
  intros Ha [ma Hma] Hb [mb Hmb].
  unfold TransparentModelComparator, distance_key, own_distance.
  rewrite Ha, Hb, Hma, Hmb. done.
Qed.

Lemma own_distance_same_store q nearPlane tag (a : Z * bool) :
  a.2 = tag → is_Some (transparent_matrix q tag a.1) →
  own_distance q nearPlane a = Some (distance_key q nearPlane a).
Proof.
  intros Ha [ma Hma]. unfold distance_key, own_distance. by rewrite Ha, Hma.
Qed.

Lemma comparisons_in_range_same_store q nearPlane :
  same_store q → comparisons_in_range q nearPlane = true.
Proof.
  intros [tag Hall]. rewrite Forall_forall in Hall.
  unfold comparisons_in_range.
  apply forallb_forall. intros a Ha. apply list_elem_of_In in Ha.
  apply forallb_forall. intros b Hb. apply list_elem_of_In in Hb.
  apply bool_decide_eq_true.
  destruct (Hall a Ha) as [Hta Hma]. destruct (Hall b Hb) as [Htb Hmb].
  by rewrite (comparator_same_store q nearPlane tag a b).
Qed.

(** On a queue whose entries all read the same store, [Sort] is defined and
    leaves a permutation of the index list in ascending order of distance;
    nothing else of the queue changes. *)
Lemma Sort_same_store camera q :
  same_store q →
  ∃ l', Sort camera q = Some (with_index_list l' q) ∧
        visibleTransparentsModels q ≡ₚ l' ∧
        ascending_by_own_distance q (Camera_nearPlane camera) l' ∧
        StronglySorted (λ a b, (distance_key q (Camera_nearPlane camera) a
                                ≤ distance_key q (Camera_nearPlane camera) b)%Qc) l'.
Proof.
  intros Hsame. pose proof Hsame as [tag Hall]. rewrite Forall_forall in Hall.
  set (nearPlane := Camera_nearPlane camera).
  set (comp := λ a b, default false (TransparentModelComparator q nearPlane a b)).
  set (l := visibleTransparentsModels q) in *.
  assert (∀ a b, a ∈ l → b ∈ l →
            comp a b = flt (distance_key q nearPlane a) (distance_key q nearPlane b))
    as Hcomp.
  { intros a b Ha Hb. unfold comp.
    destruct (Hall a Ha) as [Hta Hma]. destruct (Hall b Hb) as [Htb Hmb].
    by rewrite (comparator_same_store q nearPlane tag a b). }
  pose proof (key_comparator_strict_weak comp _ l Hcomp) as Hswo.
  pose proof (std_sort_permutation comp l Hswo) as Hperm.
  pose proof (std_sort_sorted comp l Hswo) as Hsorted.
  exists (std_sort comp l).
  assert (StronglySorted
            (λ a b, (distance_key q nearPlane a ≤ distance_key q nearPlane b)%Qc)
            (std_sort comp l)) as Hkeys.
  { eapply StronglySorted_weaken; [|exact Hsorted].
    intros a b Ha Hb. simpl. rewrite <- Hperm in Ha, Hb.
    rewrite (Hcomp b a) by done. unfold flt.
    rewrite bool_decide_eq_false. apply Qcnot_lt_le. }
  split; [|split; [exact Hperm|split; [split|exact Hkeys]]].
  - unfold Sort. fold nearPlane.
    by rewrite (comparisons_in_range_same_store q nearPlane Hsame), orb_true_r.
  - eapply StronglySorted_weaken; [|exact Hkeys].
    intros a b Ha Hb Hle. rewrite <- Hperm in Ha, Hb.
    destruct (Hall a Ha) as [Hta Hma]. destruct (Hall b Hb) as [Htb Hmb].
    exists (distance_key q nearPlane a), (distance_key q nearPlane b).
    by rewrite (own_distance_same_store q nearPlane tag a),
      (own_distance_same_store q nearPlane tag b).
  - rewrite Forall_forall. intros a Ha. rewrite <- Hperm in Ha.
    destruct (Hall a Ha) as [Hta Hma].
    by rewrite (own_distance_same_store q nearPlane tag a).
Qed.

Lemma same_store_with_index_list q l :
  visibleTransparentsModels q ≡ₚ l → same_store q →
  same_store (with_index_list l q).
Proof.
  intros Hperm [tag Hall]. exists tag. simpl.
  rewrite Forall_forall in Hall |- *. intros e He. rewrite <- Hperm in He.
  apply (Hall e He).
Qed.
End SortFacts.

(** C3, as amended: on a queue whose listed entries all read the same
    store, sorting gives a permutation of the index list, and sorting again
    gives a permutation with the same distances in the same places; it gives
    the same list when no two listed entries have the same distance. *)
Theorem Sort_twice `{Services} `{StdSort} (camera : NzCamera)
    (q : NzForwardRenderQueue) :
  same_store q →
  ∃ l1 l2,
    Sort camera q = Some (with_index_list l1 q) ∧
    Sort camera (with_index_list l1 q) = Some (with_index_list l2 q) ∧
    visibleTransparentsModels q ≡ₚ l1 ∧
    l1 ≡ₚ l2 ∧
    own_distance q (Camera_nearPlane camera) <$> l2
      = own_distance q (Camera_nearPlane camera) <$> l1 ∧
    (NoDup (own_distance q (Camera_nearPlane camera)
              <$> visibleTransparentsModels q) →
     l2 = l1).
Proof.
  intros Hsame.
  destruct (Sort_same_store camera q Hsame) as (l1 & Hsort1 & Hperm1 & Hasc1 & Hkeys1).
  pose proof (same_store_with_index_list q l1 Hperm1 Hsame) as Hsame1.
  destruct (Sort_same_store camera _ Hsame1) as (l2 & Hsort2 & Hperm2 & Hasc2 & Hkeys2).
  simpl in Hperm2.
  exists l1, l2. split; [exact Hsort1|]. split; [exact Hsort2|].
  split; [exact Hperm1|]. split; [exact Hperm2|].
  set (nearPlane := Camera_nearPlane camera) in *.
  assert (distance_key q nearPlane <$> l2 = distance_key q nearPlane <$> l1) as Hsamekeys.
  { apply (StronglySorted_unique Qcle).
    - eapply StronglySorted_fmap; [|exact Hkeys2]. done.
    - eapply StronglySorted_fmap; [|exact Hkeys1]. done.
    - by rewrite Hperm2. }
  assert (∀ l, Forall (λ e, is_Some (own_distance q nearPlane e)) l →
               own_distance q nearPlane <$> l
               = Some <$> (distance_key q nearPlane <$> l)) as Hown.
  { intros l Hl. rewrite <- list_fmap_compose. apply Forall_fmap_ext_1.
    eapply Forall_impl; [exact Hl|]. intros e [x Hx]. simpl.
    unfold distance_key. by rewrite Hx. }
  assert (own_distance q nearPlane <$> l2 = own_distance q nearPlane <$> l1)
    as Hsameown.
  { rewrite (Hown l1) by apply Hasc1. rewrite (Hown l2) by apply Hasc2.
    by rewrite Hsamekeys. }
  split; [exact Hsameown|].
  intros Hnd. symmetry.
  apply (same_keys_same_list (own_distance q nearPlane)); [done|done|].
  by rewrite <- Hperm1.
Qed.

(** Three static records at heights 30, 10 and 20, sorted twice by a stable
    [std::sort]. *)
Lemma Sort_twice_witness :
  ∃ l1 l2,
    @Sort translation_world stable_std_sort (fz 0) three_queue
      = Some (with_index_list l1 three_queue) ∧
    @Sort translation_world stable_std_sort (fz 0) (with_index_list l1 three_queue)
      = Some (with_index_list l2 three_queue) ∧
    visibleTransparentsModels three_queue ≡ₚ l1 ∧
    l1 ≡ₚ l2 ∧
    own_distance three_queue (fz 0) <$> l2 = own_distance three_queue (fz 0) <$> l1 ∧
    (NoDup (own_distance three_queue (fz 0)
              <$> visibleTransparentsModels three_queue) →
     l2 = l1).
Proof.
  apply (@Sort_twice translation_world stable_std_sort (fz 0) three_queue).
  exists true. repeat constructor; by eexists.
Defined.

(** C3, as stated, fails on two records at the same distance: a [std::sort]
    that leaves equivalent entries in the reverse order turns the list
    around at every call. *)
Lemma Sort_twice_reorders_ties :
  ¬ (∀ (S : Services) (T : StdSort) (camera : NzCamera)
       (q q1 q2 : NzForwardRenderQueue),
       Sort camera q = Some q1 → Sort camera q1 = Some q2 →
       visibleTransparentsModels q2 = visibleTransparentsModels q1).
Proof.
  intros Hclaim.
  assert (@Sort translation_world reversing_std_sort (fz 0) tied_queue
          = Some (with_index_list [(1, true); (0, true)] tied_queue)) as H1
    by reflexivity.
  assert (@Sort translation_world reversing_std_sort (fz 0)
            (with_index_list [(1, true); (0, true)] tied_queue)
          = Some (with_index_list [(0, true); (1, true)] tied_queue)) as H2
    by reflexivity.
  specialize (Hclaim translation_world reversing_std_sort (fz 0) _ _ _ H1 H2).
  discriminate Hclaim.
Qed.

(** The comparator never looks at the tag of its second argument. *)
Lemma TransparentModelComparator_ignores_second_tag `{Services}
    (q : NzForwardRenderQueue) (nearPlane : Planef) (index1 : Z * bool)
    (i2 : Z) (tag tag' : bool) :
  TransparentModelComparator q nearPlane index1 (i2, tag)
  = TransparentModelComparator q nearPlane index1 (i2, tag').
Proof. reflexivity. Qed.

(** ** What a frame leaves in the queue *)

Section FrameFacts.
Context `{Services} (heap : Heap) (NAZARA_DEBUG : bool).

Lemma to_uint_small (z : Z) : 0 ≤ z < 2 ^ 32 → to_uint z = z.
Proof. intros Hz. unfold to_uint. by apply Z.mod_small. Qed.

Lemma AddModel_subMesh_length model i st :
  (length (transparentStaticModels st.1)
   ≤ length (transparentStaticModels (AddModel_subMesh heap model i st).1))%nat.
Proof.
  destruct st as [q errors]. unfold AddModel_subMesh.
  repeat case_match; simpl; rewrite ?length_app; simpl; lia.
Qed.

Lemma AddModel_subMesh_static model i st :
  transparents_static st.1 →
  Z.of_nat (length (transparentStaticModels (AddModel_subMesh heap model i st).1))
    ≤ 2 ^ 32 →
  transparents_static (AddModel_subMesh heap model i st).1.
Proof.
  destruct st as [q errors]. unfold AddModel_subMesh, transparents_static.
  repeat case_match; simpl; try done.
  rewrite length_app. simpl. intros Hq Hlen.
  apply Forall_app. split.
  - eapply Forall_impl; [exact Hq|]. simpl. intros e [? ?]. split; [done|lia].
  - constructor; [|constructor]. simpl. split; [done|].
    rewrite to_uint_small by lia. lia.
Qed.

Lemma AddModel_subMesh_ordered model i st :
  queue_ordered heap st.1 → queue_ordered heap (AddModel_subMesh heap model i st).1.
Proof.
  destruct st as [q errors]. unfold AddModel_subMesh.
  repeat case_match; simpl; try done.
  intros Hq. by eapply (push_opaque_ordered heap _ _ _ q); [reflexivity|].
Qed.

Lemma AddModel_subMesh_skeletal model i st :
  transparentSkeletalModels (AddModel_subMesh heap model i st).1
  = transparentSkeletalModels st.1.
Proof.
  destruct st as [q errors]. unfold AddModel_subMesh.
  by repeat case_match.
Qed.

Lemma AddModel_loop_length model (indices : list nat) st :
  (length (transparentStaticModels st.1)
   ≤ length (transparentStaticModels
               (foldl (λ st i, AddModel_subMesh heap model i st) st indices).1))%nat.
Proof.
  revert st. induction indices as [|i rest IH]; intros st; simpl; [done|].
  etrans; [apply (AddModel_subMesh_length model i)|apply IH].
Qed.

Lemma AddModel_loop_invariant model (indices : list nat) st :
  let st' := foldl (λ st i, AddModel_subMesh heap model i st) st indices in
  transparents_static st.1 →
  queue_ordered heap st.1 →
  Z.of_nat (length (transparentStaticModels st'.1)) ≤ 2 ^ 32 →
  transparents_static st'.1 ∧ queue_ordered heap st'.1 ∧
  transparentSkeletalModels st'.1 = transparentSkeletalModels st.1.
Proof.
  revert st. induction indices as [|i rest IH]; intros st; simpl; [done|].
  intros Hstatic Hordered Hlen.
  destruct (IH (AddModel_subMesh heap model i st)) as (? & ? & Hskel).
  - apply AddModel_subMesh_static; [done|].
    pose proof (AddModel_loop_length model rest (AddModel_subMesh heap model i st)).
    simpl in *. lia.
  - by apply AddModel_subMesh_ordered.
  - done.
  - split; [done|]. split; [done|].
    by rewrite Hskel, AddModel_subMesh_skeletal.
Qed.

Lemma AddModel_length model q :
  (length (transparentStaticModels q)
   ≤ length (transparentStaticModels (AddModel heap model q).1))%nat.
Proof.
  unfold AddModel. repeat case_match; try done.
  apply (AddModel_loop_length model _ (q, [])).
Qed.

Lemma submit_length q s :
  (length (transparentStaticModels q)
   ≤ length (transparentStaticModels (submit heap NAZARA_DEBUG q s)))%nat.
Proof.
  destruct s; simpl.
  - unfold AddLight. by repeat case_match.
  - apply AddModel_length.
  - unfold AddDrawable. by repeat case_match.
Qed.

Lemma submit_invariant q s :
  transparents_static q → queue_ordered heap q →
  Z.of_nat (length (transparentStaticModels (submit heap NAZARA_DEBUG q s))) ≤ 2 ^ 32 →
  transparents_static (submit heap NAZARA_DEBUG q s) ∧
  queue_ordered heap (submit heap NAZARA_DEBUG q s) ∧
  transparentSkeletalModels (submit heap NAZARA_DEBUG q s)
  = transparentSkeletalModels q.
Proof.
  intros Hstatic Hordered. destruct s; simpl.
  - unfold AddLight. by repeat case_match.
  - unfold AddModel. repeat case_match; try done.
    by apply (AddModel_loop_invariant model _ (q, [])).
  - unfold AddDrawable. by repeat case_match.
Qed.

Lemma submissions_length q (submissions : list Submission) :
  (length (transparentStaticModels q)
   ≤ length (transparentStaticModels
               (foldl (submit heap NAZARA_DEBUG) q submissions)))%nat.
Proof.
  revert q. induction submissions as [|s rest IH]; intros q; simpl; [done|].
  etrans; [apply (submit_length q s)|apply IH].
Qed.

Lemma submissions_invariant q (submissions : list Submission) :
  let q' := foldl (submit heap NAZARA_DEBUG) q submissions in
  transparents_static q → queue_ordered heap q →
  Z.of_nat (length (transparentStaticModels q')) ≤ 2 ^ 32 →
  transparents_static q' ∧ queue_ordered heap q' ∧
  transparentSkeletalModels q' = transparentSkeletalModels q.
Proof.
  revert q. induction submissions as [|s rest IH]; intros q; simpl; [done|].
  intros Hstatic Hordered Hlen.
  destruct (submit_invariant q s Hstatic Hordered) as (? & ? & Hskel).
  { pose proof (submissions_length (submit heap NAZARA_DEBUG q s) rest). lia. }
  destruct (IH (submit heap NAZARA_DEBUG q s)) as (? & ? & Hskel'); try done.
  split; [done|]. split; [done|]. by rewrite Hskel', Hskel.
Qed.

Lemma transparents_static_same_store q : transparents_static q → same_store q.
Proof.
  intros Hq. exists true. eapply Forall_impl; [exact Hq|]. simpl.
  intros e [Htag Hrange]. split; [done|].
  unfold transparent_matrix. rewrite fmap_is_Some.
  apply lookup_lt_is_Some. lia.
Qed.

(** After a frame that holds at most 2^32 transparent records, every listed
    entry is a valid static entry, the opaque grouping is two levels of
    ordered maps, and there is no skeletal record. *)
Lemma frame_invariant q (submissions : list Submission) :
  let q' := frame heap NAZARA_DEBUG q submissions in
  Z.of_nat (length (transparentStaticModels q')) ≤ 2 ^ 32 →
  transparents_static q' ∧ queue_ordered heap q' ∧
  transparentSkeletalModels q' = [].
Proof.
  intros q' Hlen. unfold q', frame in *.
  apply (submissions_invariant (Clear q) submissions); [| |done].
  - constructor.
  - split; constructor.
Qed.
End FrameFacts.



(** The mesh comparators as written are strict total orders on mesh
    addresses: the static one by vertex-buffer storage, then address; the
    skeletal one by address. *)
Theorem mesh_comparators_strict_total_orders `{Services} (heap : Heap) :
  strict_total_order (StaticMeshComparator heap) ∧
  strict_total_order (SkeletalMeshComparator heap) ∧
  (∀ subMesh1 subMesh2,
     StaticMeshComparator heap subMesh1 subMesh2 =
     if VertexBuffer_GetBuffer heap (GetVertexBuffer heap subMesh1)
        =? VertexBuffer_GetBuffer heap (GetVertexBuffer heap subMesh2)
     then subMesh1 <? subMesh2
     else VertexBuffer_GetBuffer heap (GetVertexBuffer heap subMesh1)
          <? VertexBuffer_GetBuffer heap (GetVertexBuffer heap subMesh2)) ∧
  (∀ subMesh1 subMesh2,
     SkeletalMeshComparator heap subMesh1 subMesh2 = (subMesh1 <? subMesh2)).
Proof.
  split; [apply StaticMeshComparator_strict_total_order|].
  split; [apply SkeletalMeshComparator_strict_total_order|].
  split; [apply StaticMeshComparator_unfold|apply SkeletalMeshComparator_unfold].
Qed.

(** After a frame that holds at most 2^32 transparent records, every bucket
    of the opaque grouping that exists is the only one under its material
    and mesh, and the skeletal store is empty. *)
Theorem frame_groups_once `{Services} (heap : Heap) (NAZARA_DEBUG : bool)
    (q : NzForwardRenderQueue) (submissions : list Submission)
    (material mesh : ptr) :
  Z.of_nat (length (transparentStaticModels
                      (frame heap NAZARA_DEBUG q submissions))) ≤ 2 ^ 32 →
  transparentSkeletalModels (frame heap NAZARA_DEBUG q submissions) = [] ∧
  (is_Some (bucket heap (frame heap NAZARA_DEBUG q submissions) material mesh) →
   bucket_count (frame heap NAZARA_DEBUG q submissions) material mesh = 1%nat).
Proof.
  intros Hlen.
  destruct (frame_invariant heap NAZARA_DEBUG q submissions Hlen) as (_ & Hord & Hskel).
  split; [exact Hskel|]. intros [transforms Hb].
  by apply (bucket_count_one heap _ material mesh transforms).
Qed.

Lemma frame_groups_once_witness :
  bucket_count
    (frame digit_heap false (mkQueue _ [] [] [] [] [] [] [])
       [Submit_model 112340; Submit_light 51; Submit_model 212340])
    340 12 = 1%nat.
Proof.
  refine (proj2 (frame_groups_once digit_heap false
                   (mkQueue _ [] [] [] [] [] [] [])
                   [Submit_model 112340; Submit_light 51; Submit_model 212340]
                   340 12 _) _).
  - vm_compute. congruence.
  - vm_compute. by eexists.
Defined.

(** ** What the loop of [AddModel] does, submesh by submesh *)

Section AddModelFacts.
Context `{Services} (heap : Heap) (NAZARA_DEBUG : bool).

(** A property that every turn of the loop keeps is kept by [AddModel]. *)
Lemma AddModel_preserves (P : NzForwardRenderQueue → Prop) model q :
  P q →
  (∀ i st, P st.1 → P (AddModel_subMesh heap model i st).1) →
  P (AddModel heap model q).1.
Proof.
  intros Hq Hstep. unfold AddModel. repeat case_match; try done.
  change q with (q, @nil Error).1 in Hq. revert Hq.
  generalize (q, @nil Error).
  induction (seq 0 (GetSubMeshCount heap (GetMesh heap model))) as [|i rest IH];
    intros st Hst; simpl; [done|].
  apply IH, Hstep, Hst.
Qed.

Lemma AddModel_keeps_lists model q :
  directionnalLights (AddModel heap model q).1 = directionnalLights q ∧
  visibleLights (AddModel heap model q).1 = visibleLights q ∧
  otherDrawables (AddModel heap model q).1 = otherDrawables q.
Proof.
  apply (AddModel_preserves
           (λ q', directionnalLights q' = directionnalLights q ∧
                  visibleLights q' = visibleLights q ∧
                  otherDrawables q' = otherDrawables q)); [done|].
  intros i [q' errors]. unfold AddModel_subMesh. by repeat case_match.
Qed.

Lemma submissions_lists q (submissions : list Submission) :
  let q' := foldl (submit heap NAZARA_DEBUG) q submissions in
  directionnalLights q'
    = directionnalLights q ++ lights_of heap is_directional submissions ∧
  visibleLights q'
    = visibleLights q ++ lights_of heap is_positional submissions ∧
  otherDrawables q' = otherDrawables q ++ drawables_of submissions.
Proof.
  revert q. induction submissions as [|s rest IH]; intros q; simpl.
  { by rewrite !app_nil_r. }
  destruct (IH (submit heap NAZARA_DEBUG q s)) as (-> & -> & ->).
  destruct s as [light|model|drawable]; simpl.
  - unfold AddLight, is_directional, is_positional, non_null.
    unfold nzLightType_Directional, nzLightType_Point, nzLightType_Spot.
    destruct (Z.eqb_spec light nullptr); simpl; [done|].
    generalize (GetLightType heap light). intros t.
    destruct (Z.eqb_spec t 0), (Z.eqb_spec t 1), (Z.eqb_spec t 2);
      simpl; try lia; rewrite <- ?app_assoc; try done.
    by destruct NAZARA_DEBUG.
  - by destruct (AddModel_keeps_lists model q) as (-> & -> & ->).
  - unfold AddDrawable, non_null.
    destruct (Z.eqb_spec drawable nullptr); simpl; [done|].
    by rewrite <- !app_assoc.
Qed.
End AddModelFacts.

(** In a frame, the directional lights of the queue are the directional
    lights submitted, the visible lights the point and spot lights submitted,
    and the other drawables the drawables submitted, null pointers left out,
    each list in submission order; models and lights of another type leave
    the three lists alone. *)
Theorem frame_lists_in_submission_order `{Services} (heap : Heap)
    (NAZARA_DEBUG : bool) (q : NzForwardRenderQueue)
    (submissions : list Submission) :
  directionnalLights (frame heap NAZARA_DEBUG q submissions)
    = lights_of heap is_directional submissions ∧
  visibleLights (frame heap NAZARA_DEBUG q submissions)
    = lights_of heap is_positional submissions ∧
  otherDrawables (frame heap NAZARA_DEBUG q submissions)
    = drawables_of submissions.
Proof.
  exact (submissions_lists heap NAZARA_DEBUG (Clear q) submissions).
Qed.

Section AddModelEffect.
Context `{Services} (heap : Heap).

Lemma bucket_sizes_subscript mesh T (container : BatchedMeshContainer) :
  bucket_sizes (map_subscript (StaticMeshComparator heap) mesh []
                  (λ transforms, transforms ++ [T]) container)
  = S (bucket_sizes container).
Proof.
  unfold bucket_sizes.
  induction container as [|[k v] rest IH]; csimpl; [done|].
  repeat case_match; csimpl in *; rewrite ?length_app; simpl; lia.
Qed.

#[local] Arguments bucket_sizes : simpl never.

Lemma total_transforms_push material mesh T q q' :
  visibleModels q' = push_opaque heap material mesh T (visibleModels q) →
  total_transforms q' = S (total_transforms q).
Proof.
  unfold total_transforms, push_opaque. intros ->.
  induction (visibleModels q) as [|[k v] rest IH]; csimpl.
  - done.
  - repeat case_match; csimpl in *; rewrite ?bucket_sizes_subscript;
      unfold bucket_sizes in *; csimpl in *; first [reflexivity | lia].
Qed.

Lemma static_indices_cons first n :
  static_indices first (S n)
  = (to_uint (Z.of_nat first), true) :: static_indices (S first) n.
Proof. done. Qed.

Lemma AddModel_loop_effect model (indices : list nat) st :
  let st' := foldl (λ st i, AddModel_subMesh heap model i st) st indices in
  st'.2 = st.2 ++ replicate (length (List.filter (is_skeletal heap model) indices))
                    (Error_text "Skeletal mesh not supported yet, sorry") ∧
  transparentStaticModels st'.1
    = transparentStaticModels st.1
      ++ (subMesh_record heap model <$> List.filter (is_blended heap model) indices) ∧
  visibleTransparentsModels st'.1
    = visibleTransparentsModels st.1
      ++ static_indices (length (transparentStaticModels st.1))
           (length (List.filter (is_blended heap model) indices)) ∧
  transparentSkeletalModels st'.1 = transparentSkeletalModels st.1 ∧
  (total_transforms st'.1
   = total_transforms st.1 + length (List.filter (is_opaque heap model) indices))%nat.
Proof.
  revert st. induction indices as [|i rest IH]; intros st; simpl.
  { rewrite !app_nil_r. repeat split; first [done | lia]. }
  destruct (IH (AddModel_subMesh heap model i st)) as (-> & -> & -> & -> & ->).
  clear IH. destruct st as [q errors].
  unfold AddModel_subMesh, is_blended, is_opaque, is_static, is_skeletal,
    subMesh_record, subMesh_animation, subMesh_material.
  destruct (GetAnimationType heap (GetSubMesh heap (GetMesh heap model) i)
            =? nzAnimationType_Skeletal); simpl.
  { rewrite <- app_assoc. repeat split; first [done | lia]. }
  destruct (GetAnimationType heap (GetSubMesh heap (GetMesh heap model) i)
            =? nzAnimationType_Static); simpl; [|repeat split; first [done | lia]].
  destruct (IsAlphaBlendingEnabled heap _); simpl.
  - rewrite !length_app, Nat.add_1_r, <- !app_assoc. simpl.
    repeat split; first [done | lia].
  - repeat split; try done.
    erewrite (total_transforms_push _ _ _ q); [lia|done].
Qed.
End AddModelEffect.

Lemma static_indices_next_records (first n : nat) :
  Z.of_nat (first + n) < 2 ^ 32 → static_indices first n = next_records first n.
Proof.
  intros Hroom. unfold static_indices, next_records.
  replace (seq first n) with (seq (first + 0) n) by (by rewrite Nat.add_0_r).
  rewrite <- fmap_add_seq, <- list_fmap_compose.
  apply Forall_fmap_ext, Forall_forall. intros k Hk. simpl.
  apply elem_of_seq in Hk. rewrite to_uint_small; [done|lia].
Qed.

(** [AddModel] accounts for every submesh of a drawable model once, while
    the static store has room for the model's transparent records: a
    skeletal submesh gives one "not supported" error and nothing else, a static
    submesh with a blending material gives one record at the end of the static
    transparent store and one entry with the record's index at the end of the
    index list, in submesh order, and a static submesh with an opaque material
    adds one transform to the opaque grouping.  A model that is not drawable
    gives one error and leaves the queue as it was. *)
Theorem AddModel_accounts_for_every_subMesh `{Services} (heap : Heap)
    (model : ptr) (q : NzForwardRenderQueue) :
  non_null model = true →
  if IsDrawable heap model then
    store_has_room q (length (blended_records heap model)) →
    let q' := (AddModel heap model q).1 in
    let indices := subMesh_indices heap model in
    (AddModel heap model q).2
      = replicate (length (List.filter (is_skeletal heap model) indices))
          (Error_text "Skeletal mesh not supported yet, sorry") ∧
    transparentStaticModels q'
      = transparentStaticModels q ++ blended_records heap model ∧
    visibleTransparentsModels q'
      = visibleTransparentsModels q
        ++ next_records (length (transparentStaticModels q))
             (length (blended_records heap model)) ∧
    (∀ k record, blended_records heap model !! k = Some record →
       transparentStaticModels q' !! (length (transparentStaticModels q) + k)%nat
       = Some record) ∧
    transparentSkeletalModels q' = transparentSkeletalModels q ∧
    (total_transforms q'
     = total_transforms q + length (List.filter (is_opaque heap model) indices))%nat
  else AddModel heap model q = (q, [Error_text "Model is not drawable"]).
Proof.
  intros Hmodel. unfold AddModel. rewrite Hmodel.
  destruct (IsDrawable heap model); simpl; [|done].
  intros Hroom.
  destruct (AddModel_loop_effect heap model (subMesh_indices heap model) (q, []))
    as (Herrors & Hstore & Hlist & Hskeletal & Htotal).
  unfold subMesh_indices in *. simpl in *.
  fold (subMesh_indices heap model) in *. fold (blended_records heap model) in *.
  split; [exact Herrors|]. split; [exact Hstore|]. split; [|split].
  - rewrite Hlist. f_equal. unfold blended_records at 1. rewrite length_fmap.
    apply static_indices_next_records.
    unfold store_has_room, blended_records in Hroom.
    by rewrite length_fmap in Hroom.
  - intros k record Hk. rewrite Hstore.
    by rewrite lookup_app_r, Nat.add_comm, Nat.add_sub by lia.
  - by split.
Qed.

(** Model 7 of the three-part heap, submitted to a queue that holds three
    transparent records. *)
Lemma AddModel_accounts_for_every_subMesh_witness :
  (AddModel three_part_heap 7 three_queue).2
    = [Error_text "Skeletal mesh not supported yet, sorry"] ∧
  visibleTransparentsModels (AddModel three_part_heap 7 three_queue).1
    = [(0, true); (1, true); (2, true); (3, true)] ∧
  total_transforms (AddModel three_part_heap 7 three_queue).1 = 1%nat.
Proof.
  pose proof (AddModel_accounts_for_every_subMesh three_part_heap 7 three_queue
                eq_refl) as Heffect.
  change (IsDrawable three_part_heap 7) with true in Heffect.
  destruct Heffect as (Herrors & _ & Hlist & _ & _ & Htotal).
  { vm_compute. reflexivity. }
  split; [exact Herrors|]. split; [exact Hlist|exact Htotal].
Defined.

(** ** The index list of a frame *)

Section IndexListFacts.
Context `{Services} (heap : Heap) (NAZARA_DEBUG : bool).





End IndexListFacts.



(** ** Buckets between two clears *)

Section BucketFacts.
Context `{Services} (heap : Heap) (NAZARA_DEBUG : bool).

Lemma push_opaque_grows material0 mesh0 T q q' material mesh transforms :
  visibleModels q' = push_opaque heap material0 mesh0 T (visibleModels q) →
  bucket heap q material mesh = Some transforms →
  ∃ added, bucket heap q' material mesh = Some (transforms ++ added).
Proof.
  intros Hq' Hb.
  destruct (decide (material = material0 ∧ mesh = mesh0)) as [[-> ->]|Hne].
  { exists [T]. rewrite (push_opaque_bucket heap _ _ T (visibleModels q) q q')
      by done. by rewrite Hb. }
  exists []. rewrite app_nil_r, <- Hb. unfold bucket. rewrite Hq'.
  unfold push_opaque.
  destruct (decide (material = material0)) as [->|Hmat].
  - rewrite (map_find_subscript _ (MaterialComparator_strict_total_order heap)).
    simpl.
    rewrite (map_find_subscript_ne _ (StaticMeshComparator_strict_total_order heap))
      by (intros ->; by apply Hne).
    unfold bucket in Hb.
    by destruct (map_find (MaterialComparator heap) material0 (visibleModels q)).
  - by rewrite (map_find_subscript_ne _ (MaterialComparator_strict_total_order heap)).
Qed.

Lemma submit_grows q s material mesh transforms :
  bucket heap q material mesh = Some transforms →
  ∃ added, bucket heap (submit heap NAZARA_DEBUG q s) material mesh
           = Some (transforms ++ added).
Proof.
  intros Hb. destruct s as [light|model|drawable]; simpl.
  - exists []. rewrite app_nil_r, <- Hb. unfold AddLight, bucket.
    by repeat case_match.
  - apply (AddModel_preserves heap
             (λ q', ∃ added, bucket heap q' material mesh
                             = Some (transforms ++ added))).
    { exists []. by rewrite app_nil_r. }
    intros i [q' errors] [added Hadded]. simpl in Hadded.
    unfold AddModel_subMesh.
    repeat case_match; simpl; try (by exists added).
    destruct (push_opaque_grows
                (GetMaterial heap model
                   (GetMaterialIndex heap (GetSubMesh heap (GetMesh heap model) i)))
                (GetSubMesh heap (GetMesh heap model) i)
                (GetTransformMatrix heap model) q'
                (mkQueue _ (directionnalLights q') (otherDrawables q')
                   (visibleLights q')
                   (push_opaque heap
                      (GetMaterial heap model
                         (GetMaterialIndex heap
                            (GetSubMesh heap (GetMesh heap model) i)))
                      (GetSubMesh heap (GetMesh heap model) i)
                      (GetTransformMatrix heap model) (visibleModels q'))
                   (visibleTransparentsModels q') (transparentSkeletalModels q')
                   (transparentStaticModels q'))
                material mesh (transforms ++ added) eq_refl Hadded)
      as [added' Hadded'].
    exists (added ++ added'). by rewrite app_assoc.
  - exists []. rewrite app_nil_r, <- Hb. unfold AddDrawable, bucket.
    by repeat case_match.
Qed.
End BucketFacts.

(** Between two clears a bucket of the opaque grouping only grows at its
    end: whatever is submitted next, lights, drawables or models of any
    material and mesh, the transforms a bucket holds stay in it, in the same
    order, followed by what the submissions add to it. *)
Theorem buckets_only_grow `{Services} (heap : Heap) (NAZARA_DEBUG : bool)
    (q : NzForwardRenderQueue) (submissions : list Submission)
    (material mesh : ptr) (transforms : list Matrix4f) :
  bucket heap q material mesh = Some transforms →
  ∃ added,
    bucket heap (foldl (submit heap NAZARA_DEBUG) q submissions) material mesh
    = Some (transforms ++ added).
Proof.
  revert q transforms.
  induction submissions as [|s rest IH]; intros q transforms Hb; simpl.
  { exists []. by rewrite app_nil_r. }
  destruct (submit_grows heap NAZARA_DEBUG q s material mesh transforms Hb)
    as [added Hadded].
  destruct (IH _ _ Hadded) as [added' Hadded'].
  exists (added ++ added'). by rewrite app_assoc.
Qed.

Lemma buckets_only_grow_witness :
  ∃ added,
    bucket digit_heap
      (foldl (submit digit_heap false)
         (AddModel digit_heap 112340 (mkQueue _ [] [] [] [] [] [] [])).1
         [Submit_model 512220; Submit_light 51; Submit_model 212340])
      340 12
    = Some ([along_z 1] ++ added).
Proof.
  apply (buckets_only_grow digit_heap false
           (AddModel digit_heap 112340 (mkQueue _ [] [] [] [] [] [] [])).1
           [Submit_model 512220; Submit_light 51; Submit_model 212340]).
  reflexivity.
Defined.

(** ** Sorting nothing, or one entry *)

Section ShortSortFacts.
Context `{Services} `{StdSort}.

Lemma std_sort_nil {A : Type} (comp : A → A → bool) : std_sort comp [] = [].
Proof.
  apply Permutation_nil_r. symmetry. apply std_sort_permutation.
  repeat split; intros; by exfalso; eapply not_elem_of_nil.
Qed.

Lemma std_sort_singleton {A : Type} (comp : A → A → bool) (a : A) :
  comp a a = false → std_sort comp [a] = [a].
Proof.
  intros Ha. symmetry. apply Permutation_singleton_l, std_sort_permutation.
  split; [|split].
  - intros x Hx. apply list_elem_of_singleton in Hx. by subst.
  - intros x y z Hx Hy Hz. apply list_elem_of_singleton in Hx, Hy, Hz. subst.
    congruence.
  - intros x y z Hx Hy Hz. apply list_elem_of_singleton in Hx, Hy, Hz. by subst.
Qed.

Lemma TransparentModelComparator_self q nearPlane e :
  default false (TransparentModelComparator q nearPlane e e) = false.
Proof.
  unfold TransparentModelComparator.
  destruct (transparent_matrix q e.2 e.1); simpl; [|done].
  unfold flt. apply bool_decide_eq_false, Qcle_not_lt, Qcle_refl.
Qed.
End ShortSortFacts.

(** On a queue with no transparent entry, or with one, [Sort] returns and
    changes nothing, whatever the entry names: there is nothing to compare.
    This holds for every [std::sort]. *)
Theorem Sort_short_lists `{Services} `{StdSort} (camera : NzCamera)
    (q : NzForwardRenderQueue) :
  (length (visibleTransparentsModels q) ≤ 1)%nat → Sort camera q = Some q.
Proof.
  intros Hshort. unfold Sort.
  rewrite (proj2 (Nat.leb_le _ _) Hshort). simpl.
  destruct q as [dl od vl vm l sk st]. simpl in *. do 2 f_equal.
  destruct l as [|e [|e' l]]; [apply std_sort_nil| |simpl in Hshort; lia].
  apply std_sort_singleton, TransparentModelComparator_self.
Qed.

(** One entry that names a record, and one that names none. *)
Lemma Sort_short_lists_witness :
  @Sort translation_world reversing_std_sort (fz 0)
    (mkQueue translation_world [] [] [] [] [(0, true)] [] [record_at 3])
  = Some (mkQueue translation_world [] [] [] [] [(0, true)] [] [record_at 3]) ∧
  @Sort translation_world reversing_std_sort (fz 0)
    (mkQueue translation_world [] [] [] [] [(0, false)] [] [record_at 3])
  = Some (mkQueue translation_world [] [] [] [] [(0, false)] [] [record_at 3]).
Proof.
  split.
  - apply (@Sort_short_lists translation_world reversing_std_sort (fz 0)
             (mkQueue translation_world [] [] [] [] [(0, true)] []
                [record_at 3])).
    simpl. lia.
  - apply (@Sort_short_lists translation_world reversing_std_sort (fz 0)
             (mkQueue translation_world [] [] [] [] [(0, false)] []
                [record_at 3])).
    simpl. lia.
Defined.

(** ** Reading a light twice *)

Section ReaderFacts.
Context `{Services}.

Lemma ensure_derived_fields (l : NzLight) :
  ensure_derived l = with_node (node (ensure_derived l)) l.
Proof. unfold ensure_derived. destruct l. simpl. by case_match. Qed.

Lemma ensure_derived_type (l : NzLight) : m_type (ensure_derived l) = m_type l.
Proof. unfold ensure_derived. by case_match. Qed.

Lemma UpdateBoundingVolume_flag (l : NzLight) :
  m_boundingVolumeUpdated (UpdateBoundingVolume l) = true.
Proof. unfold UpdateBoundingVolume. by case_match. Qed.

Lemma UpdateBoundingVolume_type (l : NzLight) :
  m_type (UpdateBoundingVolume l) = m_type l.
Proof.
  destruct (Z.eq_dec (m_type l) nzLightType_Directional) as [Hd|Hd].
  { rewrite (UpdateBoundingVolume_directional l Hd). by case_match. }
  destruct (Z.eq_dec (m_type l) nzLightType_Point) as [Hp|Hp].
  { rewrite (UpdateBoundingVolume_point l Hp). cbv zeta. simpl.
    by rewrite ensure_derived_fields. }
  destruct (Z.eq_dec (m_type l) nzLightType_Spot) as [Hs|Hs].
  { rewrite (UpdateBoundingVolume_spot l Hs). cbv zeta. simpl.
    by rewrite ensure_derived_fields. }
  by rewrite UpdateBoundingVolume_other.
Qed.

Lemma GetBoundingVolume_twice (l : NzLight) :
  GetBoundingVolume (GetBoundingVolume l).2 = GetBoundingVolume l.
Proof.
  unfold GetBoundingVolume.
  destruct (m_boundingVolumeUpdated l) eqn:Hu; simpl.
  - by rewrite Hu.
  - by rewrite UpdateBoundingVolume_flag.
Qed.

Lemma FrustumCull_twice (frustum : Frustumf) (l : NzLight) :
  FrustumCull frustum (FrustumCull frustum l).1.2 = FrustumCull frustum l.
Proof.
  unfold FrustumCull.
  destruct (m_type l =? nzLightType_Directional) eqn:Hd; simpl.
  { by rewrite Hd. }
  destruct (m_type l =? nzLightType_Point) eqn:Hp; simpl.
  { by rewrite ensure_derived_idem, ensure_derived_type, Hd, Hp. }
  destruct (m_type l =? nzLightType_Spot) eqn:Hs; simpl.
  - destruct (m_boundingVolumeUpdated l) eqn:Hu; simpl.
    + by rewrite Hd, Hp, Hs, Hu.
    + by rewrite UpdateBoundingVolume_type, Hd, Hp, Hs,
        UpdateBoundingVolume_flag.
  - by rewrite Hd, Hp, Hs.
Qed.

Lemma Enable_light (program : NzShaderProgram) (lightUnit : Z) (l : NzLight) :
  (Enable program lightUnit l).2 = ensure_derived l.
Proof. reflexivity. Qed.

Lemma Enable_twice (program : NzShaderProgram) (lightUnit : Z) (l : NzLight) :
  Enable program lightUnit (Enable program lightUnit l).2
  = Enable program lightUnit l.
Proof.
  rewrite Enable_light. unfold Enable. rewrite ensure_derived_idem.
  do 2 f_equal. unfold ensure_derived. by case_match.
Qed.
End ReaderFacts.

(** The three operations that read a light through its caches,
    [GetBoundingVolume], [FrustumCull] and [Enable], bring the caches up to
    date at the first call: a second call on the light the first one leaves,
    with nothing changed in between, gives the same volume, the same answer
    and errors, the same uploads, and leaves the light as it is. *)
Theorem readers_are_repeatable `{Services} (frustum : Frustumf)
    (program : NzShaderProgram) (lightUnit : Z) (l : NzLight) :
  GetBoundingVolume (GetBoundingVolume l).2 = GetBoundingVolume l ∧
  FrustumCull frustum (FrustumCull frustum l).1.2 = FrustumCull frustum l ∧
  Enable program lightUnit (Enable program lightUnit l).2
  = Enable program lightUnit l.
Proof.
  split; [apply GetBoundingVolume_twice|].
  split; [apply FrustumCull_twice|apply Enable_twice].
Qed.

(** ** The locations of a slot *)

Section SlotFacts.

Lemma to_int_mod (z : Z) : to_int z mod 2 ^ 32 = z mod 2 ^ 32.
Proof. unfold to_int. rewrite Zminus_mod_idemp_l. f_equal. lia. Qed.

Lemma to_int_congr (a b : Z) : a mod 2 ^ 32 = b mod 2 ^ 32 → to_int a = to_int b.
Proof.
  intros Hab. unfold to_int. f_equal.
  rewrite <- (Zplus_mod_idemp_l a), <- (Zplus_mod_idemp_l b). by rewrite Hab.
Qed.

Lemma to_int_small (z : Z) : int_range z → to_int z = z.
Proof. unfold int_range, to_int. intros Hz. rewrite Z.mod_small; lia. Qed.

Lemma slot_offset_mod (program : NzShaderProgram) (lightUnit : Z) :
  slot_offset program lightUnit mod 2 ^ 32
  = (lightUnit * (GetUniformLocation program "Lights[1].type"
                  - GetUniformLocation program "Lights[0].type")) mod 2 ^ 32.
Proof.
  unfold slot_offset. cbv zeta. rewrite to_int_mod. unfold to_uint.
  rewrite Z.mod_mod by lia. rewrite to_int_mod. apply Zmult_mod_idemp_r.
Qed.

Lemma slot_location_mod (program : NzShaderProgram) (lightUnit location : Z) :
  0 < lightUnit →
  slot_location program lightUnit location
  = to_int (location
            + lightUnit * (GetUniformLocation program "Lights[1].type"
                           - GetUniformLocation program "Lights[0].type")).
Proof.
  intros Hunit. unfold slot_location.
  rewrite (proj2 (Z.ltb_lt 0 lightUnit)) by done.
  apply to_int_congr.
  by rewrite <- Zplus_mod_idemp_r, slot_offset_mod, Zplus_mod_idemp_r.
Qed.
End SlotFacts.

(** [Enable] finds the uniforms of slot [lightUnit] by arithmetic: those of
    slot 0 as the program names them, and from slot 1 on the location of the
    same uniform of slot 0 plus [lightUnit] times the distance between the
    [type] uniforms of slots 0 and 1, reduced to an [int].  The passage
    through [unsigned int] in the product loses nothing, and when the sum
    fits an [int] the location is the sum itself. *)
Theorem slot_locations_by_stride (program : NzShaderProgram)
    (lightUnit : Z) (name : string) :
  (lightUnit ≤ 0 →
     uniform_location program lightUnit name = GetUniformLocation program name) ∧
  (0 < lightUnit →
     uniform_location program lightUnit name
     = to_int (GetUniformLocation program name
               + lightUnit * (GetUniformLocation program "Lights[1].type"
                              - GetUniformLocation program "Lights[0].type"))) ∧
  (0 < lightUnit →
   int_range (GetUniformLocation program name
              + lightUnit * (GetUniformLocation program "Lights[1].type"
                             - GetUniformLocation program "Lights[0].type")) →
     uniform_location program lightUnit name
     = GetUniformLocation program name
       + lightUnit * (GetUniformLocation program "Lights[1].type"
                      - GetUniformLocation program "Lights[0].type")).
Proof.
  unfold uniform_location. split; [|split].
  - intros Hunit. unfold slot_location.
    by rewrite (proj2 (Z.ltb_ge 0 lightUnit)).
  - apply slot_location_mod.
  - intros Hunit Hrange. rewrite slot_location_mod by done.
    by apply to_int_small.
Qed.

Lemma slot_locations_by_stride_witness :
  uniform_location six_locations 3 "Lights[0].color" = 11 + 3 * (16 - 10).
Proof.
  apply (proj2 (proj2 (slot_locations_by_stride six_locations 3 "Lights[0].color"))).
  - lia.
  - vm_compute. split; congruence.
Defined.

(** ** Turning a slot off *)

(** [Disable] looks the [type] uniform of the slot up by its name, where
    [Enable] computes its location from those of slots 0 and 1.  The two
    agree on slot 0, and on slot 1 (given that the number of the slot is
    printed in decimal); wherever they agree, [Disable] after [Enable] leaves
    -1 in the [type] uniform of the slot and every other uniform as [Enable]
    left it. *)
Theorem Disable_after_Enable `{Services} (Number : Z → string)
    (program : NzShaderProgram) (lightUnit : Z) (l : NzLight)
    (uniforms : gmap Z UniformValue) :
  (Number 0 = "0" →
     GetUniformLocation program (type_uniform Number 0)
     = uniform_location program 0 "Lights[0].type") ∧
  (Number 1 = "1" →
   int_range (GetUniformLocation program "Lights[1].type") →
     GetUniformLocation program (type_uniform Number 1)
     = uniform_location program 1 "Lights[0].type") ∧
  (GetUniformLocation program (type_uniform Number lightUnit)
   = uniform_location program lightUnit "Lights[0].type" →
     run_sends (Disable Number program lightUnit)
       (run_sends (Enable program lightUnit l).1 uniforms)
       !! uniform_location program lightUnit "Lights[0].type"
     = Some (Uniform_Integer (-1)) ∧
     ∀ location,
       location ≠ uniform_location program lightUnit "Lights[0].type" →
       run_sends (Disable Number program lightUnit)
         (run_sends (Enable program lightUnit l).1 uniforms) !! location
       = run_sends (Enable program lightUnit l).1 uniforms !! location).
Proof.
  split; [|split].
  - intros HNumber. unfold type_uniform. by rewrite HNumber.
  - intros HNumber Hrange. unfold type_uniform. rewrite HNumber.
    change ("Lights[" +:+ "1" +:+ "].type") with "Lights[1].type".
    unfold uniform_location. rewrite slot_location_mod by done.
    replace (GetUniformLocation program "Lights[0].type"
             + 1 * (GetUniformLocation program "Lights[1].type"
                    - GetUniformLocation program "Lights[0].type"))
      with (GetUniformLocation program "Lights[1].type") by lia.
    by rewrite to_int_small.
  - intros Hsame. unfold Disable, run_sends at 1 3. simpl. rewrite Hsame.
    split; [apply lookup_insert_eq|].
    intros location Hne. by apply lookup_insert_ne.
Qed.

Lemma Disable_after_Enable_witness :
  run_sends (Disable decimal six_locations 1)
    (run_sends
       (Enable six_locations 1 (NzLight_new (node_at 0 0 0) nzLightType_Spot)).1 ∅)
    !! 16
  = Some (Uniform_Integer (-1)).
Proof.
  pose proof (Disable_after_Enable decimal six_locations 1
                (NzLight_new (node_at 0 0 0) nzLightType_Spot) ∅) as (_ & Hone & Hoff).
  specialize (Hone eq_refl).
  apply Hoff, Hone. vm_compute. split; congruence.
Defined.

(** ** A light whose node has moved *)

Section MovedLightFacts.
Context `{Services}.

Lemma Invalidate_read (l : NzLight) :
  GetBoundingVolume (Invalidate l)
  = (m_boundingVolume (UpdateBoundingVolume (Invalidate l)),
     UpdateBoundingVolume (Invalidate l)).
Proof. reflexivity. Qed.

Lemma Invalidate_consistent (l : NzLight) :
  shape_cache_consistent l → shape_cache_consistent (Invalidate l).
Proof. intros Hl. exact Hl. Qed.
End MovedLightFacts.

(** [Invalidate] is what the node calls when it has moved.  The next read
    of a point or spot light whose cached shape is null or consistent is then
    taken at the node's world position and rotation: the volume is the shape
    of the light placed there, the culling test of a point light is the
    sphere around the world position, that of a spot light the volume placed
    there, and the node's cache holds the world position afterwards. *)
Theorem Invalidate_then_read `{Services} (frustum : Frustumf) (l : NzLight) :
  shape_cache_consistent l →
  (m_type l = nzLightType_Point ∨ m_type l = nzLightType_Spot →
     Some (GetBoundingVolume (Invalidate l)).1
     = fresh_volume (m_type l) (m_radius l) (m_outerAngle l)
         (world_position (node l)) (world_rotation (node l)) ∧
     node (GetBoundingVolume (Invalidate l)).2 = UpdateDerived (node l)) ∧
  (m_type l = nzLightType_Point →
     FrustumCull frustum (Invalidate l)
     = (Frustumf_ContainsSphere frustum
          (mkSpheref (world_position (node l)) (m_radius l)),
        with_node (UpdateDerived (node l))
          (with_boundingVolumeUpdated false l), [])) ∧
  (m_type l = nzLightType_Spot →
     (FrustumCull frustum (Invalidate l)).1.1
     = Frustumf_ContainsVolume frustum
         (placed_volume
            (Matrix4f_Transform (world_position (node l)) (world_rotation (node l)))
            (pyramid_box (m_radius l) (m_outerAngle l)))).
Proof.
  intros Hl.
  destruct (UpdateBoundingVolume_consistent (Invalidate l)
              (Invalidate_consistent l Hl)) as (_ & _ & _ & Hfinite).
  split; [|split].
  - intros Ht. rewrite Invalidate_read. simpl.
    destruct (Hfinite Ht) as [Hnode Hvol]. split; [exact Hvol|].
    rewrite Hnode. reflexivity.
  - intros Ht. unfold FrustumCull.
    change (m_type (Invalidate l)) with (m_type l). rewrite Ht. reflexivity.
  - intros Ht. unfold FrustumCull.
    change (m_type (Invalidate l)) with (m_type l). rewrite Ht.
    change (nzLightType_Spot =? nzLightType_Directional) with false.
    change (nzLightType_Spot =? nzLightType_Point) with false.
    change (nzLightType_Spot =? nzLightType_Spot) with true.
    cbv iota.
    change (m_boundingVolumeUpdated (Invalidate l)) with false.
    change (negb false) with true. cbv iota. cbn [fst].
    destruct (Hfinite (or_intror Ht)) as [_ Hvol].
    change (m_type (Invalidate l)) with (m_type l) in Hvol.
    rewrite Ht in Hvol. injection Hvol as ->. reflexivity.
Qed.

(** A spot light of the example world, read at its place and then moved:
    after [Invalidate] the volume is the pyramid at the new place. *)
Lemma Invalidate_then_read_witness :
  Some (GetBoundingVolume
          (Invalidate
             (with_node (node_at 4 5 6)
                (GetBoundingVolume
                   (NzLight_new (node_at 1 2 3) nzLightType_Spot)).2))).1
  = Some (@placed_volume translation_world (mkVector3f (fz 4) (fz 5) (fz 6))
            (@pyramid_box translation_world (fz 5) (fz 45))).
Proof.
  refine (proj1 (proj1 (Invalidate_then_read (cube_frustum 0 1)
                          (with_node (node_at 4 5 6)
                             (GetBoundingVolume
                                (NzLight_new (node_at 1 2 3) nzLightType_Spot)).2)
                          _) (or_intror eq_refl))).
  right. right. right. repeat split.
Defined.

(** ** A light of no known type *)

(** A light whose type is none of the three is uploaded by [Enable] with
    its type, colour and factors only; recomputing its volume changes
    nothing but the validity flag, and a read gives the volume as stored. *)
Theorem light_of_unknown_type `{Services} (program : NzShaderProgram)
    (lightUnit : Z) (l : NzLight) :
  m_type l ≠ nzLightType_Directional → m_type l ≠ nzLightType_Point →
  m_type l ≠ nzLightType_Spot →
  Enable program lightUnit l
  = ([ (uniform_location program lightUnit "Lights[0].type",
        Uniform_Integer (m_type l));
       (uniform_location program lightUnit "Lights[0].color",
        Uniform_Color (m_color l));
       (uniform_location program lightUnit "Lights[0].factors",
        Uniform_Vector2 (mkVector2f (m_ambientFactor l) (m_diffuseFactor l))) ],
     ensure_derived l) ∧
  UpdateBoundingVolume l = with_boundingVolumeUpdated true l ∧
  (GetBoundingVolume l).1 = m_boundingVolume l.
Proof.
  intros Hd Hp Hs.
  pose proof (UpdateBoundingVolume_other l Hd Hp Hs) as Hupdate.
  split; [|split; [exact Hupdate|]].
  - unfold Enable. rewrite ensure_derived_type.
    apply Z.eqb_neq in Hd, Hp, Hs. by rewrite Hd, Hp, Hs.
  - unfold GetBoundingVolume. rewrite Hupdate. by case_match.
Qed.

Lemma light_of_unknown_type_witness :
  (Enable six_locations 1 (NzLight_new (node_at 0 0 0) 7)).1.*1 = [16; 17; 18].
Proof.
  rewrite (proj1 (light_of_unknown_type six_locations 1
                    (NzLight_new (node_at 0 0 0) 7) ltac:(done) ltac:(done)
                    ltac:(done))).
  reflexivity.
Defined.

(** ** A new light *)

(** A light as constructed, whatever its node and type: the properties the
    constructor gives it (an ambient factor of 0.2 for a directional light
    and 0 otherwise), no valid volume, and a first read of its volume that
    gives the infinite volume for a directional light, the box of half-extent
    5 at its position for a point light, and the pyramid of radius 5 and
    outer angle 45 at its position and rotation for a spot light. *)
Theorem new_light_first_read `{Services} (n : NzSceneNode) (type : nzLightType) :
  properties (NzLight_new n type)
  = mkProperties
      (if type =? nzLightType_Directional then Q2Qc (2 # 10) else f0)
      (Q2Qc (9 # 10)) Color_White f1 (Qc_of_Z 15) type (Qc_of_Z 45) (Qc_of_Z 5) ∧
  m_boundingVolumeUpdated (NzLight_new n type) = false ∧
  (type = nzLightType_Directional →
     extend (GetBoundingVolume (NzLight_new n type)).1 = nzExtend_Infinite) ∧
  (type = nzLightType_Point ∨ type = nzLightType_Spot →
     Some (GetBoundingVolume (NzLight_new n type)).1
     = fresh_volume type (Qc_of_Z 5) (Qc_of_Z 45)
         (if m_derivedUpdated n then m_derivedPosition n else world_position n)
         (if m_derivedUpdated n then m_derivedRotation n else world_rotation n)).
Proof.
  split; [done|]. split; [done|].
  destruct (UpdateBoundingVolume_consistent (NzLight_new n type)
              (NzLight_new_consistent n type)) as (_ & _ & Hdir & Hfinite).
  split.
  - intros Ht. by destruct (Hdir Ht) as (? & _).
  - intros Ht. by destruct (Hfinite Ht) as (_ & ?).
Qed.

Lemma new_light_first_read_witness :
  Some (GetBoundingVolume (NzLight_new (node_at 1 2 3) nzLightType_Point)).1
  = Some (@placed_volume translation_world (mkVector3f (fz 1) (fz 2) (fz 3))
            (symmetric_box (fz 5))).
Proof.
  exact (proj2 (proj2 (proj2 (new_light_first_read (node_at 1 2 3)
                                nzLightType_Point))) (or_introl eq_refl)).
Defined.

(** ** Sequences of setter calls *)

Section SetterFacts.
Context `{Services}.

Lemma last_written_snoc {A} (pick : Setter → option A) calls s start :
  last_written pick (calls ++ [s]) start
  = default (last_written pick calls start) (pick s).
Proof.
  unfold last_written. rewrite omap_app. simpl.
  destruct (pick s); simpl; [by rewrite last_snoc|by rewrite app_nil_r].
Qed.

End SetterFacts.

(** After any sequence of setter calls each property of a light has the
    value of the last call of its own setter, or the value it had when no
    call was for it; the node is untouched; the cached volume is null and
    marked stale when [SetRadius] or [SetOuterAngle] is among the calls, and
    is exactly as it was, flag included, when neither is. *)
Theorem setter_calls_last_write_wins `{Services} (l : NzLight)
    (calls : list Setter) :
  properties (foldl call l calls)
  = mkProperties
      (last_written (λ s, (written s).1.1.1.1.1.1.1) calls (GetAmbientFactor l))
      (last_written (λ s, (written s).1.1.1.1.1.1.2) calls (GetAttenuation l))
      (last_written (λ s, (written s).1.1.1.1.1.2) calls (GetColor l))
      (last_written (λ s, (written s).1.1.1.1.2) calls (GetDiffuseFactor l))
      (last_written (λ s, (written s).1.1.1.2) calls (GetInnerAngle l))
      (last_written (λ s, (written s).1.1.2) calls (GetLightType_of l))
      (last_written (λ s, (written s).1.2) calls (GetOuterAngle l))
      (last_written (λ s, (written s).2) calls (GetRadius l)) ∧
  node (foldl call l calls) = node l ∧
  (existsb invalidates calls = true →
     m_boundingVolumeUpdated (foldl call l calls) = false ∧
     BoundingVolumef_IsNull (m_boundingVolume (foldl call l calls)) = true) ∧
  (existsb invalidates calls = false →
     m_boundingVolumeUpdated (foldl call l calls) = m_boundingVolumeUpdated l ∧
     m_boundingVolume (foldl call l calls) = m_boundingVolume l).
Proof.
  induction calls as [|s calls IH] using rev_ind.
  { repeat split; done. }
  destruct IH as (Hprops & Hnode & Hyes & Hno).
  rewrite foldl_app, existsb_app, !last_written_snoc. simpl.
  injection Hprops as <- <- <- <- <- <- <- <-.
  destruct s; simpl; rewrite ?orb_false_r, ?orb_true_r;
    (split; [done|]); (split; [done|]); split; intros Hex; try done;
    first [by apply Hyes | by apply Hno].
Qed.


Lemma setter_calls_last_write_wins_witness :
  m_boundingVolumeUpdated
    (foldl call
       (GetBoundingVolume (NzLight_new (node_at 1 2 3) nzLightType_Spot)).2
       [@Set_Color translation_world 255; @Set_Radius translation_world (fz 7);
        @Set_LightType translation_world nzLightType_Point;
        @Set_Radius translation_world (fz 9)]) = false.
Proof.
  exact (proj1 (proj1 (proj2 (proj2 (setter_calls_last_write_wins
           (GetBoundingVolume (NzLight_new (node_at 1 2 3) nzLightType_Spot)).2
           [@Set_Color translation_world 255; @Set_Radius translation_world (fz 7);
            @Set_LightType translation_world nzLightType_Point;
            @Set_Radius translation_world (fz 9)]))) eq_refl)).
Defined.

(** ** The order and the shape of the opaque grouping *)

Section GroupingShape.
Context `{Services} (heap : Heap) (NAZARA_DEBUG : bool).

Lemma map_subscript_Forall {K V} (comp : K → K → bool) (P : K * V → Prop)
    (k : K) (dflt : V) (f : V → V) (m : list (K * V)) :
  P (k, f dflt) → (∀ k' v, P (k', v) → P (k', f v)) →
  Forall P m → Forall P (map_subscript comp k dflt f m).
Proof.
  intros Hnew Hupdate. induction 1 as [|[k' v] rest Hhead Hrest IH]; simpl.
  { by constructor. }
  repeat case_match; repeat constructor; auto.
Qed.

Lemma map_subscript_nonempty {K V} (comp : K → K → bool)
    (k : K) (dflt : V) (f : V → V) (m : list (K * V)) :
  map_subscript comp k dflt f m ≠ [].
Proof. destruct m as [|[k' v] rest]; simpl; [done|]. by repeat case_match. Qed.

Lemma StronglySorted_lookup {A} (R : relation A) (l : list A) i j x y :
  StronglySorted R l → (i < j)%nat → l !! i = Some x → l !! j = Some y → R x y.
Proof.
  intros Hl. revert i j. induction Hl as [|a l Hl IH Ha]; intros i j Hij Hi Hj.
  { done. }
  destruct j as [|j]; [lia|]. simpl in Hj. destruct i as [|i].
  - simpl in Hi. injection Hi as ->. rewrite Forall_forall in Ha.
    apply Ha. by eapply list_elem_of_lookup_2.
  - simpl in Hi. apply (IH i j); [lia|done..].
Qed.

Lemma push_opaque_tight material mesh T q q' :
  visibleModels q' = push_opaque heap material mesh T (visibleModels q) →
  grouping_tight q → grouping_tight q'.
Proof.
  unfold grouping_tight, push_opaque. intros ->.
  apply map_subscript_Forall; simpl.
  - split; [done|]. split; [done|]. by repeat constructor.
  - intros k' v (Hskeletal & _ & Hbuckets).
    split; [done|]. split; [apply map_subscript_nonempty|].
    apply map_subscript_Forall; simpl; [done| |done].
    intros _ transforms _. by destruct transforms.
Qed.

Lemma submissions_shape q (submissions : list Submission) :
  queue_ordered heap q ∧ grouping_tight q →
  queue_ordered heap (foldl (submit heap NAZARA_DEBUG) q submissions) ∧
  grouping_tight (foldl (submit heap NAZARA_DEBUG) q submissions).
Proof.
  revert q. induction submissions as [|s rest IH]; intros q Hq; simpl; [done|].
  apply IH. destruct s as [light|model|drawable]; simpl.
  - unfold AddLight. by repeat case_match.
  - apply (AddModel_preserves heap
             (λ q', queue_ordered heap q' ∧ grouping_tight q')); [done|].
    intros i [q' errors]. unfold AddModel_subMesh.
    repeat case_match; simpl; try done.
    intros [Hordered Htight]. split.
    + by eapply (push_opaque_ordered heap _ _ _ q'); [reflexivity|].
    + by eapply (push_opaque_tight _ _ _ q'); [reflexivity|].
  - unfold AddDrawable. by case_match.
Qed.
End GroupingShape.

(** What a frame leaves in the opaque grouping is laid out for drawing:
    the materials come in the strict order of [MaterialComparator], the
    meshes under each material in the strict order of
    [StaticMeshComparator], no entry has a skeletal bucket, and there is no
    material without a mesh and no mesh without a transform. *)
Theorem frame_grouping_shape `{Services} (heap : Heap) (NAZARA_DEBUG : bool)
    (q : NzForwardRenderQueue) (submissions : list Submission) :
  (∀ i j e1 e2, (i < j)%nat →
     visibleModels (frame heap NAZARA_DEBUG q submissions) !! i = Some e1 →
     visibleModels (frame heap NAZARA_DEBUG q submissions) !! j = Some e2 →
     MaterialComparator heap e1.1 e2.1 = true) ∧
  (∀ e i j b1 b2,
     e ∈ visibleModels (frame heap NAZARA_DEBUG q submissions) →
     (i < j)%nat → e.2.2 !! i = Some b1 → e.2.2 !! j = Some b2 →
     StaticMeshComparator heap b1.1 b2.1 = true) ∧
  grouping_tight (frame heap NAZARA_DEBUG q submissions).
Proof.
  destruct (submissions_shape heap NAZARA_DEBUG (Clear q) submissions)
    as [[Houter Hinner] Htight].
  { split; [split|]; constructor. }
  split; [|split; [|exact Htight]].
  - intros i j e1 e2 Hij Hi Hj.
    by apply (StronglySorted_lookup _ _ i j e1 e2 Houter).
  - intros e i j b1 b2 He Hij Hi Hj. rewrite Forall_forall in Hinner.
    by apply (StronglySorted_lookup _ _ i j b1 b2 (Hinner e He)).
Qed.

(** Two opaque materials of the example heap, 40 without a custom shader
    and 340 with one, submitted in that order: the one with the custom
    shader comes first. *)
Lemma frame_grouping_shape_witness :
  MaterialComparator digit_heap 340 40 = true.
Proof.
  exact (proj1 (frame_grouping_shape digit_heap false three_queue
                  [Submit_model 112040; Submit_model 212340])
           0%nat 1%nat (340, ([], [(12, [along_z 2])]))
           (40, ([], [(12, [along_z 1])])) ltac:(lia) eq_refl eq_refl).
Defined.

(** ** What the shader sees of an enabled light *)

Section UploadFacts.
Context `{Services}.

(** With pairwise distinct locations, each upload is what the program holds
    at its location afterwards. *)
Lemma run_sends_lookup (sends : list (Z * UniformValue))
    (uniforms : gmap Z UniformValue) (location : Z) (value : UniformValue) :
  NoDup sends.*1 → (location, value) ∈ sends →
  run_sends sends uniforms !! location = Some value.
Proof.
  revert uniforms.
  induction sends as [|[k w] rest IH]; intros uniforms Hdistinct Hin.
  { by apply elem_of_nil in Hin. }
  simpl in Hdistinct. apply NoDup_cons in Hdistinct as [Hfresh Hdistinct].
  apply elem_of_cons in Hin as [[= -> ->]|Hin].
  - change (run_sends ((k, w) :: rest) uniforms)
      with (run_sends rest (<[k:=w]> uniforms)).
    rewrite run_sends_frame by done. apply lookup_insert_eq.
  - by apply IH.
Qed.
End UploadFacts.

(** When the locations [Enable] uploads to are pairwise distinct, the
    program holds afterwards, in the slot: the type, the colour and the two
    factors of the light; for a directional light its world direction; for a
    point light its world position with the attenuation, and the inverse of
    the radius; for a spot light its world position with the attenuation, its
    world direction with the inverse of the radius, and the cosines of the
    inner and outer angles.  Position and direction are those of the node's
    cache when it is valid and the node's world pose when it is not. *)
Theorem Enable_uploads_values `{Services} (program : NzShaderProgram)
    (lightUnit : Z) (l : NzLight) (uniforms : gmap Z UniformValue) :
  NoDup (Enable program lightUnit l).1.*1 →
  (run_sends (Enable program lightUnit l).1 uniforms
     !! uniform_location program lightUnit "Lights[0].type"
   = Some (Uniform_Integer (m_type l)) ∧
   run_sends (Enable program lightUnit l).1 uniforms
     !! uniform_location program lightUnit "Lights[0].color"
   = Some (Uniform_Color (m_color l)) ∧
   run_sends (Enable program lightUnit l).1 uniforms
     !! uniform_location program lightUnit "Lights[0].factors"
   = Some (Uniform_Vector2 (mkVector2f (m_ambientFactor l) (m_diffuseFactor l)))) ∧
  (m_type l = nzLightType_Directional →
     run_sends (Enable program lightUnit l).1 uniforms
       !! uniform_location program lightUnit "Lights[0].parameters1"
     = Some (Uniform_Vector4
               (Vector4f_of_Vector3f
                  (Quaternionf_rotate (current_rotation l) Vector3f_Forward)))) ∧
  (m_type l = nzLightType_Point → m_radius l ≠ f0 →
     run_sends (Enable program lightUnit l).1 uniforms
       !! uniform_location program lightUnit "Lights[0].parameters1"
     = Some (Uniform_Vector4 (Vector4f_of (current_position l) (m_attenuation l))) ∧
     run_sends (Enable program lightUnit l).1 uniforms
       !! uniform_location program lightUnit "Lights[0].parameters2"
     = Some (Uniform_Vector4 (mkVector4f f0 f0 f0 (f1 / m_radius l)%Qc))) ∧
  (m_type l = nzLightType_Spot → m_radius l ≠ f0 →
     run_sends (Enable program lightUnit l).1 uniforms
       !! uniform_location program lightUnit "Lights[0].parameters1"
     = Some (Uniform_Vector4 (Vector4f_of (current_position l) (m_attenuation l))) ∧
     run_sends (Enable program lightUnit l).1 uniforms
       !! uniform_location program lightUnit "Lights[0].parameters2"
     = Some (Uniform_Vector4
               (Vector4f_of
                  (Quaternionf_rotate (current_rotation l) Vector3f_Forward)
                  (f1 / m_radius l)%Qc)) ∧
     run_sends (Enable program lightUnit l).1 uniforms
       !! uniform_location program lightUnit "Lights[0].parameters3"
     = Some (Uniform_Vector2 (mkVector2f (cos_degrees (m_innerAngle l))
                                         (cos_degrees (m_outerAngle l))))).
Proof.
  intros Hdistinct.
  assert (m_derivedPosition (node (ensure_derived l)) = current_position l)
    as Hposition by apply ensure_derived_position.
  assert (m_derivedRotation (node (ensure_derived l)) = current_rotation l)
    as Hrotation by apply ensure_derived_rotation.
  assert (∀ location value,
            (location, value) ∈ (Enable program lightUnit l).1 →
            run_sends (Enable program lightUnit l).1 uniforms !! location
            = Some value) as Hlookup.
  { intros location value. by apply run_sends_lookup. }
  clear Hdistinct. revert Hlookup. unfold Enable. cbv zeta.
  rewrite !ensure_derived_type, Hposition, Hrotation.
  replace (m_attenuation (ensure_derived l)) with (m_attenuation l)
    by (unfold ensure_derived; by case_match).
  replace (m_radius (ensure_derived l)) with (m_radius l)
    by (unfold ensure_derived; by case_match).
  replace (m_innerAngle (ensure_derived l)) with (m_innerAngle l)
    by (unfold ensure_derived; by case_match).
  replace (m_outerAngle (ensure_derived l)) with (m_outerAngle l)
    by (unfold ensure_derived; by case_match).
  unfold uniform_location. cbn [fst]. intros Hlookup.
  split; [|split; [|split]].
  - repeat split; apply Hlookup; rewrite elem_of_app, !elem_of_cons; tauto.
  - intros Ht. apply Hlookup. rewrite Ht.
    change (nzLightType_Directional =? nzLightType_Directional) with true.
    cbv iota. rewrite elem_of_app, !elem_of_cons. tauto.
  - intros Ht _. split; apply Hlookup; rewrite Ht;
      change (nzLightType_Point =? nzLightType_Directional) with false;
      change (nzLightType_Point =? nzLightType_Point) with true;
      cbv iota; rewrite elem_of_app, !elem_of_cons; tauto.
  - intros Ht _. repeat split; apply Hlookup; rewrite Ht;
      change (nzLightType_Spot =? nzLightType_Directional) with false;
      change (nzLightType_Spot =? nzLightType_Point) with false;
      change (nzLightType_Spot =? nzLightType_Spot) with true;
      cbv iota; rewrite elem_of_app, !elem_of_cons; tauto.
Qed.

(** A point light of the example world at (1, 2, 3), uploaded to slot 1:
    the first parameter of the slot holds its position and attenuation. *)
Lemma Enable_uploads_values_witness :
  run_sends
    (Enable six_locations 1 (NzLight_new (node_at 1 2 3) nzLightType_Point)).1 ∅
    !! 19
  = Some (Uniform_Vector4
            (Vector4f_of (mkVector3f (fz 1) (fz 2) (fz 3)) (Q2Qc (9 # 10)))).
Proof.
  refine (proj1 (proj1 (proj2 (proj2 (Enable_uploads_values six_locations 1
            (NzLight_new (node_at 1 2 3) nzLightType_Point) ∅ _))) eq_refl _)).
  - replace ((Enable six_locations 1
                (NzLight_new (node_at 1 2 3) nzLightType_Point)).1.*1)
      with [16; 17; 18; 19; 20] by reflexivity.
    repeat (apply NoDup_cons; split;
            [rewrite ?not_elem_of_cons; repeat split; try lia;
             apply not_elem_of_nil|]).
    apply NoDup_nil_2.
  - vm_compute. congruence.
Defined.

(** ** What a model adds to each bucket *)

Section BucketEffect.
Context `{Services} (heap : Heap).

Lemma extended_bucket_app (old : option (list Matrix4f)) (a b : list Matrix4f) :
  extended_bucket (extended_bucket old a) b = extended_bucket old (a ++ b).
Proof.
  destruct a as [|x a]; [done|]. destruct b as [|y b]; simpl.
  - by rewrite app_nil_r.
  - by rewrite <- app_assoc.
Qed.

Lemma push_opaque_bucket_other material0 mesh0 T q q' material mesh :
  visibleModels q' = push_opaque heap material0 mesh0 T (visibleModels q) →
  ¬ (material = material0 ∧ mesh = mesh0) →
  bucket heap q' material mesh = bucket heap q material mesh.
Proof.
  intros Hq' Hne. unfold bucket. rewrite Hq'. unfold push_opaque.
  destruct (decide (material = material0)) as [->|Hmat].
  - rewrite (map_find_subscript _ (MaterialComparator_strict_total_order heap)).
    simpl.
    rewrite (map_find_subscript_ne _ (StaticMeshComparator_strict_total_order heap))
      by (intros ->; by apply Hne).
    by destruct (map_find (MaterialComparator heap) material0 (visibleModels q)).
  - by rewrite (map_find_subscript_ne _ (MaterialComparator_strict_total_order heap)).
Qed.

(** One turn of the loop, seen from the bucket of [(material, mesh)]. *)
Lemma AddModel_subMesh_bucket model i st material mesh :
  bucket heap (AddModel_subMesh heap model i st).1 material mesh
  = extended_bucket (bucket heap st.1 material mesh)
      (if lands_in heap model material mesh i
       then [GetTransformMatrix heap model] else []).
Proof.
  destruct st as [q errors].
  unfold AddModel_subMesh, lands_in, is_opaque, is_static, subMesh_animation,
    subMesh_material.
  destruct (GetAnimationType heap (GetSubMesh heap (GetMesh heap model) i)
            =? nzAnimationType_Skeletal); simpl; [done|].
  destruct (GetAnimationType heap (GetSubMesh heap (GetMesh heap model) i)
            =? nzAnimationType_Static); simpl; [|done].
  destruct (IsAlphaBlendingEnabled heap _); simpl; [done|].
  destruct (Z.eqb_spec
              (GetMaterial heap model
                 (GetMaterialIndex heap (GetSubMesh heap (GetMesh heap model) i)))
              material) as [Hmaterial|Hmaterial]; simpl.
  - destruct (Z.eqb_spec (GetSubMesh heap (GetMesh heap model) i) mesh)
      as [Hmesh|Hmesh]; simpl.
    + rewrite Hmaterial, Hmesh. by eapply push_opaque_bucket.
    + eapply push_opaque_bucket_other; [done|]. intros [_ Heq]. by apply Hmesh.
  - eapply push_opaque_bucket_other; [done|]. intros [Heq _]. by apply Hmaterial.
Qed.

Lemma AddModel_loop_bucket model (indices : list nat) st material mesh :
  bucket heap (foldl (λ st i, AddModel_subMesh heap model i st) st indices).1
    material mesh
  = extended_bucket (bucket heap st.1 material mesh)
      (replicate (length (List.filter (lands_in heap model material mesh) indices))
         (GetTransformMatrix heap model)).
Proof.
  revert st. induction indices as [|i rest IH]; intros st; simpl; [done|].
  rewrite IH, AddModel_subMesh_bucket, extended_bucket_app.
  by destruct (lands_in heap model material mesh i).
Qed.

Lemma AddModel_loop_grouping model (indices : list nat) st :
  visibleModels (foldl (λ st i, AddModel_subMesh heap model i st) st indices).1
  = foldl (λ models i,
             push_opaque heap (subMesh_material heap model i)
               (GetSubMesh heap (GetMesh heap model) i)
               (GetTransformMatrix heap model) models)
      (visibleModels st.1) (List.filter (is_opaque heap model) indices).
Proof.
  revert st. induction indices as [|i rest IH]; intros st; simpl; [done|].
  rewrite IH. clear IH. destruct st as [q errors].
  unfold AddModel_subMesh, is_opaque, is_static, subMesh_animation,
    subMesh_material.
  destruct (GetAnimationType heap (GetSubMesh heap (GetMesh heap model) i)
            =? nzAnimationType_Skeletal); simpl; [done|].
  destruct (GetAnimationType heap (GetSubMesh heap (GetMesh heap model) i)
            =? nzAnimationType_Static); simpl; [|done].
  by destruct (IsAlphaBlendingEnabled heap _).
Qed.

(** The whole effect of [AddModel] on a store with room. *)
Lemma AddModel_effect model q :
  non_null model = true → IsDrawable heap model = true →
  store_has_room q (length (blended_records heap model)) →
  visibleModels (AddModel heap model q).1
    = grouping_with heap model (visibleModels q) ∧
  (∀ material mesh,
     bucket heap (AddModel heap model q).1 material mesh
     = extended_bucket (bucket heap q material mesh)
         (bucket_additions heap model material mesh)) ∧
  (queue_ordered heap q → queue_ordered heap (AddModel heap model q).1) ∧
  transparentStaticModels (AddModel heap model q).1
    = transparentStaticModels q ++ blended_records heap model ∧
  visibleTransparentsModels (AddModel heap model q).1
    = visibleTransparentsModels q
      ++ next_records (length (transparentStaticModels q))
           (length (blended_records heap model)) ∧
  transparentSkeletalModels (AddModel heap model q).1
    = transparentSkeletalModels q.
Proof.
  intros Hmodel Hdrawable Hroom.
  split; [|split; [|split]].
  - unfold AddModel. rewrite Hmodel, Hdrawable. simpl.
    apply (AddModel_loop_grouping model _ (q, [])).
  - intros material mesh. unfold AddModel. rewrite Hmodel, Hdrawable. simpl.
    apply (AddModel_loop_bucket model _ (q, [])).
  - intros Hordered.
    apply (AddModel_preserves heap (queue_ordered heap)); [done|].
    intros i st. apply AddModel_subMesh_ordered.
  - unfold AddModel. rewrite Hmodel, Hdrawable. simpl.
    destruct (AddModel_loop_effect heap model (subMesh_indices heap model) (q, []))
      as (_ & Hstore & Hlist & Hskeletal & _).
    unfold subMesh_indices in *. simpl in *.
    fold (subMesh_indices heap model) in *.
    fold (blended_records heap model) in *.
    split; [exact Hstore|]. split; [|exact Hskeletal].
    rewrite Hlist. f_equal. unfold blended_records at 1. rewrite length_fmap.
    apply static_indices_next_records.
    unfold store_has_room, blended_records in Hroom.
    by rewrite length_fmap in Hroom.
Qed.
End BucketEffect.

(** C4: what [AddModel] does with a drawable model of any number of
    submeshes, on a static store with room for its transparent records.  The
    bucket of every pair [(material, mesh)] is as it was when no submesh of
    the model is an opaque static submesh of that pair, and otherwise holds
    what it held, if it existed, followed by the model's transform once for
    each such submesh; a blended submesh adds to no bucket, and the grouping
    as a whole is the old one with the opaque static submeshes pushed to it
    in submesh order, unchanged when there is none.  The static
    transparent store grows by one record for each blended static submesh, in
    submesh order, the index list by the indices of those records, and an
    opaque submesh adds to neither; the skeletal store is untouched.  On a
    well-formed grouping the grouping stays well formed, and a bucket that
    exists is the only one of its pair.  For two models submitted one after
    the other, the bucket of a pair that either of them adds to holds what it
    held, then what the first adds, then what the second adds. *)
Theorem AddModel_groups_opaque_apart_from_transparent `{Services} (heap : Heap) :
  (∀ q model,
     non_null model = true → IsDrawable heap model = true →
     store_has_room q (length (blended_records heap model)) →
     visibleModels (AddModel heap model q).1
       = grouping_with heap model (visibleModels q) ∧
     (∀ material mesh,
        bucket heap (AddModel heap model q).1 material mesh
        = extended_bucket (bucket heap q material mesh)
            (bucket_additions heap model material mesh)) ∧
     (queue_ordered heap q →
        queue_ordered heap (AddModel heap model q).1 ∧
        ∀ material mesh,
          is_Some (bucket heap (AddModel heap model q).1 material mesh) →
          bucket_count (AddModel heap model q).1 material mesh = 1%nat) ∧
     transparentStaticModels (AddModel heap model q).1
       = transparentStaticModels q ++ blended_records heap model ∧
     visibleTransparentsModels (AddModel heap model q).1
       = visibleTransparentsModels q
         ++ next_records (length (transparentStaticModels q))
              (length (blended_records heap model)) ∧
     transparentSkeletalModels (AddModel heap model q).1
       = transparentSkeletalModels q) ∧
  (∀ q model1 model2 material mesh,
     non_null model1 = true → IsDrawable heap model1 = true →
     non_null model2 = true → IsDrawable heap model2 = true →
     store_has_room q (length (blended_records heap model1)
                       + length (blended_records heap model2)) →
     queue_ordered heap q →
     bucket_additions heap model1 material mesh
       ++ bucket_additions heap model2 material mesh ≠ [] →
     bucket heap (AddModel heap model2 (AddModel heap model1 q).1).1 material mesh
     = Some (default [] (bucket heap q material mesh)
             ++ bucket_additions heap model1 material mesh
             ++ bucket_additions heap model2 material mesh) ∧
     bucket_count (AddModel heap model2 (AddModel heap model1 q).1).1
       material mesh = 1%nat).
Proof.
  split.
  - intros q model Hmodel Hdrawable Hroom.
    destruct (AddModel_effect heap model q Hmodel Hdrawable Hroom)
      as (Hgrouping & Hbucket & Hordered & Hstore & Hlist & Hskeletal).
    split; [exact Hgrouping|]. split; [exact Hbucket|]. split; [|done].
    intros Hq. split; [by apply Hordered|].
    intros material mesh [transforms Htransforms].
    eapply bucket_count_one; [by apply Hordered|exact Htransforms].
  - intros q model1 model2 material mesh Hmodel1 Hdrawable1 Hmodel2 Hdrawable2
      Hroom Hq Hadded.
    destruct (AddModel_effect heap model1 q Hmodel1 Hdrawable1)
      as (_ & Hbucket1 & Hordered1 & Hstore1 & _).
    { unfold store_has_room in *. lia. }
    destruct (AddModel_effect heap model2 (AddModel heap model1 q).1
                Hmodel2 Hdrawable2) as (_ & Hbucket2 & Hordered2 & _).
    { unfold store_has_room in *. rewrite Hstore1, length_app. lia. }
    assert (bucket heap (AddModel heap model2 (AddModel heap model1 q).1).1
              material mesh
            = Some (default [] (bucket heap q material mesh)
                    ++ bucket_additions heap model1 material mesh
                    ++ bucket_additions heap model2 material mesh)) as Hbucket.
    { rewrite Hbucket2, Hbucket1, extended_bucket_app.
      unfold extended_bucket.
      by destruct (bucket_additions heap model1 material mesh
                   ++ bucket_additions heap model2 material mesh). }
    split; [exact Hbucket|].
    eapply bucket_count_one; [|exact Hbucket]. by apply Hordered2, Hordered1.
Qed.

(** Models 7 and 17 of the three-part heap share the mesh 7: a skeletal
    submesh, the submesh 71 under the blending material 1 and the submesh 72
    under the opaque material 2.  Submitted in that order to an empty queue,
    they leave both transforms in the bucket of (2, 72), in that order, and
    nothing in a bucket of (1, 71). *)
Lemma AddModel_groups_opaque_apart_from_transparent_witness :
  bucket three_part_heap
    (AddModel three_part_heap 17
       (AddModel three_part_heap 7 (mkQueue _ [] [] [] [] [] [] [])).1).1 2 72
  = Some [along_z 7; along_z 17] ∧
  bucket three_part_heap
    (AddModel three_part_heap 7 (mkQueue _ [] [] [] [] [] [] [])).1 1 71
  = None.
Proof.
  split.
  - refine (proj1 (proj2 (AddModel_groups_opaque_apart_from_transparent
                            three_part_heap)
                     (mkQueue _ [] [] [] [] [] [] []) 7 17 2 72
                     eq_refl eq_refl eq_refl eq_refl _ _ _)).
    + vm_compute. reflexivity.
    + split; constructor.
    + vm_compute. congruence.
  - refine (proj1 (proj2 (proj1 (AddModel_groups_opaque_apart_from_transparent
                                   three_part_heap)
                            (mkQueue _ [] [] [] [] [] [] []) 7 eq_refl eq_refl _))
              1 71).
    vm_compute. reflexivity.
Defined.

(** ** Sorting a queue in any state it can be in *)

Section ReachableFacts.
Context `{Services} `{StdSort} (heap : Heap) (NAZARA_DEBUG : bool).

Lemma reachable_invariant q :
  reachable heap NAZARA_DEBUG q →
  transparents_static q ∧ queue_ordered heap q ∧ transparentSkeletalModels q = [].
Proof.
  induction 1 as [q|q s Hq IH Hroom|q camera q' Hq IH HSort].
  - split; [constructor|]. split; [split; constructor|done].
  - destruct IH as (Hstatic & Hordered & Hskeletal).
    destruct (submit_invariant heap NAZARA_DEBUG q s Hstatic Hordered)
      as (? & ? & Hskeletal'); [lia|].
    split; [done|]. split; [done|]. by rewrite Hskeletal'.
  - destruct IH as (Hstatic & Hordered & Hskeletal).
    destruct (Sort_same_store camera q (transparents_static_same_store _ Hstatic))
      as (l' & HSort' & Hperm & _).
    rewrite HSort' in HSort. injection HSort as <-.
    split; [|done]. unfold transparents_static in *. simpl.
    by rewrite <- Hperm.
Qed.

(** A frame whose store stays within bounds is a state of the queue. *)
Lemma frame_reachable q (submissions : list Submission) :
  Z.of_nat (length (transparentStaticModels
                      (frame heap NAZARA_DEBUG q submissions))) < 2 ^ 32 →
  reachable heap NAZARA_DEBUG (frame heap NAZARA_DEBUG q submissions).
Proof.
  unfold frame.
  induction submissions as [|s submissions IH] using rev_ind; simpl.
  { intros _. apply reachable_Clear. }
  rewrite foldl_app. simpl. intros Hroom.
  apply reachable_submit; [|done]. apply IH.
  pose proof (submit_length heap NAZARA_DEBUG
                (foldl (submit heap NAZARA_DEBUG) (Clear q) submissions) s).
  lia.
Qed.
End ReachableFacts.

(** C1: in every state the queue can be in (constructed or cleared, then
    any submissions and sorts), and for every camera, [Sort] returns.  It
    changes the index list only: the lists of lights and drawables, the
    opaque grouping and the two transparent stores are as they were.  What it
    leaves in the index list is a rearrangement of what the list held, in
    ascending order of each entry's own distance to the camera's near plane,
    the distance of the record read from the store the entry's own tag
    names; and every entry still names a record of that store.  (Every entry
    of such a state is static; the comparator reads both of its records from
    the store of its first argument's tag, which is then each one's own.) *)
Theorem Sort_orders_reachable_queues `{Services} `{StdSort} (heap : Heap)
    (NAZARA_DEBUG : bool) (camera : NzCamera) (q : NzForwardRenderQueue) :
  reachable heap NAZARA_DEBUG q →
  ∃ q', Sort camera q = Some q' ∧
        directionnalLights q' = directionnalLights q ∧
        otherDrawables q' = otherDrawables q ∧
        visibleLights q' = visibleLights q ∧
        visibleModels q' = visibleModels q ∧
        transparentStaticModels q' = transparentStaticModels q ∧
        transparentSkeletalModels q' = transparentSkeletalModels q ∧
        visibleTransparentsModels q ≡ₚ visibleTransparentsModels q' ∧
        ascending_by_own_distance q' (Camera_nearPlane camera)
          (visibleTransparentsModels q') ∧
        Forall (λ e, is_Some (transparent_matrix q' e.2 e.1))
          (visibleTransparentsModels q').
Proof.
  intros Hq.
  destruct (reachable_invariant heap NAZARA_DEBUG q Hq) as (Hstatic & _ & _).
  pose proof (transparents_static_same_store q Hstatic) as Hsame.
  destruct (Sort_same_store camera q Hsame) as (l' & HSort & Hperm & Hascending & _).
  exists (with_index_list l' q). split; [exact HSort|].
  do 6 (split; [reflexivity|]). split; [exact Hperm|].
  split; [exact Hascending|]. simpl.
  destruct Hsame as [tag Hall].
  rewrite Forall_forall in Hall |- *. intros e He. rewrite <- Hperm in He.
  destruct (Hall e He) as [-> Hrecord]. exact Hrecord.
Qed.

(** Three blended models of the example heap at heights 3, 1 and 2, and an
    opaque one, submitted in that order after a clear. *)
Lemma Sort_orders_reachable_queues_witness :
  ∃ q', @Sort translation_world stable_std_sort (fz 0)
          (frame digit_heap false three_queue
             [Submit_model 312341; Submit_model 112341; Submit_model 412340;
              Submit_model 212341]) = Some q' ∧
        visibleTransparentsModels q' = [(1, true); (2, true); (0, true)].
Proof.
  destruct (@Sort_orders_reachable_queues translation_world stable_std_sort
              digit_heap false (fz 0)
              (frame digit_heap false three_queue
                 [Submit_model 312341; Submit_model 112341; Submit_model 412340;
                  Submit_model 212341])) as (q' & HSort & _).
  { apply frame_reachable. vm_compute. reflexivity. }
  exists q'. split; [exact HSort|].
  assert (@Sort translation_world stable_std_sort (fz 0)
            (frame digit_heap false three_queue
               [Submit_model 312341; Submit_model 112341; Submit_model 412340;
                Submit_model 212341])
          = Some (with_index_list [(1, true); (2, true); (0, true)]
                    (frame digit_heap false three_queue
                       [Submit_model 312341; Submit_model 112341;
                        Submit_model 412340; Submit_model 212341]))) as Hrun
    by reflexivity.
  rewrite Hrun in HSort. by injection HSort as <-.
Defined.
